(** * gitlab-my-tasks: hierarchy reconciliation and rendering

    A shallow embedding of [gitlab_my_tasks.py]: the checklist parser, the
    links fetcher, the tree builder and the work-item hierarchy printer,
    together with the properties of the design document that concern them. *)

From stdpp Require Import gmap strings list fin_maps pretty.
From Stdlib Require Import ZArith Lia Ascii String.

Open Scope string_scope.
Open Scope list_scope.
Open Scope Z_scope.

(** ** Exceptions

    Python code either returns a value or raises.  Only the exceptions the
    modelled functions can raise are listed. *)

Inductive Exception : Type :=
  | HTTPError (status : Z)      (* requests: Response.raise_for_status *)
  | JSONDecodeError             (* requests: Response.json *)
  | KeyError                    (* d[k] with k absent *)
  | AttributeError              (* v.get / v.split on a value without it *)
  | TypeError.                  (* iteration over a non-iterable *)

Inductive Result (A : Type) : Type :=
  | Ok (a : A)
  | Raise (e : Exception).
Arguments Ok {A} a.
Arguments Raise {A} e.

Definition rbind {A B} (m : Result A) (k : A → Result B) : Result B :=
  match m with
  | Ok a => k a
  | Raise e => Raise e
  end.

#[global] Instance Result_ret : MRet Result := @Ok.
#[global] Instance Result_bind : MBind Result := λ A B k m, rbind m k.

(** ** HTTP responses (the part of [requests.Response] the code reads) *)

Record Response (A : Type) : Type := mkResponse {
  status_code : Z;
  body : option A   (* the decoded JSON body; None when it does not decode *)
}.
Arguments mkResponse {A} _ _.
Arguments status_code {A} _.
Arguments body {A} _.

(** [Response.raise_for_status] of the requests library: client errors
    (4xx) and server errors (5xx) raise [HTTPError]. *)
Definition raise_for_status {A} (response : Response A) : Result unit :=
  if (400 <=? status_code response) && (status_code response <? 600)
  then Raise (HTTPError (status_code response))
  else Ok tt.

(** [Response.json]. *)
Definition json {A} (response : Response A) : Result A :=
  match body response with
  | Some v => Ok v
  | None => Raise JSONDecodeError
  end.

(** ** Issues and links (REST side) *)

(** The [parent] object of an issue; only its [id] key is read. *)
Record ParentRef : Type := mkParent { parent_id : option Z }.

Record Issue : Type := mkIssue {
  issue_id : Z;                       (* issue["id"] *)
  issue_iid : Z;                      (* issue["iid"] *)
  issue_type : option string;         (* issue.get("type") *)
  issue_parent : option ParentRef;    (* issue.get("parent") *)
  issue_title : string;
  issue_state : string;
  issue_description : option string
}.

Record Link : Type := mkLink {
  link_iid : Z;                       (* link["iid"] *)
  link_type : option string           (* link.get("link_type") *)
}.

#[global] Instance ParentRef_eq_dec : EqDecision ParentRef.
Proof. solve_decision. Defined.
#[global] Instance Issue_eq_dec : EqDecision Issue.
Proof. solve_decision. Defined.
#[global] Instance Link_eq_dec : EqDecision Link.
Proof. solve_decision. Defined.

(** [d.setdefault(k, []).append(x)] on a dict of lists. *)
Definition setdefault_append (k : Z) (x : Issue)
    (d : gmap Z (list Issue)) : gmap Z (list Issue) :=
  <[k := default [] (d !! k) ++ [x]]> d.

(** [parent and parent.get("id") in issues_by_id]: an empty or absent parent
    object is falsy, and a parent object without an id looks up [None]. *)
Definition resolvable_parent (issues_by_id : gmap Z Issue) (issue : Issue) : option Z :=
  match issue_parent issue with
  | Some parent =>
      match parent_id parent with
      | Some pid => if decide (is_Some (issues_by_id !! pid)) then Some pid else None
      | None => None
      end
  | None => None
  end.

Section Builder.

(** The project whose links are queried, and the tracker's answer to
    [GET /projects/:id/issues/:iid/links]. *)
Variable PROJECT_ID : Z.
Variable links_endpoint : Z → Z → Response (list Link).

Definition get_issue_links (project_id issue_iid : Z) : Result (list Link) :=
  let response := links_endpoint project_id issue_iid in
  if status_code response =? 404 then Ok []
  else raise_for_status response;; json response.

(** [{issue["id"]: issue for issue in issues}]: a later issue replaces an
    earlier one with the same key. *)
Definition index_by_id (issues : list Issue) : gmap Z Issue :=
  foldl (λ d issue, <[issue_id issue := issue]> d) ∅ issues.

Definition index_iid_to_id (issues : list Issue) : gmap Z Z :=
  foldl (λ d issue, <[issue_iid issue := issue_id issue]> d) ∅ issues.

(** First loop: the explicit parent references. *)
Definition parent_pass (issues_by_id : gmap Z Issue) (issues : list Issue)
    (children_map : gmap Z (list Issue)) : gmap Z (list Issue) :=
  foldl (λ cm issue,
           match resolvable_parent issues_by_id issue with
           | Some pid => setdefault_append pid issue cm
           | None => cm
           end) children_map issues.

(** Body of [for link in links] for one link of [issue]. *)
Definition link_step (issues_by_id : gmap Z Issue) (iid_to_id : gmap Z Z)
    (issue : Issue) (children_map : gmap Z (list Issue)) (link : Link)
    : Result (gmap Z (list Issue)) :=
  if decide (link_type link = Some "blocks") then
    match iid_to_id !! link_iid link with
    | Some linked_id =>
        (* [linked_id and linked_id != issue["id"]]: 0 is falsy *)
        if decide (linked_id ≠ 0 ∧ linked_id ≠ issue_id issue) then
          match issues_by_id !! linked_id with
          | Some target => Ok (setdefault_append (issue_id issue) target children_map)
          | None => Raise KeyError
          end
        else Ok children_map
    | None => Ok children_map
    end
  else Ok children_map.

Fixpoint link_loop (issues_by_id : gmap Z Issue) (iid_to_id : gmap Z Z)
    (issue : Issue) (links : list Link) (children_map : gmap Z (list Issue))
    : Result (gmap Z (list Issue)) :=
  match links with
  | [] => Ok children_map
  | link :: rest =>
      cm ← link_step issues_by_id iid_to_id issue children_map link;
      link_loop issues_by_id iid_to_id issue rest cm
  end.

(** Second loop: one links request per issue that is not a task. *)
Fixpoint link_pass (issues_by_id : gmap Z Issue) (iid_to_id : gmap Z Z)
    (issues : list Issue) (children_map : gmap Z (list Issue))
    : Result (gmap Z (list Issue)) :=
  match issues with
  | [] => Ok children_map
  | issue :: rest =>
      if decide (default "issue" (issue_type issue) = "issue") then
        links ← get_issue_links PROJECT_ID (issue_iid issue);
        cm ← link_loop issues_by_id iid_to_id issue links children_map;
        link_pass issues_by_id iid_to_id rest cm
      else link_pass issues_by_id iid_to_id rest children_map
  end.

(** [any(issue in siblings for siblings in children_map.values())]. *)
Definition in_some_entry (children_map : gmap Z (list Issue)) (issue : Issue) : bool :=
  existsb (λ siblings : list Issue, bool_decide (issue ∈ siblings))
    (snd <$> map_to_list children_map).

Definition is_child (issues_by_id : gmap Z Issue)
    (children_map : gmap Z (list Issue)) (issue : Issue) : bool :=
  bool_decide (is_Some (resolvable_parent issues_by_id issue))
  || in_some_entry children_map issue.

(** Third loop. *)
Definition root_pass (issues_by_id : gmap Z Issue)
    (children_map : gmap Z (list Issue)) (issues : list Issue) : list Issue :=
  foldl (λ root_issues issue,
           if is_child issues_by_id children_map issue then root_issues
           else root_issues ++ [issue]) [] issues.

Definition build_issue_tree (issues : list Issue)
    : Result (gmap Z Issue * gmap Z (list Issue) * list Issue) :=
  let issues_by_id := index_by_id issues in
  let iid_to_id := index_iid_to_id issues in
  let children_map := parent_pass issues_by_id issues ∅ in
  children_map ← link_pass issues_by_id iid_to_id issues children_map;
  let root_issues := root_pass issues_by_id children_map issues in
  Ok (issues_by_id, children_map, root_issues).

End Builder.

(** ** Checklist parser

    A [str] is modelled as a [string] whose characters are the code points
    below 256. *)

Definition ord (c : ascii) : Z := Z.of_N (N_of_ascii c).

Definition LF : ascii := "010"%char.
Definition CR : ascii := "013"%char.

(** The line boundaries of [str.splitlines]: LF, VT, FF, CR, FS, GS, RS
    and NEL. *)
Definition is_line_boundary (c : ascii) : bool :=
  bool_decide (ord c ∈ [10; 11; 12; 13; 28; 29; 30; 133]).

(** [str.isspace] on one character, which is what [str.strip] removes. *)
Definition isspace (c : ascii) : bool :=
  bool_decide (ord c ∈ [9; 10; 11; 12; 13; 28; 29; 30; 31; 32; 133; 160]).

(** [str.splitlines]: CR LF counts as one boundary, and a final boundary
    does not open an empty last line. *)
Fixpoint splitlines (s : string) : list string :=
  match s with
  | EmptyString => []
  | String c rest =>
      if is_line_boundary c then
        EmptyString ::
          match rest with
          | String c' rest' =>
              if decide (c = CR ∧ c' = LF) then splitlines rest' else splitlines rest
          | EmptyString => []
          end
      else
        match splitlines rest with
        | [] => [String c EmptyString]
        | line :: lines => String c line :: lines
        end
  end.

Fixpoint lstrip (s : string) : string :=
  match s with
  | EmptyString => EmptyString
  | String c rest => if isspace c then lstrip rest else s
  end.

Fixpoint rstrip (s : string) : string :=
  match s with
  | EmptyString => EmptyString
  | String c rest =>
      match rstrip rest with
      | EmptyString => if isspace c then EmptyString else String c EmptyString
      | rest' => String c rest'
      end
  end.

Definition strip (s : string) : string := rstrip (lstrip s).

(** [s] without its prefix [p], when it has it. *)
Fixpoint chop (p s : string) : option string :=
  match p, s with
  | EmptyString, _ => Some s
  | String a p', String b s' => if decide (a = b) then chop p' s' else None
  | String _ _, EmptyString => None
  end.

(** The longest prefix of [s] free of LF, and what follows it: the greedy
    run of [.] of a regular expression. *)
Fixpoint dot_run (s : string) : string * string :=
  match s with
  | EmptyString => (EmptyString, EmptyString)
  | String c rest =>
      if decide (c = LF) then (EmptyString, s)
      else let '(run, after) := dot_run rest in (String c run, after)
  end.

(** [re.match(r"^- \[( |x)\] (.+)$", s)], returning groups 1 and 2.  [$]
    holds at the end of the string and before a final LF. *)
Definition re_match (s : string) : option (string * string) :=
  rest ← chop "- [" s;
  match rest with
  | String c rest =>
      if decide (c = " "%char ∨ c = "x"%char) then
        rest ← chop "] " rest;
        let '(text, after) := dot_run rest in
        if decide (text ≠ EmptyString ∧ (after = EmptyString ∨ after = String LF EmptyString))
        then Some (String c EmptyString, text)
        else None
      else None
  | EmptyString => None
  end.

Definition parse_tasks_from_description (description : option string)
    : list (bool * string) :=
  match description with
  | None | Some EmptyString => []     (* [not description] *)
  | Some description =>
      foldl (λ tasks line,
               match re_match (strip line) with
               | Some (group1, group2) => tasks ++ [(bool_decide (group1 = "x"), group2)]
               | None => tasks
               end) [] (splitlines description)
  end.

(** ** JSON values (GraphQL side)

    What [response.json()] returns: [None], [bool], [int], [str], [list] and
    [dict] with string keys.  Numbers with a fraction are left out. *)

#[local] Unset Elimination Schemes.
Inductive JSON : Type :=
  | JNull
  | JBool (b : bool)
  | JNum (n : Z)
  | JStr (s : string)
  | JList (l : list JSON)
  | JDict (d : list (string * JSON)).
#[local] Set Elimination Schemes.

(** [d.get(k)]: the value of the first entry with key [k]. *)
Fixpoint dict_get (d : list (string * JSON)) (k : string) : option JSON :=
  match d with
  | [] => None
  | (k', v) :: rest => if decide (k' = k) then Some v else dict_get rest k
  end.

(** [d.get(k, dflt)]. *)
Definition get (d : list (string * JSON)) (k : string) (dflt : JSON) : JSON :=
  default dflt (dict_get d k).

(** [d.get(k, dflt)] handed to the rest of the function body [f].  It equals
    [f (get d k dflt)]; in this form a recursive call of [f] on the value
    found is a call on a part of [d]. *)
Definition get_then {A} (d : list (string * JSON)) (k : string) (dflt : JSON)
    (f : JSON → A) : A :=
  (fix find (d : list (string * JSON)) : A :=
     match d with
     | [] => f dflt
     | (k', v) :: rest => if decide (k' = k) then f v else find rest
     end) d.

(** *** [str()] of a JSON value, as an f-string field formats it *)

Definition hexdigit (n : Z) : ascii :=
  default "0"%char (String.get (Z.to_nat n) "0123456789abcdef").

Definition DQUOTE : ascii := "034"%char.
Definition SQUOTE : ascii := "039"%char.
Definition BACKSLASH : ascii := "092"%char.

Fixpoint contains (c : ascii) (s : string) : bool :=
  match s with
  | EmptyString => false
  | String c' rest => bool_decide (c = c') || contains c rest
  end.

(** One character of [repr] of a [str] delimited by [quote]. *)
Definition repr_char (quote c : ascii) : string :=
  let n := ord c in
  if decide (c = quote ∨ c = BACKSLASH) then String BACKSLASH (String c EmptyString)
  else if decide (n = 9) then String BACKSLASH "t"
  else if decide (n = 10) then String BACKSLASH "n"
  else if decide (n = 13) then String BACKSLASH "r"
  else if decide (n < 32 ∨ n = 127 ∨ 128 ≤ n ≤ 160 ∨ n = 173) then
    String BACKSLASH (String "x" (String (hexdigit (n / 16)) (String (hexdigit (n mod 16)) EmptyString)))
  else String c EmptyString.

Fixpoint repr_chars (quote : ascii) (s : string) : string :=
  match s with
  | EmptyString => EmptyString
  | String c rest => repr_char quote c +:+ repr_chars quote rest
  end.

Definition repr_str (s : string) : string :=
  let quote := if contains SQUOTE s && negb (contains DQUOTE s) then DQUOTE else SQUOTE in
  String quote (repr_chars quote s) +:+ String quote EmptyString.

Fixpoint repr (v : JSON) : string :=
  match v with
  | JNull => "None"
  | JBool b => if b then "True" else "False"
  | JNum n => pretty n
  | JStr s => repr_str s
  | JList l => "[" +:+ String.concat ", " (List.map repr l) +:+ "]"
  | JDict d =>
      "{" +:+ String.concat ", "
                (List.map (λ kv : string * JSON,
                             let '(k, v) := kv in repr_str k +:+ ": " +:+ repr v) d)
          +:+ "}"
  end.

Definition py_str (v : JSON) : string :=
  match v with
  | JStr s => s
  | _ => repr v
  end.

(** [s.split("T")[0]]: the part of [s] before its first T. *)
Fixpoint split_T_0 (s : string) : string :=
  match s with
  | EmptyString => EmptyString
  | String c rest => if decide (c = "T"%char) then EmptyString else String c (split_T_0 rest)
  end.

(** [s * n]. *)
Fixpoint str_mul (s : string) (n : nat) : string :=
  match n with
  | O => EmptyString
  | S n => s +:+ str_mul s n
  end.

(** ** The interpreter state the GraphQL side acts on

    List objects live in a store and are passed by reference; [print]
    appends to the console; every GraphQL request sent is logged. *)

Record Request : Type := mkRequest {   (* the [variables] of workItemTreeQuery *)
  var_id : string;
  var_pageSize : Z;
  var_endCursor : string
}.

Record World : Type := mkWorld {
  heap : gmap positive (list string);
  stdout : list string;
  requests : list Request
}.

Definition M (A : Type) : Type := World → Result A * World.

#[global] Instance M_ret : MRet M := λ A a σ, (Ok a, σ).
#[global] Instance M_bind : MBind M := λ A B k m σ,
  match m σ with
  | (Ok a, σ') => k a σ'
  | (Raise e, σ') => (Raise e, σ')
  end.

Definition raise {A} (e : Exception) : M A := λ σ, (Raise e, σ).

Definition lift {A} (r : Result A) : M A := λ σ, (r, σ).

(** [[]]: a new list object. *)
Definition new_list : M positive := λ σ,
  let l := fresh (dom (heap σ)) in
  (Ok l, mkWorld (<[l := []]> (heap σ)) (stdout σ) (requests σ)).

(** [lines.append(line)]. *)
Definition list_append (lines : positive) (line : string) : M unit := λ σ,
  (Ok tt, mkWorld (alter (λ v, v ++ [line]) lines (heap σ)) (stdout σ) (requests σ)).

Definition print (line : string) : M unit := λ σ,
  (Ok tt, mkWorld (heap σ) (stdout σ ++ [line]) (requests σ)).

(** [v == s] for a str [s] and the result of [d.get(k)]. *)
Definition eq_str (v : option JSON) (s : string) : bool :=
  match v with
  | Some (JStr s') => bool_decide (s' = s)
  | _ => false
  end.

(** [for x in v: body(x)] for a [body] whose first action is [x.get(...)]:
    a list yields its elements; a str yields its characters and a dict its
    keys, all strs, on which [.get] raises; the rest is not iterable. *)
Definition for_in (v : JSON) (body : JSON → M unit) : M unit :=
  match v with
  | JList l =>
      (fix loop (l : list JSON) : M unit :=
         match l with
         | [] => mret tt
         | x :: rest => body x;; loop rest
         end) l
  | JStr s => if decide (s = EmptyString) then mret tt else raise AttributeError
  | JDict d => if decide (d = []) then mret tt else raise AttributeError
  | JNull | JBool _ | JNum _ => raise TypeError
  end.

Fixpoint print_workitem_hierarchy (workitem : JSON) (indent : nat)
    (lines : option positive) {struct workitem} : M positive :=
  lines ← match lines with
          | None => new_list
          | Some lines => mret lines
          end;
  let prefix := str_mul "    " indent +:+ "- " in
  match workitem with
  | JDict w =>
      match get w "workItemType" (JDict []) with
      | JDict wit =>
          let wtype := get wit "name" (JStr "?") in
          let title := get w "title" (JStr "") in
          let iid := get w "iid" (JStr "") in
          let state := get w "state" (JStr "") in
          match get w "createdAt" (JStr "") with
          | JStr created =>
              let created_at := split_T_0 created in
              let line := prefix +:+ "[" +:+ py_str wtype +:+ "] #" +:+ py_str iid
                            +:+ " | " +:+ py_str state +:+ " | " +:+ created_at
                            +:+ " | " +:+ py_str title in
              print line;;
              list_append lines line;;
              get_then w "widgets" (JList []) (λ widgets,
                for_in widgets (λ widget,
                  match widget with
                  | JDict wd =>
                      if eq_str (dict_get wd "type") "HIERARCHY" then
                        get_then wd "children" (JDict []) (λ children,
                          match children with
                          | JDict cd =>
                              get_then cd "nodes" (JList []) (λ children,
                                for_in children (λ child,
                                  print_workitem_hierarchy child (S indent) (Some lines);;
                                  mret tt))
                          | _ => raise AttributeError
                          end)
                      else mret tt
                  | _ => raise AttributeError
                  end));;
              mret lines
          | _ => raise AttributeError
          end
      | _ => raise AttributeError
      end
  | _ => raise AttributeError
  end.

(** [v[k]] for a str key [k]. *)
Definition subscript (v : JSON) (k : string) : Result JSON :=
  match v with
  | JDict d =>
      match dict_get d k with
      | Some x => Ok x
      | None => Raise KeyError
      end
  | _ => Raise TypeError
  end.

Section Walker.

(** The tracker's answer to a POST of workItemTreeQuery with the given
    variables. *)
Variable graphql_endpoint : Request → Response JSON.

Definition post (variables : Request) : M (Response JSON) := λ σ,
  (Ok (graphql_endpoint variables),
   mkWorld (heap σ) (stdout σ) (requests σ ++ [variables])).

Definition fetch_workitem_hierarchy (issue_gid : string) (page_size : Z) : M JSON :=
  let variables := mkRequest issue_gid page_size "" in
  response ← post variables;
  lift (raise_for_status response);;
  data ← lift (json response);
  data ← lift (subscript data "data");
  lift (subscript data "workItem").

(** The loop of the main program:
    [for gid in my_gids: workitem = fetch_workitem_hierarchy(gid, page_size=100);
     print_workitem_hierarchy(workitem, lines=output_lines)]. *)
Fixpoint main_loop (my_gids : list string) (output_lines : positive) : M unit :=
  match my_gids with
  | [] => mret tt
  | gid :: rest =>
      workitem ← fetch_workitem_hierarchy gid 100;
      print_workitem_hierarchy workitem 0 (Some output_lines);;
      main_loop rest output_lines
  end.

End Walker.

(** ** Work items as the design document describes them

    A work item of which any field may be missing, its encoding as the JSON
    value the tracker would send, and the lines the document asks for. *)

Record Attrs : Type := mkAttrs {
  a_id : option string;
  a_iid : option string;
  a_title : option string;
  a_state : option string;
  a_createdAt : option string;
  a_workItemType : option (option string)   (* the object, then its [name] *)
}.

#[local] Unset Elimination Schemes.
Inductive PartialItem : Type :=
  | PItem (attrs : Attrs) (widgets : option (list PartialWidget))
with PartialWidget : Type :=
  | PWidget (type : option string) (hasChildren : option bool)
            (children : option (option (list PartialItem))).
                       (* the [children] object, then its [nodes] *)
#[local] Set Elimination Schemes.

(** A key that is present only when its value is. *)
Definition field {A} (k : string) (f : A → JSON) (v : option A) : list (string * JSON) :=
  match v with
  | Some x => [(k, f x)]
  | None => []
  end.

Definition encode_attrs (a : Attrs) : list (string * JSON) :=
  field "id" JStr (a_id a) ++ field "iid" JStr (a_iid a)
  ++ field "title" JStr (a_title a) ++ field "state" JStr (a_state a)
  ++ field "createdAt" JStr (a_createdAt a)
  ++ field "workItemType" (λ name, JDict (field "name" JStr name)) (a_workItemType a).

Fixpoint encode (p : PartialItem) : JSON :=
  match p with
  | PItem attrs widgets =>
      JDict (encode_attrs attrs ++
             match widgets with
             | Some ws => [("widgets", JList (List.map encode_widget ws))]
             | None => []
             end)
  end
with encode_widget (w : PartialWidget) : JSON :=
  match w with
  | PWidget type hasChildren children =>
      JDict (field "type" JStr type ++ field "hasChildren" JBool hasChildren ++
             match children with
             | Some (Some nodes) => [("children", JDict [("nodes", JList (List.map encode nodes))])]
             | Some None => [("children", JDict [])]
             | None => []
             end)
  end.

(** The line of one work item: ['?'] for a missing type name, the empty
    string for any other missing attribute, the date part of [createdAt]. *)
Definition expected_line (a : Attrs) (indent : nat) : string :=
  (str_mul "    " indent +:+ "- ") +:+ "["
    +:+ default "?" (default None (a_workItemType a))
    +:+ "] #" +:+ default "" (a_iid a)
    +:+ " | " +:+ default "" (a_state a)
    +:+ " | " +:+ split_T_0 (default "" (a_createdAt a))
    +:+ " | " +:+ default "" (a_title a).

(** Depth-first rendering: the item's line, then the children of its
    HIERARCHY widgets one level deeper; anything missing has no children. *)
Fixpoint expected (p : PartialItem) (indent : nat) : list string :=
  match p with
  | PItem attrs widgets =>
      expected_line attrs indent ::
        match widgets with
        | Some ws => List.concat (List.map (λ w, expected_widget w indent) ws)
        | None => []
        end
  end
with expected_widget (w : PartialWidget) (indent : nat) : list string :=
  match w with
  | PWidget type _ children =>
      if decide (type = Some "HIERARCHY") then
        match children with
        | Some (Some nodes) => List.concat (List.map (λ c, expected c (S indent)) nodes)
        | _ => []
        end
      else []
  end.

(** ** The hierarchy the tracker really holds, and its answer to
    workItemTreeQuery

    The query asks for the work item, its widgets, one page of children of
    the HIERARCHY widget, and one page of their children; the third level
    is asked for without widgets. *)

#[local] Unset Elimination Schemes.
Inductive RealItem : Type :=
  | Real (gid iid title state createdAt wtype : string)
         (other_widgets : list string)      (* types of the other widgets *)
         (children : list RealItem).
#[local] Set Elimination Schemes.

Definition real_attrs (r : RealItem) : Attrs :=
  match r with
  | Real gid iid title state createdAt wtype _ _ =>
      mkAttrs (Some gid) (Some iid) (Some title) (Some state) (Some createdAt)
              (Some (Some wtype))
  end.

Definition real_children (r : RealItem) : list RealItem :=
  match r with Real _ _ _ _ _ _ _ children => children end.

Definition real_other_widgets (r : RealItem) : list PartialWidget :=
  match r with
  | Real _ _ _ _ _ _ others _ => List.map (λ t, PWidget (Some t) None None) others
  end.

(** [children(first: $pageSize, after: "")]: the first page. *)
Definition first_page (page_size : Z) (children : list RealItem) : list RealItem :=
  take (Z.to_nat page_size) children.

Definition hierarchy_widget (page_size : Z) (node : RealItem → PartialItem)
    (r : RealItem) : PartialWidget :=
  PWidget (Some "HIERARCHY")
          (Some (bool_decide (real_children r ≠ [])))
          (Some (Some (List.map node (first_page page_size (real_children r))))).

Definition level2 (r : RealItem) : PartialItem := PItem (real_attrs r) None.

Definition level1 (page_size : Z) (r : RealItem) : PartialItem :=
  PItem (real_attrs r)
        (Some (real_other_widgets r ++ [hierarchy_widget page_size level2 r])).

Definition level0 (page_size : Z) (r : RealItem) : PartialItem :=
  PItem (real_attrs r)
        (Some (real_other_widgets r ++ [hierarchy_widget page_size (level1 page_size) r])).

Definition answer (page_size : Z) (r : RealItem) : Response JSON :=
  mkResponse 200 (Some (JDict [("data", JDict [("workItem", encode (level0 page_size r))])])).

(** The part of a hierarchy the query embeds: levels 0 to 2, one page of
    children each. *)
Definition cut_children (r : RealItem) (children : list RealItem) : RealItem :=
  match r with
  | Real gid iid title state createdAt wtype others _ =>
      Real gid iid title state createdAt wtype others children
  end.

Definition embedded (page_size : Z) (r : RealItem) : RealItem :=
  cut_children r
    (List.map (λ c1, cut_children c1
                 (List.map (λ c2, cut_children c2 [])
                    (first_page page_size (real_children c1))))
       (first_page page_size (real_children r))).

(** The lines of levels 0 to 2 of a real hierarchy, first page only. *)
Definition lines012 (page_size : Z) (r : RealItem) : list string :=
  expected_line (real_attrs r) 0 ::
    List.concat (List.map (λ c1,
        expected_line (real_attrs c1) 1 ::
          List.map (λ c2, expected_line (real_attrs c2) 2)
            (first_page page_size (real_children c1)))
      (first_page page_size (real_children r))).

(** ** Notions the properties of the tree builder are stated with *)

(** [children_map.get(p, [])], as [print_issue_tree] reads the map. *)
Definition entry (children_map : gmap Z (list Issue)) (p : Z) : list Issue :=
  default [] (children_map !! p).

(** The issue one link of [src] attaches, if any: the link is a [blocks]
    link, its display id is known, and the id found is neither 0 nor the id
    of [src]. *)
Definition blocks_target (issues_by_id : gmap Z Issue) (iid_to_id : gmap Z Z)
    (src : Issue) (link : Link) : option Issue :=
  if decide (link_type link = Some "blocks") then
    match iid_to_id !! link_iid link with
    | Some linked_id =>
        if decide (linked_id ≠ 0 ∧ linked_id ≠ issue_id src)
        then issues_by_id !! linked_id else None
    | None => None
    end
  else None.

Definition link_targets (issues_by_id : gmap Z Issue) (iid_to_id : gmap Z Z)
    (src : Issue) (links : list Link) : list Issue :=
  omap (blocks_target issues_by_id iid_to_id src) links.

(** The links the tracker returns for an issue (none when the request
    fails). *)
Definition fetched_links (links_endpoint : Z → Z → Response (list Link))
    (project_id : Z) (issue : Issue) : list Link :=
  match get_issue_links links_endpoint project_id (issue_iid issue) with
  | Ok links => links
  | Raise _ => []
  end.

Definition is_issue_type (issue : Issue) : bool :=
  bool_decide (default "issue" (issue_type issue) = "issue").

(** The issues whose explicit parent reference resolves to [p], in input
    order. *)
Definition parent_children (issues_by_id : gmap Z Issue) (issues : list Issue)
    (p : Z) : list Issue :=
  filter (λ x, resolvable_parent issues_by_id x = Some p) issues.

(** The link targets of the non-task issues with id [p], in input and link
    order. *)
Definition link_children (links_endpoint : Z → Z → Response (list Link))
    (project_id : Z) (issues_by_id : gmap Z Issue) (iid_to_id : gmap Z Z)
    (issues : list Issue) (p : Z) : list Issue :=
  List.concat (List.map (λ src,
            if is_issue_type src && bool_decide (issue_id src = p)
            then link_targets issues_by_id iid_to_id src
                   (fetched_links links_endpoint project_id src)
            else []) issues).

(** No issue is a child under two parents. *)
Definition single_parent (children_map : gmap Z (list Issue)) : Prop :=
  ∀ x p1 p2, x ∈ entry children_map p1 → x ∈ entry children_map p2 → p1 = p2.

(** An edge of the children map, between ids. *)
Definition child_edge (children_map : gmap Z (list Issue)) (a b : Z) : Prop :=
  ∃ x, x ∈ entry children_map a ∧ issue_id x = b.

(** A walk along the edges of a relation, as the list of the ids visited. *)
Fixpoint walk (R : Z → Z → Prop) (ids : list Z) : Prop :=
  match ids with
  | a :: (b :: _) as rest => R a b ∧ walk R rest
  | _ => True
  end.

Definition acyclic (R : Z → Z → Prop) : Prop := ∀ a, ¬ tc R a a.

(** Following the map from a root never revisits an id, and no issue is its
    own descendant. *)
Definition cycle_free (children_map : gmap Z (list Issue)) (root_issues : list Issue) : Prop :=
  (∀ r ids, r ∈ root_issues → walk (child_edge children_map) (issue_id r :: ids) →
            NoDup (issue_id r :: ids))
  ∧ acyclic (child_edge children_map).

(** The relationships of the input: [b] has a resolvable parent reference
    to [a], or a non-task issue with id [a] has a link that attaches an
    issue with id [b]. *)
Definition input_edge (links_endpoint : Z → Z → Response (list Link))
    (project_id : Z) (issues : list Issue) (a b : Z) : Prop :=
  (∃ x, x ∈ issues ∧ issue_id x = b
        ∧ resolvable_parent (index_by_id issues) x = Some a)
  ∨ (∃ src link target, src ∈ issues ∧ issue_id src = a ∧ is_issue_type src = true
        ∧ link ∈ fetched_links links_endpoint project_id src
        ∧ blocks_target (index_by_id issues) (index_iid_to_id issues) src link = Some target
        ∧ issue_id target = b).



(** Every links request of the run is answered, with a status that is not
    an error and a body that decodes, or with 404. *)
Definition links_available (links_endpoint : Z → Z → Response (list Link))
    (project_id : Z) (issues : list Issue) : Prop :=
  ∀ x, x ∈ issues → is_issue_type x = true →
    ∃ links, get_issue_links links_endpoint project_id (issue_iid x) = Ok links.

(** The explicit parent reference of [x] names an issue of the input. *)
Definition has_resolvable_parent (issues : list Issue) (x : Issue) : Prop :=
  ∃ parent pid y, issue_parent x = Some parent ∧ parent_id parent = Some pid
                  ∧ y ∈ issues ∧ issue_id y = pid.

(** [x] is a value of some entry of the children map. *)
Definition is_child_value (children_map : gmap Z (list Issue)) (x : Issue) : Prop :=
  ∃ p siblings, children_map !! p = Some siblings ∧ x ∈ siblings.

(** [x] carries a [blocks] link whose display id resolves to the id of [x]
    itself. *)
Definition carries_self_link (links_endpoint : Z → Z → Response (list Link))
    (project_id : Z) (issues : list Issue) (x : Issue) : Prop :=
  ∃ link, link ∈ fetched_links links_endpoint project_id x
          ∧ link_type link = Some "blocks"
          ∧ index_iid_to_id issues !! link_iid link = Some (issue_id x).

(** The statuses of the success class (2xx). *)
Definition success (status : Z) : Prop := 200 ≤ status < 300.

(** Every status of a links request that is neither 404 nor a success makes
    the request raise. *)
Definition other_statuses_fatal (links_endpoint : Z → Z → Response (list Link))
    (project_id : Z) : Prop :=
  ∀ issue_iid,
    status_code (links_endpoint project_id issue_iid) ≠ 404 →
    ¬ success (status_code (links_endpoint project_id issue_iid)) →
    ∃ e, get_issue_links links_endpoint project_id issue_iid = Raise e.

(** ** Sample inputs *)

Definition sample_issue (id iid : Z) (parent : option Z) (title : string) : Issue :=
  mkIssue id iid (Some "issue") (mkParent ∘ Some <$> parent) title "opened" None.

Definition ok_links (links : list Link) : Response (list Link) :=
  mkResponse 200 (Some links).

(** Issue 3 names issue 1 as its parent, and issue 2 blocks it. *)
Definition shared_child_issues : list Issue :=
  [sample_issue 1 11 None "epic"; sample_issue 2 12 None "blocker";
   sample_issue 3 13 (Some 1) "work"].

Definition shared_child_links (project_id issue_iid : Z) : Response (list Link) :=
  if decide (issue_iid = 12) then ok_links [mkLink 13 (Some "blocks")]
  else mkResponse 404 None.

(** Issue 1 blocks issue 2, and issues 2 and 3 block each other. *)
Definition mutual_block_issues : list Issue :=
  [sample_issue 1 11 None "root"; sample_issue 2 12 None "left";
   sample_issue 3 13 None "right"].

Definition mutual_block_links (project_id issue_iid : Z) : Response (list Link) :=
  if decide (issue_iid = 11) then ok_links [mkLink 12 (Some "blocks")]
  else if decide (issue_iid = 12) then ok_links [mkLink 13 (Some "blocks")]
  else if decide (issue_iid = 13) then ok_links [mkLink 12 (Some "blocks")]
  else mkResponse 404 None.

(** Issue 1 links to itself, to the unknown display id 99 and to issue 2;
    issue 3 names issue 1 as its parent and issue 4 an unknown issue; the
    links of issues 3 and 4 are not found. *)
Definition self_link_issues : list Issue :=
  [sample_issue 1 11 None "self"; sample_issue 2 12 None "linked";
   sample_issue 3 13 (Some 1) "child"; sample_issue 4 14 (Some 77) "orphan"].

Definition self_link_links (project_id issue_iid : Z) : Response (list Link) :=
  if decide (issue_iid = 11) then
    ok_links [mkLink 11 (Some "blocks"); mkLink 99 (Some "blocks");
              mkLink 12 (Some "blocks"); mkLink 13 (Some "relates_to")]
  else if decide (issue_iid = 12) then ok_links []
  else mkResponse 404 None.

(** The server fails on the links of issue 2. *)
Definition failing_links (project_id issue_iid : Z) : Response (list Link) :=
  if decide (issue_iid = 12) then mkResponse 500 None else mkResponse 404 None.

(** Issue 2 names issue 1 as its parent; no issue has links. *)
Definition one_child_issues : list Issue :=
  [sample_issue 1 11 None "parent"; sample_issue 2 12 (Some 1) "child"].

Definition no_links (project_id issue_iid : Z) : Response (list Link) :=
  mkResponse 404 None.

(** Issue 1 names itself as its parent and links to itself. *)
Definition self_parent_issues : list Issue := [sample_issue 1 11 (Some 1) "loop"].

Definition self_parent_links (project_id issue_iid : Z) : Response (list Link) :=
  if decide (issue_iid = 11) then ok_links [mkLink 11 (Some "blocks")]
  else mkResponse 404 None.

(** The links of issue 1 arrive with status 302 and a body that decodes. *)
Definition redirected_links (project_id issue_iid : Z) : Response (list Link) :=
  if decide (issue_iid = 11) then mkResponse 302 (Some [mkLink 12 (Some "blocks")])
  else mkResponse 404 None.

(** ** The checklist as the design document describes it *)

(** A line that reads [- [x] text] or [- [ ] text] once the whitespace
    around it is dropped, with a lowercase x only and a text that is not
    empty. *)
Definition checkbox (line : string) : option (bool * string) :=
  let s := strip line in
  match chop "- [x] " s, chop "- [ ] " s with
  | Some text, _ => if decide (text = EmptyString) then None else Some (true, text)
  | None, Some text => if decide (text = EmptyString) then None else Some (false, text)
  | None, None => None
  end.

(** ["- [x] done\n- [ ] todo\nnotes"]. *)
Definition sample_description : string :=
  "- [x] done" +:+ String LF "- [ ] todo" +:+ String LF "notes".

(** ** Notions the properties of the printer are stated with *)

(** The state once the lines [new] are printed and appended to the list
    object [lines]. *)
Definition emit (σ : World) (lines : positive) (new : list string) : World :=
  mkWorld (alter (λ v, v ++ new) lines (heap σ)) (stdout σ ++ new) (requests σ).

Fixpoint json_size (v : JSON) : nat :=
  match v with
  | JList l => S (list_sum (List.map json_size l))
  | JDict d => S (list_sum (List.map (λ kv : string * JSON,
                                        let '(_, v) := kv in json_size v) d))
  | _ => 1%nat
  end.

(** The line [print_workitem_hierarchy] formats for an object, or the
    exception one of its [.get(...)] chains raises. *)
Definition line_of (w : list (string * JSON)) (indent : nat) : Result string :=
  match get w "workItemType" (JDict []) with
  | JDict wit =>
      match get w "createdAt" (JStr "") with
      | JStr created =>
          Ok ((str_mul "    " indent +:+ "- ") +:+ "["
                +:+ py_str (get wit "name" (JStr "?"))
                +:+ "] #" +:+ py_str (get w "iid" (JStr ""))
                +:+ " | " +:+ py_str (get w "state" (JStr ""))
                +:+ " | " +:+ split_T_0 created
                +:+ " | " +:+ py_str (get w "title" (JStr "")))
      | _ => Raise AttributeError
      end
  | _ => Raise AttributeError
  end.

(** The body of [for child in children]. *)
Definition child_body (indent : nat) (lines : positive) (child : JSON) : M unit :=
  print_workitem_hierarchy child (S indent) (Some lines);; mret tt.

(** The body of [for widget in widgets]. *)
Definition widget_body (indent : nat) (lines : positive) (widget : JSON) : M unit :=
  match widget with
  | JDict wd =>
      if eq_str (dict_get wd "type") "HIERARCHY" then
        match get wd "children" (JDict []) with
        | JDict cd => for_in (get cd "nodes" (JList [])) (child_body indent lines)
        | _ => raise AttributeError
        end
      else mret tt
  | _ => raise AttributeError
  end.

(** The items a [for] loop visits with a body that can run: those of a
    list. *)
Definition items (v : JSON) : list JSON :=
  match v with
  | JList l => l
  | _ => []
  end.

(** ** Notions the properties of the hierarchy walker are stated with *)

(** A tracker that holds the hierarchy [r] and answers every request with
    its first page. *)
Definition serve (r : RealItem) (variables : Request) : Response JSON :=
  answer (var_pageSize variables) r.

(** The walker on one work item: fetch, then print at depth 0 into the list
    object [lines]. *)
Definition walk_workitem (graphql_endpoint : Request → Response JSON) (gid : string)
    (page_size : Z) (lines : positive) : M positive :=
  workitem ← fetch_workitem_hierarchy graphql_endpoint gid page_size;
  print_workitem_hierarchy workitem 0 (Some lines).

(** What the walker prints for the hierarchy [r], starting from an empty
    console. *)
Definition walker_output (page_size : Z) (r : RealItem) : list string :=
  stdout (walk_workitem (serve r) "gid://gitlab/WorkItem/1" page_size 1%positive
            (mkWorld {[1%positive := []]} [] [])).2.

(** The output tells a hierarchy that goes beyond what the query embeds
    from the part that is embedded. *)
Definition marks_truncation (page_size : Z) (r : RealItem) : Prop :=
  embedded page_size r ≠ r →
  walker_output page_size r ≠ walker_output page_size (embedded page_size r).

(** A work item with three levels of children below it. *)
Definition deep_hierarchy : RealItem :=
  Real "gid://gitlab/WorkItem/1" "1" "epic" "OPEN" "2024-01-02T03:04:05Z" "Issue"
    ["ASSIGNEES"; "DESCRIPTION"]
    [Real "gid://gitlab/WorkItem/2" "2" "story" "OPEN" "2024-01-03T00:00:00Z" "Task" []
       [Real "gid://gitlab/WorkItem/3" "3" "step" "CLOSED" "2024-01-04T00:00:00Z" "Task" []
          [Real "gid://gitlab/WorkItem/4" "4" "detail" "OPEN" "2024-01-05T00:00:00Z" "Task"
             [] []]]].

(** A work item without any field, and one with some fields, whose only
    HIERARCHY widget with children is the last. *)
Definition bare_item : PartialItem :=
  PItem (mkAttrs None None None None None None) None.

Definition sparse_item : PartialItem :=
  PItem (mkAttrs None (Some "7") (Some "sparse") None (Some "2024-05-06T07:08:09Z") (Some None))
    (Some [PWidget (Some "NOTES") None (Some (Some [bare_item]));
           PWidget (Some "HIERARCHY") (Some true) None;
           PWidget None None None;
           PWidget (Some "HIERARCHY") None (Some (Some [bare_item]))]).

(** ** The other REST fetchers *)

Section Fetchers.

Context {A : Type}.

(** The tracker's answers to [GET /projects/:id/issues/:iid/tasks],
    [GET /projects/:id/issues] with the assignee filter, and [GET /todos]. *)
Variable tasks_endpoint : Z → Z → Response (list A).
Variable issues_endpoint : Z → string → Response (list Issue).
Variable todos_endpoint : Response (list A).

Definition get_issue_tasks (project_id issue_iid : Z) : Result (list A) :=
  let response := tasks_endpoint project_id issue_iid in
  if status_code response =? 404 then Ok []
  else raise_for_status response;; json response.

Definition get_assigned_issues (project_id : Z) (assignee_id : string)
    : Result (list Issue) :=
  let response := issues_endpoint project_id assignee_id in
  raise_for_status response;; json response.

Definition get_my_todos : Result (list A) :=
  let response := todos_endpoint in
  raise_for_status response;; json response.

End Fetchers.

(** ** The GraphQL listings *)

(** [for x in v] on a JSON value: the items of a list, the characters of a
    str, the keys of a dict; anything else is not iterable. *)
Definition py_iter (v : JSON) : Result (list JSON) :=
  match v with
  | JList l => Ok l
  | JStr s => Ok ((λ c, JStr (String c EmptyString)) <$> list_ascii_of_string s)
  | JDict d => Ok ((λ kv : string * JSON, JStr kv.1) <$> d)
  | JNull | JBool _ | JNum _ => Raise TypeError
  end.

(** [[node["id"] for node in nodes]] on the items already produced. *)
Fixpoint node_ids (nodes : list JSON) : Result (list JSON) :=
  match nodes with
  | [] => Ok []
  | node :: rest =>
      id ← subscript node "id";
      ids ← node_ids rest;
      Ok (id :: ids)
  end.

(** The common tail of the two listings:
    [[node["id"] for node in data["data"]["project"]["issues"]["nodes"]]]
    after [raise_for_status] and [json]. *)
Definition issue_gids_of (response : Response JSON) : Result (list JSON) :=
  raise_for_status response;;
  data ← json response;
  data ← subscript data "data";
  project ← subscript data "project";
  issues ← subscript project "issues";
  nodes ← subscript issues "nodes";
  nodes ← py_iter nodes;
  node_ids nodes.

Section Listings.

(** The tracker's answer to the issues query of a project, with or without
    the assignee filter, for a page size. *)
Variable issues_query_endpoint : string → option string → Z → Response JSON.

Definition get_all_issue_gids (project_full_path : string) (page_size : Z)
    : Result (list JSON) :=
  issue_gids_of (issues_query_endpoint project_full_path None page_size).

Definition get_my_issue_gids (project_full_path my_username : string)
    (page_size : Z) : Result (list JSON) :=
  issue_gids_of (issues_query_endpoint project_full_path (Some my_username) page_size).

End Listings.

(** A listing answer with the given nodes. *)
Definition listing (nodes : JSON) : Response JSON :=
  mkResponse 200
    (Some (JDict [("data", JDict [("project", JDict [("issues", JDict [("nodes", nodes)])])])])).

(** ** The links as the tracker sends them

    [get_issue_links] returns whatever [response.json()] decodes, and the
    loop of [build_issue_tree] reads it with [for], [.get] and a subscript.
    The functions below are that loop on the decoded value itself, before
    anything is assumed on its shape. *)

(** [iid_to_id.get(v)], the keys of [iid_to_id] being ints: [True] and
    [False] are the keys 1 and 0, a str or [None] is no key of it, and a
    list or a dict cannot be hashed. *)
Definition get_by_value (iid_to_id : gmap Z Z) (v : JSON) : Result (option Z) :=
  match v with
  | JNum n => Ok (iid_to_id !! n)
  | JBool b => Ok (iid_to_id !! (if b then 1 else 0))
  | JStr _ | JNull => Ok None
  | JList _ | JDict _ => Raise TypeError
  end.

(** Body of [for link in links] for one item of the decoded body. *)
Definition link_step_json (issues_by_id : gmap Z Issue) (iid_to_id : gmap Z Z)
    (issue : Issue) (children_map : gmap Z (list Issue)) (link : JSON)
    : Result (gmap Z (list Issue)) :=
  match link with
  | JDict d =>
      if eq_str (dict_get d "link_type") "blocks" then
        iid ← subscript (JDict d) "iid";
        linked_id ← get_by_value iid_to_id iid;
        match linked_id with
        | Some linked_id =>
            if decide (linked_id ≠ 0 ∧ linked_id ≠ issue_id issue) then
              match issues_by_id !! linked_id with
              | Some target => Ok (setdefault_append (issue_id issue) target children_map)
              | None => Raise KeyError
              end
            else Ok children_map
        | None => Ok children_map
        end
      else Ok children_map
  | _ => Raise AttributeError     (* [link.get] on a value that is no dict *)
  end.

Fixpoint link_loop_json (issues_by_id : gmap Z Issue) (iid_to_id : gmap Z Z)
    (issue : Issue) (links : list JSON) (children_map : gmap Z (list Issue))
    : Result (gmap Z (list Issue)) :=
  match links with
  | [] => Ok children_map
  | link :: rest =>
      cm ← link_step_json issues_by_id iid_to_id issue children_map link;
      link_loop_json issues_by_id iid_to_id issue rest cm
  end.

Section BuilderOnJSON.

Variable PROJECT_ID : Z.
Variable links_endpoint : Z → Z → Response JSON.

Definition get_issue_links_json (project_id issue_iid : Z) : Result JSON :=
  let response := links_endpoint project_id issue_iid in
  if status_code response =? 404 then Ok (JList [])
  else raise_for_status response;; json response.

Fixpoint link_pass_json (issues_by_id : gmap Z Issue) (iid_to_id : gmap Z Z)
    (issues : list Issue) (children_map : gmap Z (list Issue))
    : Result (gmap Z (list Issue)) :=
  match issues with
  | [] => Ok children_map
  | issue :: rest =>
      if decide (default "issue" (issue_type issue) = "issue") then
        links ← get_issue_links_json PROJECT_ID (issue_iid issue);
        links ← py_iter links;
        cm ← link_loop_json issues_by_id iid_to_id issue links children_map;
        link_pass_json issues_by_id iid_to_id rest cm
      else link_pass_json issues_by_id iid_to_id rest children_map
  end.

Definition build_issue_tree_json (issues : list Issue)
    : Result (gmap Z Issue * gmap Z (list Issue) * list Issue) :=
  let issues_by_id := index_by_id issues in
  let iid_to_id := index_iid_to_id issues in
  let children_map := parent_pass issues_by_id issues ∅ in
  children_map ← link_pass_json issues_by_id iid_to_id issues children_map;
  let root_issues := root_pass issues_by_id children_map issues in
  Ok (issues_by_id, children_map, root_issues).

End BuilderOnJSON.

(** A link object as [Link] describes it: a dict whose [iid] is an int; a
    [link_type] that is no str is no ["blocks"]. *)
Definition decode_link (v : JSON) : option Link :=
  match v with
  | JDict d =>
      match dict_get d "iid" with
      | Some (JNum n) =>
          Some (mkLink n match dict_get d "link_type" with
                         | Some (JStr s) => Some s
                         | _ => None
                         end)
      | _ => None
      end
  | _ => None
  end.

Definition decode_links (v : JSON) : option (list Link) :=
  match v with
  | JList l => mapM decode_link l
  | _ => None
  end.

(** The answers of a tracker with their bodies read as lists of [Link]. *)
Definition decoded (links_endpoint : Z → Z → Response JSON)
    (project_id issue_iid : Z) : Response (list Link) :=
  mkResponse (status_code (links_endpoint project_id issue_iid))
    (body (links_endpoint project_id issue_iid) ≫= decode_links).

(** What is wrong with one item of a links body, if anything: it is no
    dict, or it is a [blocks] link without [iid], or one whose [iid] is a
    list or a dict. *)
Definition link_fault (link : JSON) : option Exception :=
  match link with
  | JDict d =>
      if eq_str (dict_get d "link_type") "blocks" then
        match dict_get d "iid" with
        | None => Some KeyError
        | Some (JList _ | JDict _) => Some TypeError
        | Some _ => None
        end
      else None
  | _ => Some AttributeError
  end.

(** The links request of [x] is answered, and its body can be iterated and
    holds no item with a fault. *)
Definition links_readable (links_endpoint : Z → Z → Response JSON)
    (project_id : Z) (x : Issue) : Prop :=
  ∃ v links,
    get_issue_links_json links_endpoint project_id (issue_iid x) = Ok v
    ∧ py_iter v = Ok links
    ∧ Forall (λ link, link_fault link = None) links.

(** The links of [x] fail with [e]: the request raises it, or the body
    cannot be iterated, or an item of the body has this fault. *)
Definition links_fault (links_endpoint : Z → Z → Response JSON)
    (project_id : Z) (x : Issue) (e : Exception) : Prop :=
  get_issue_links_json links_endpoint project_id (issue_iid x) = Raise e
  ∨ ∃ v, get_issue_links_json links_endpoint project_id (issue_iid x) = Ok v
         ∧ (py_iter v = Raise e
            ∨ ∃ links link, py_iter v = Ok links ∧ link ∈ links
                            ∧ link_fault link = Some e).

(** The links of issue 1 hold a [blocks] link without [iid]. *)
Definition links_without_iid (project_id issue_iid : Z) : Response JSON :=
  if decide (issue_iid = 11) then
    mkResponse 200
      (Some (JList [JDict [("iid", JNum 12); ("link_type", JStr "relates_to")];
                    JDict [("link_type", JStr "blocks")]]))
  else mkResponse 404 None.

(** [self_link_links] as a tracker sends it. *)
Definition self_link_links_json (project_id issue_iid : Z) : Response JSON :=
  if decide (issue_iid = 11) then
    mkResponse 200
      (Some (JList [JDict [("iid", JNum 11); ("link_type", JStr "blocks")];
                    JDict [("iid", JNum 99); ("link_type", JStr "blocks")];
                    JDict [("iid", JNum 12); ("link_type", JStr "blocks")];
                    JDict [("iid", JNum 13); ("link_type", JStr "relates_to")]]))
  else if decide (issue_iid = 12) then mkResponse 200 (Some (JList []))
  else mkResponse 404 None.

(** ** The tree renderer (REST side) *)

(** How a call ends: the interpreter allows only so many nested calls. *)
Inductive Outcome : Type :=
  | Returned
  | RecursionError.

Section Renderer.

(** [str.upper], and the label of the state in the line format, whose
    characters lie outside the code points modelled. *)
Variable upper : string → string.
Variable STATE_LABEL : string.

Definition issue_line (issue : Issue) (indent : nat) : string :=
  (str_mul "    " indent +:+ "- ") +:+ "["
    +:+ upper (default "issue" (issue_type issue))
    +:+ "] " +:+ issue_title issue
    +:+ " (#" +:+ pretty (issue_iid issue)
    +:+ ") | " +:+ STATE_LABEL +:+ ": " +:+ issue_state issue.

Definition task_line (indent : nat) (task : bool * string) : string :=
  str_mul "    " (S indent) +:+ (if task.1 then "[x]" else "[ ]") +:+ " " +:+ task.2.

(** [limit] is the number of nested calls the interpreter still allows;
    the console is threaded through. *)
Fixpoint print_issue_tree (limit : nat) (issue : Issue)
    (children_map : gmap Z (list Issue)) (indent : nat) (console : list string)
    : Outcome * list string :=
  match limit with
  | O => (RecursionError, console)
  | S limit =>
      let console := console ++ [issue_line issue indent] in
      let console :=
        if decide (indent = 0%nat) then
          console ++ (task_line indent
                        <$> parse_tasks_from_description (issue_description issue))
        else console in
      (fix loop (children : list Issue) (console : list string) :=
         match children with
         | [] => (Returned, console)
         | child :: rest =>
             match print_issue_tree limit child children_map (S indent) console with
             | (Returned, console) => loop rest console
             | (RecursionError, console) => (RecursionError, console)
             end
         end) (entry children_map (issue_id issue)) console
  end.

End Renderer.

(** ** Notions the further properties are stated with *)

(** A checklist line as one would write it. *)
Definition format_task (task : bool * string) : string :=
  "- [" +:+ (if task.1 then "x" else " ") +:+ "] " +:+ task.2.

Fixpoint join_lines (lines : list string) : string :=
  match lines with
  | [] => EmptyString
  | [line] => line
  | line :: rest => line +:+ String LF (join_lines rest)
  end.

Fixpoint forallb_string (P : ascii → bool) (s : string) : bool :=
  match s with
  | EmptyString => true
  | String c rest => P c && forallb_string P rest
  end.

(** A text a checklist line can carry: not empty, free of line boundaries,
    and not ending in whitespace. *)
Definition plain_text (text : string) : Prop :=
  text ≠ EmptyString
  ∧ forallb_string (λ c, negb (is_line_boundary c)) text = true
  ∧ rstrip text = text.

(** A string of whitespace only. *)
Definition blank (s : string) : Prop := forallb_string isspace s = true.

Fixpoint last_char (s : string) : option ascii :=
  match s with
  | EmptyString => None
  | String c EmptyString => Some c
  | String _ rest => last_char rest
  end.

(** [line] reads [- [x] text] or [- [ ] text] between two runs of
    whitespace, and the last character of [text] is no whitespace (so that
    [text] is not empty and the run after it takes all the whitespace at the
    end of the line). *)
Definition checkbox_line (line : string) (checked : bool) (text : string) : Prop :=
  ∃ before after,
    blank before ∧ blank after
    ∧ (∃ c, last_char text = Some c ∧ isspace c = false)
    ∧ line = before +:+ format_task (checked, text) +:+ after.

Definition TAB : ascii := "009"%char.

(** A checklist whose lines carry whitespace around them, followed by lines
    that are no checkbox lines: an upper-case mark, no space after the dash,
    another bullet, no text. *)
Definition padded_description : string :=
  "  - [x] done " +:+ String TAB (String LF (String TAB "- [ ] todo"))
    +:+ String CR (String LF " - [X] upper")
    +:+ String LF "-[x] tight" +:+ String LF "* [x] star" +:+ String LF "- [x] ".

(** The first line of what follows a character that is no line boundary
    starts with that character. *)
Definition glue (c : ascii) (lines : list string) : list string :=
  match lines with
  | [] => [String c EmptyString]
  | line :: lines => String c line :: lines
  end.

(** Every entry of the map holds a child. *)
Definition populated (cm : gmap Z (list Issue)) : Prop :=
  ∀ p siblings, cm !! p = Some siblings → siblings ≠ [].

(** ** Further sample inputs *)

(** An input with a task whose links the second tracker would fail on. *)
Definition task_issues : list Issue :=
  [sample_issue 1 11 None "story";
   mkIssue 2 12 (Some "task") (Some (mkParent (Some 1))) "step" "opened" None].

Definition story_links (project_id issue_iid : Z) : Response (list Link) :=
  if decide (issue_iid = 11) then ok_links [mkLink 12 (Some "blocks")]
  else mkResponse 404 None.

Definition story_links_failing_on_tasks (project_id issue_iid : Z)
    : Response (list Link) :=
  if decide (issue_iid = 11) then ok_links [mkLink 12 (Some "blocks")]
  else mkResponse 500 None.


(** Issue 1 relates to issue 2 and is blocked by issue 3; the links of the
    other issues are not found. *)
Definition related_only_links (project_id issue_iid : Z) : Response (list Link) :=
  if decide (issue_iid = 11) then
    ok_links [mkLink 12 (Some "relates_to"); mkLink 13 (Some "is_blocked_by");
              mkLink 12 None]
  else mkResponse 404 None.

(** The answer for a work item the tracker does not have. *)
Definition no_such_workitem : Response JSON :=
  mkResponse 200 (Some (JDict [("data", JDict [("workItem", JNull)])])).

(** The keys of a work item [print_workitem_hierarchy] reads. *)
Definition read_keys : list string :=
  ["workItemType"; "title"; "iid"; "state"; "createdAt"; "widgets"].

(** A tracker that holds [deep_hierarchy] under its id and fails on every
    other id. *)
Definition one_item_tracker (variables : Request) : Response JSON :=
  if decide (var_id variables = "gid://gitlab/WorkItem/1")
  then answer (var_pageSize variables) deep_hierarchy
  else mkResponse 503 None.

(** A listing of two issues, and a tracker that answers it for one user. *)
Definition two_issues : list JSON :=
  [JDict [("id", JStr "gid://gitlab/Issue/1"); ("iid", JStr "1");
          ("title", JStr "a"); ("state", JStr "opened")];
   JDict [("id", JStr "gid://gitlab/Issue/2"); ("iid", JStr "2");
          ("title", JStr "b"); ("state", JStr "closed")]].

Definition listing_tracker (project_full_path : string) (username : option string)
    (page_size : Z) : Response JSON :=
  if decide (username = Some "me") then listing (JList two_issues)
  else if decide (username = Some "nobody")
  then mkResponse 200 (Some (JDict [("data", JDict [("project", JNull)])]))
  else mkResponse 401 None.

(** The loop over the children of an issue, for any way [visit] of
    rendering one child: it stops at the first child that does not return. *)
Fixpoint render_children (visit : Issue → list string → Outcome * list string)
    (children : list Issue) (console : list string) : Outcome * list string :=
  match children with
  | [] => (Returned, console)
  | child :: rest =>
      match visit child console with
      | (Returned, console) => render_children visit rest console
      | (RecursionError, console) => (RecursionError, console)
      end
  end.

(** An issue without its description. *)
Definition without_description (issue : Issue) : Issue :=
  mkIssue (issue_id issue) (issue_iid issue) (issue_type issue) (issue_parent issue)
    (issue_title issue) (issue_state issue) None.

(** A children map whose issues have lost their descriptions. *)
Definition without_descriptions (children_map : gmap Z (list Issue))
    : gmap Z (list Issue) :=
  (λ siblings : list Issue, without_description <$> siblings) <$> children_map.

(** Upper case of the letters a to z, enough for the sample outputs. *)
Definition ascii_upper (s : string) : string :=
  string_of_list_ascii
    ((λ c, if (97 <=? ord c) && (ord c <=? 122)
           then ascii_of_N (Z.to_N (ord c - 32)) else c) <$> list_ascii_of_string s).

(** A story with a checklist and one step with a checklist of its own. *)
Definition story_with_checklist : Issue :=
  mkIssue 1 11 None None "story" "opened" (Some "- [x] draft").

Definition step_with_checklist : Issue :=
  mkIssue 2 12 (Some "task") (Some (mkParent (Some 1))) "step" "closed"
    (Some "- [ ] hidden").

Definition story_map : gmap Z (list Issue) := {[1 := [step_with_checklist]]}.

(** Issues 2 and 3 of [mutual_block_issues] as the builder attaches them:
    each is the child of the other. *)
Definition cyclic_map : gmap Z (list Issue) :=
  {[2 := [sample_issue 3 13 None "right"]; 3 := [sample_issue 2 12 None "left"]]}.

(** * Properties *)

(** ** Dictionaries of lists *)

Lemma entry_setdefault_append k x cm p :
  entry (setdefault_append k x cm) p
  = if decide (p = k) then entry cm k ++ [x] else entry cm p.
Proof.
  unfold entry, setdefault_append. case_decide as Hp.
  - subst p. by rewrite lookup_insert_eq.
  - by rewrite lookup_insert_ne.
Qed.

Lemma in_some_entry_spec cm x :
  in_some_entry cm x = true ↔ ∃ p, x ∈ entry cm p.
Proof.
  unfold in_some_entry. rewrite existsb_exists. split.
  - intros (sib & Hin & Hx). apply bool_decide_eq_true in Hx.
    apply list_elem_of_In, list_elem_of_fmap in Hin as ([p s] & -> & Hps).
    apply elem_of_map_to_list in Hps. exists p. unfold entry. by rewrite Hps.
  - intros (p & Hx). unfold entry in Hx.
    destruct (cm !! p) as [sib|] eqn:Hp; simpl in Hx; [|by apply elem_of_nil in Hx].
    exists sib. split; [|by apply bool_decide_eq_true].
    apply list_elem_of_In, list_elem_of_fmap. exists (p, sib). split; [done|].
    by apply elem_of_map_to_list.
Qed.

Lemma entry_lookup cm x :
  (∃ p, x ∈ entry cm p) ↔ ∃ p siblings, cm !! p = Some siblings ∧ x ∈ siblings.
Proof.
  unfold entry. split.
  - intros (p & Hx). destruct (cm !! p) as [sib|] eqn:Hp; simpl in Hx.
    + eauto.
    + by apply elem_of_nil in Hx.
  - intros (p & sib & Hp & Hx). exists p. by rewrite Hp.
Qed.

(** ** The two indexes *)

Lemma index_by_id_foldl issues (d : gmap Z Issue) k x :
  foldl (λ d issue, <[issue_id issue := issue]> d) d issues !! k = Some x →
  (x ∈ issues ∧ issue_id x = k) ∨ d !! k = Some x.
Proof.
  revert d. induction issues as [|y issues IH]; intros d; simpl; [by right|].
  intros H. apply IH in H as [[H1 H2]|H].
  - left. split; [by constructor|done].
  - destruct (decide (issue_id y = k)) as [<-|Hne].
    + rewrite lookup_insert_eq in H. injection H as ->. left. split; [constructor|done].
    + rewrite lookup_insert_ne in H by done. by right.
Qed.

Lemma index_by_id_Some issues k x :
  index_by_id issues !! k = Some x → x ∈ issues ∧ issue_id x = k.
Proof.
  intros H. apply index_by_id_foldl in H as [H|H]; [done|].
  by rewrite lookup_empty in H.
Qed.

Lemma index_by_id_foldl_is_Some issues (d : gmap Z Issue) k :
  is_Some (foldl (λ d issue, <[issue_id issue := issue]> d) d issues !! k)
  ↔ (∃ x, x ∈ issues ∧ issue_id x = k) ∨ is_Some (d !! k).
Proof.
  revert d. induction issues as [|y issues IH]; intros d; simpl.
  - split; [by right|]. intros [(x & Hx & _)|H]; [by apply elem_of_nil in Hx|done].
  - rewrite IH. rewrite lookup_insert_is_Some. split.
    + intros [(x & Hx & Hk)|[Hk|[_ Hd]]].
      * left. exists x. split; [by constructor|done].
      * left. exists y. split; [constructor|done].
      * by right.
    + intros [(x & Hx & Hk)|Hd].
      * apply elem_of_cons in Hx as [->|Hx]; [right; by left|].
        left. eauto.
      * destruct (decide (issue_id y = k)); [right; by left|]. right. right. done.
Qed.

Lemma index_by_id_is_Some issues k :
  is_Some (index_by_id issues !! k) ↔ ∃ x, x ∈ issues ∧ issue_id x = k.
Proof.
  unfold index_by_id. rewrite index_by_id_foldl_is_Some. split.
  - intros [H|H]; [done|]. rewrite lookup_empty in H. by destruct H.
  - by left.
Qed.

Lemma index_iid_to_id_foldl issues (d : gmap Z Z) k v :
  foldl (λ d issue, <[issue_iid issue := issue_id issue]> d) d issues !! k = Some v →
  (∃ x, x ∈ issues ∧ issue_iid x = k ∧ issue_id x = v) ∨ d !! k = Some v.
Proof.
  revert d. induction issues as [|y issues IH]; intros d; simpl; [by right|].
  intros H. apply IH in H as [(x & H1 & H2)|H].
  - left. exists x. split; [by constructor|done].
  - destruct (decide (issue_iid y = k)) as [<-|Hne].
    + rewrite lookup_insert_eq in H. injection H as <-. left. exists y.
      split; [constructor|done].
    + rewrite lookup_insert_ne in H by done. by right.
Qed.

Lemma index_iid_to_id_Some issues k v :
  index_iid_to_id issues !! k = Some v →
  ∃ x, x ∈ issues ∧ issue_iid x = k ∧ issue_id x = v.
Proof.
  intros H. apply index_iid_to_id_foldl in H as [H|H]; [done|].
  by rewrite lookup_empty in H.
Qed.

(** A display id that is known leads to an indexed issue: the subscript
    [issues_by_id[linked_id]] cannot raise. *)
Lemma index_iid_to_id_indexed issues k v :
  index_iid_to_id issues !! k = Some v → is_Some (index_by_id issues !! v).
Proof.
  intros (x & Hx & _ & Hv)%index_iid_to_id_Some.
  apply index_by_id_is_Some. eauto.
Qed.

(** ** The passes of the tree builder *)

Lemma parent_pass_entry ibi issues cm p :
  entry (parent_pass ibi issues cm) p = entry cm p ++ parent_children ibi issues p.
Proof.
  unfold parent_pass, parent_children. revert cm.
  induction issues as [|x issues IH]; intros cm; simpl.
  - by rewrite app_nil_r.
  - rewrite IH. rewrite filter_cons.
    destruct (resolvable_parent ibi x) as [pid|] eqn:Hx.
    + rewrite entry_setdefault_append.
      destruct (decide (p = pid)) as [->|Hne].
      * rewrite decide_True by done. by rewrite <- app_assoc.
      * rewrite decide_False by congruence. done.
    + by rewrite decide_False by done.
Qed.

Lemma link_step_entry ibi i2i src cm link cm' p :
  link_step ibi i2i src cm link = Ok cm' →
  entry cm' p
  = entry cm p ++ (if decide (p = issue_id src)
                   then from_option (λ t, [t]) [] (blocks_target ibi i2i src link)
                   else []).
Proof.
  unfold link_step, blocks_target.
  destruct (decide (link_type link = Some "blocks")); cycle 1.
  { intros [= <-]. case_decide; by rewrite app_nil_r. }
  destruct (i2i !! link_iid link) as [lid|]; cycle 1.
  { intros [= <-]. case_decide; by rewrite app_nil_r. }
  destruct (decide (lid ≠ 0 ∧ lid ≠ issue_id src)); cycle 1.
  { intros [= <-]. case_decide; by rewrite app_nil_r. }
  destruct (ibi !! lid) as [target|]; [|done].
  intros [= <-]. rewrite entry_setdefault_append.
  case_decide; simpl; [by subst|by rewrite app_nil_r].
Qed.

Lemma link_loop_entry ibi i2i src links cm cm' p :
  link_loop ibi i2i src links cm = Ok cm' →
  entry cm' p
  = entry cm p ++ (if decide (p = issue_id src)
                   then link_targets ibi i2i src links else []).
Proof.
  revert cm. induction links as [|link links IH]; intros cm; simpl.
  - intros [= <-]. case_decide; by rewrite app_nil_r.
  - destruct (link_step ibi i2i src cm link) as [cm1|e] eqn:Hstep; [|done].
    simpl. intros H. rewrite (IH _ H), (link_step_entry _ _ _ _ _ _ p Hstep).
    rewrite <- app_assoc. f_equal. unfold link_targets. simpl.
    case_decide; [|done].
    by destruct (blocks_target ibi i2i src link).
Qed.

(** The loop over the links of one issue raises only at the subscript
    [issues_by_id[linked_id]]. *)
Lemma link_loop_total ibi i2i src links cm :
  (∀ k v, i2i !! k = Some v → is_Some (ibi !! v)) →
  ∃ cm', link_loop ibi i2i src links cm = Ok cm'.
Proof.
  intros Hidx. revert cm. induction links as [|link links IH]; intros cm; simpl; [eauto|].
  assert (∃ cm1, link_step ibi i2i src cm link = Ok cm1) as [cm1 ->]; [|apply IH].
  unfold link_step. repeat case_decide; eauto.
  destruct (i2i !! link_iid link) as [lid|] eqn:Hl; [|eauto].
  case_decide; [|eauto]. destruct (Hidx _ _ Hl) as [t ->]. eauto.
Qed.

Section LinkPass.
Variable PROJECT_ID : Z.
Variable links_endpoint : Z → Z → Response (list Link).

Lemma link_pass_entry ibi i2i issues cm cm' p :
  link_pass PROJECT_ID links_endpoint ibi i2i issues cm = Ok cm' →
  entry cm' p
  = entry cm p ++ link_children links_endpoint PROJECT_ID ibi i2i issues p.
Proof.
  unfold link_children. revert cm.
  induction issues as [|x issues IH]; intros cm; simpl.
  - intros [= <-]. by rewrite app_nil_r.
  - unfold is_issue_type at 1. case_decide as Ht.
    + rewrite bool_decide_eq_true_2 by done. unfold fetched_links at 1.
      destruct (get_issue_links links_endpoint PROJECT_ID (issue_iid x))
        as [links|e]; [|done]. simpl.
      destruct (link_loop ibi i2i x links cm) as [cm1|e] eqn:Hloop; [|done]. simpl.
      intros H. rewrite (IH _ H), (link_loop_entry _ _ _ _ _ _ p Hloop).
      rewrite <- app_assoc. f_equal. f_equal.
      destruct (decide (p = issue_id x)) as [->|Hne].
      * by rewrite bool_decide_eq_true_2.
      * by rewrite bool_decide_eq_false_2 by congruence.
    + rewrite bool_decide_eq_false_2 by done. simpl. apply IH.
Qed.

Lemma link_pass_total ibi i2i issues cm :
  (∀ k v, i2i !! k = Some v → is_Some (ibi !! v)) →
  links_available links_endpoint PROJECT_ID issues →
  ∃ cm', link_pass PROJECT_ID links_endpoint ibi i2i issues cm = Ok cm'.
Proof.
  intros Hidx. revert cm. induction issues as [|x issues IH]; intros cm Hav; simpl; [eauto|].
  assert (links_available links_endpoint PROJECT_ID issues) as Hav'.
  { intros y Hy. apply Hav. by constructor. }
  case_decide as Ht; [|by apply IH].
  destruct (Hav x) as [links ->]; [constructor|by apply bool_decide_eq_true|].
  simpl. destruct (link_loop_total ibi i2i x links cm Hidx) as [cm1 ->].
  simpl. by apply IH.
Qed.

(** A links request that raises ends the pass. *)
Lemma link_pass_raises ibi i2i issues cm x e :
  x ∈ issues → is_issue_type x = true →
  get_issue_links links_endpoint PROJECT_ID (issue_iid x) = Raise e →
  ∃ e', link_pass PROJECT_ID links_endpoint ibi i2i issues cm = Raise e'.
Proof.
  intros Hx Ht He. revert cm. induction Hx as [x issues|x y issues Hx IH]; intros cm; simpl.
  - rewrite decide_True by (by apply bool_decide_eq_true in Ht).
    rewrite He. simpl. eauto.
  - case_decide; [|by apply IH].
    destruct (get_issue_links links_endpoint PROJECT_ID (issue_iid y))
      as [links|e0] eqn:Hy; simpl; [|eauto].
    destruct (link_loop ibi i2i y links cm); simpl; [by apply IH|eauto].
Qed.

Lemma link_pass_available ibi i2i issues cm cm' :
  link_pass PROJECT_ID links_endpoint ibi i2i issues cm = Ok cm' →
  links_available links_endpoint PROJECT_ID issues.
Proof.
  intros H x Hx Ht.
  destruct (get_issue_links links_endpoint PROJECT_ID (issue_iid x)) as [l|e] eqn:He; [eauto|].
  destruct (link_pass_raises ibi i2i issues cm x e Hx Ht He) as [e' He']. congruence.
Qed.

Lemma root_pass_filter ibi cm issues :
  root_pass ibi cm issues = List.filter (λ x, negb (is_child ibi cm x)) issues.
Proof.
  unfold root_pass.
  enough (∀ acc, foldl (λ root_issues issue,
              if is_child ibi cm issue then root_issues else root_issues ++ [issue])
            acc issues = acc ++ List.filter (λ x, negb (is_child ibi cm x)) issues) as H
    by apply (H []).
  induction issues as [|x issues IH]; intros acc; simpl; [by rewrite app_nil_r|].
  rewrite IH. destruct (is_child ibi cm x); simpl; [done|by rewrite <- app_assoc].
Qed.

(** The children map and the root set of a run that returns. *)
Lemma build_issue_tree_Ok issues ibi cm roots :
  build_issue_tree PROJECT_ID links_endpoint issues = Ok (ibi, cm, roots) →
  ibi = index_by_id issues
  ∧ (∀ p, entry cm p
          = parent_children ibi issues p
            ++ link_children links_endpoint PROJECT_ID ibi (index_iid_to_id issues) issues p)
  ∧ roots = List.filter (λ x, negb (is_child ibi cm x)) issues.
Proof.
  unfold build_issue_tree.
  destruct (link_pass _ _ _ _ _ _) as [cm1|e] eqn:Hpass; [|done]. simpl.
  intros [= <- <- <-]. split; [done|]. split; [|apply root_pass_filter].
  intros p. rewrite (link_pass_entry _ _ _ _ _ p Hpass), parent_pass_entry. done.
Qed.

Lemma build_issue_tree_total issues :
  links_available links_endpoint PROJECT_ID issues →
  ∃ ibi cm roots, build_issue_tree PROJECT_ID links_endpoint issues = Ok (ibi, cm, roots).
Proof.
  intros Hav. unfold build_issue_tree.
  destruct (link_pass_total (index_by_id issues) (index_iid_to_id issues) issues
              (parent_pass (index_by_id issues) issues ∅)) as [cm ->]; [|done|simpl; eauto].
  apply index_iid_to_id_indexed.
Qed.
End LinkPass.

Lemma elem_of_concat_map {A B} (f : A → list B) (l : list A) (y : B) :
  y ∈ List.concat (List.map f l) ↔ ∃ x, x ∈ l ∧ y ∈ f x.
Proof.
  rewrite list_elem_of_In, in_concat. split.
  - intros (ys & Hys & Hy). apply in_map_iff in Hys as (x & <- & Hx).
    exists x. by rewrite !list_elem_of_In.
  - intros (x & Hx & Hy). exists (f x). rewrite in_map_iff.
    split; [exists x; split; [done|by apply list_elem_of_In]|by apply list_elem_of_In].
Qed.

Lemma elem_of_parent_children ibi issues p x :
  x ∈ parent_children ibi issues p ↔ x ∈ issues ∧ resolvable_parent ibi x = Some p.
Proof. unfold parent_children. rewrite list_elem_of_filter. tauto. Qed.

Lemma elem_of_link_children ep P ibi i2i issues p x :
  x ∈ link_children ep P ibi i2i issues p
  ↔ ∃ src link, src ∈ issues ∧ issue_id src = p ∧ is_issue_type src = true
                ∧ link ∈ fetched_links ep P src
                ∧ blocks_target ibi i2i src link = Some x.
Proof.
  unfold link_children. rewrite elem_of_concat_map. split.
  - intros (src & Hsrc & Hx).
    destruct (is_issue_type src) eqn:Ht; simpl in Hx; [|by apply elem_of_nil in Hx].
    case_bool_decide as Hp; [|by apply elem_of_nil in Hx].
    apply list_elem_of_omap in Hx as (link & Hl & Hb). exists src, link. done.
  - intros (src & link & Hsrc & Hp & Ht & Hl & Hb). exists src. split; [done|].
    rewrite Ht, bool_decide_eq_true_2 by done. simpl.
    apply list_elem_of_omap. eauto.
Qed.

(** What a link attaches is an indexed issue other than the one that
    carries the link. *)
Lemma blocks_target_Some issues src link x :
  blocks_target (index_by_id issues) (index_iid_to_id issues) src link = Some x →
  x ∈ issues ∧ issue_id x ≠ issue_id src ∧ issue_id x ≠ 0
  ∧ link_type link = Some "blocks"
  ∧ index_iid_to_id issues !! link_iid link = Some (issue_id x).
Proof.
  unfold blocks_target. case_decide as Hb; [|done].
  destruct (index_iid_to_id issues !! link_iid link) as [lid|]; [|done].
  case_decide as Hl; [|done]. intros [Hx <-]%index_by_id_Some. tauto.
Qed.

Lemma walk_reach (R : Z → Z → Prop) a ids b :
  walk R (a :: ids) → b ∈ ids → tc R a b.
Proof.
  revert a. induction ids as [|c ids IH]; intros a Hw Hb; [by apply elem_of_nil in Hb|].
  destruct Hw as [Hac Hw]. apply elem_of_cons in Hb as [->|Hb].
  - by apply tc_once.
  - eapply tc_l; [done|]. by apply IH.
Qed.

Lemma walk_tail (R : Z → Z → Prop) a ids : walk R (a :: ids) → walk R ids.
Proof. destruct ids; [done|]. by intros [_ ?]. Qed.

Lemma acyclic_walk_NoDup (R : Z → Z → Prop) ids :
  acyclic R → walk R ids → NoDup ids.
Proof.
  intros Hac. induction ids as [|a ids IH]; intros Hw; [constructor|].
  constructor.
  - intros Ha. apply (Hac a). by eapply walk_reach.
  - apply IH. by eapply walk_tail.
Qed.

Lemma tc_impl (R R' : Z → Z → Prop) a b :
  (∀ x y, R x y → R' x y) → tc R a b → tc R' a b.
Proof.
  intros HR. induction 1 as [x y H|x y z H _ IH].
  - apply tc_once. by apply HR.
  - eapply tc_l; [by apply HR|done].
Qed.

Lemma resolvable_parent_spec issues x :
  is_Some (resolvable_parent (index_by_id issues) x) ↔ has_resolvable_parent issues x.
Proof.
  unfold resolvable_parent, has_resolvable_parent. split.
  - destruct (issue_parent x) as [parent|]; [|by intros [??]].
    destruct (parent_id parent) as [pid|] eqn:Hpid; [|by intros [??]].
    case_decide as Hp; [|by intros [??]]. intros _.
    apply index_by_id_is_Some in Hp as (y & Hy & Hid). by exists parent, pid, y.
  - intros (parent & pid & y & -> & -> & Hy & Hid).
    rewrite decide_True; [done|]. apply index_by_id_is_Some. eauto.
Qed.

Lemma is_child_spec issues cm x :
  is_child (index_by_id issues) cm x = false
  ↔ ¬ has_resolvable_parent issues x ∧ ¬ is_child_value cm x.
Proof.
  unfold is_child, is_child_value. rewrite orb_false_iff, bool_decide_eq_false.
  rewrite resolvable_parent_spec, <- entry_lookup, <- in_some_entry_spec.
  by rewrite not_true_iff_false.
Qed.

Section BuilderProperties.
Variable PROJECT_ID : Z.
Variable links_endpoint : Z → Z → Response (list Link).

(** C5.  Root determination: an issue of the input is in the root set
    exactly when its explicit parent reference names no issue of the input
    and it is a value of no entry of the children map.  A parent reference
    to an id absent from the input is thereby no parent. *)
Theorem root_determination (issues : list Issue) :
  links_available links_endpoint PROJECT_ID issues →
  ∃ ibi cm roots,
    build_issue_tree PROJECT_ID links_endpoint issues = Ok (ibi, cm, roots)
    ∧ (∀ x, x ∈ roots ↔
            x ∈ issues ∧ ¬ has_resolvable_parent issues x ∧ ¬ is_child_value cm x)
    ∧ (∀ x parent pid,
          x ∈ issues → issue_parent x = Some parent → parent_id parent = Some pid →
          (∀ y, y ∈ issues → issue_id y ≠ pid) →
          ¬ is_child_value cm x → x ∈ roots).
Proof.
  intros Hav.
  destruct (build_issue_tree_total PROJECT_ID links_endpoint issues Hav)
    as (ibi & cm & roots & Hbuild).
  exists ibi, cm, roots. split; [done|].
  apply build_issue_tree_Ok in Hbuild as (-> & _ & ->).
  assert (∀ x, x ∈ List.filter (λ x, negb (is_child (index_by_id issues) cm x)) issues
               ↔ x ∈ issues ∧ ¬ has_resolvable_parent issues x ∧ ¬ is_child_value cm x)
    as Hroots.
  { intros x. rewrite list_elem_of_In, filter_In, <- list_elem_of_In.
    by rewrite negb_true_iff, is_child_spec. }
  split; [done|].
  intros x parent pid Hx Hparent Hpid Habsent Hvalue. apply Hroots.
  split; [done|]. split; [|done].
  intros (parent' & pid' & y & Hparent' & Hpid' & Hy & Hid).
  apply (Habsent y Hy). congruence.
Qed.
End BuilderProperties.

(** Decides [links_available] on a concrete input by running each
    request. *)
Ltac run_links_requests :=
  let x := fresh "x" in
  let Hx := fresh "Hx" in
  intros x Hx _; cbv [self_link_issues shared_child_issues mutual_block_issues
                      one_child_issues] in Hx;
  repeat (apply elem_of_cons in Hx as [->|Hx]); [..|by apply elem_of_nil in Hx];
  eexists; vm_compute; reflexivity.

Lemma root_determination_witness :
  ∃ ibi cm roots,
    build_issue_tree 7 self_link_links self_link_issues = Ok (ibi, cm, roots)
    ∧ (∀ x, x ∈ roots ↔
            x ∈ self_link_issues ∧ ¬ has_resolvable_parent self_link_issues x
            ∧ ¬ is_child_value cm x)
    ∧ (∀ x parent pid,
          x ∈ self_link_issues → issue_parent x = Some parent →
          parent_id parent = Some pid →
          (∀ y, y ∈ self_link_issues → issue_id y ≠ pid) →
          ¬ is_child_value cm x → x ∈ roots).
Proof.
  apply (root_determination 7 self_link_links self_link_issues).
  run_links_requests.
Defined.

Section BuilderEntries.
Variable PROJECT_ID : Z.
Variable links_endpoint : Z → Z → Response (list Link).

(** C1, as the code has it.  The target of a [blocks] link is appended to
    the children of the linking issue whether or not it is attached
    already: the entry of [p] is the issues whose parent reference resolves
    to [p], in input order, followed by everything the links of the
    non-task issues with id [p] attach. *)
Theorem children_map_entries (issues : list Issue) :
  links_available links_endpoint PROJECT_ID issues →
  ∃ ibi cm roots,
    build_issue_tree PROJECT_ID links_endpoint issues = Ok (ibi, cm, roots)
    ∧ (∀ p, entry cm p
            = parent_children (index_by_id issues) issues p
              ++ link_children links_endpoint PROJECT_ID (index_by_id issues)
                   (index_iid_to_id issues) issues p)
    ∧ (∀ src link target,
          src ∈ issues → is_issue_type src = true →
          link ∈ fetched_links links_endpoint PROJECT_ID src →
          blocks_target (index_by_id issues) (index_iid_to_id issues) src link
            = Some target →
          target ∈ entry cm (issue_id src)).
Proof.
  intros Hav.
  destruct (build_issue_tree_total PROJECT_ID links_endpoint issues Hav)
    as (ibi & cm & roots & Hbuild).
  exists ibi, cm, roots. split; [done|].
  apply build_issue_tree_Ok in Hbuild as (-> & Hentry & _).
  split; [done|].
  intros src link target Hsrc Ht Hl Hb. rewrite Hentry.
  apply elem_of_app. right. apply elem_of_link_children. by exists src, link.
Qed.

(** C2, as the code has it.  The edges of the children map are the
    relationships of the input, none dropped but the links of an issue to
    itself; so the map is free of cycles when the input is. *)
Theorem children_map_edges (issues : list Issue) :
  links_available links_endpoint PROJECT_ID issues →
  ∃ ibi cm roots,
    build_issue_tree PROJECT_ID links_endpoint issues = Ok (ibi, cm, roots)
    ∧ (∀ a b, child_edge cm a b ↔ input_edge links_endpoint PROJECT_ID issues a b)
    ∧ (acyclic (input_edge links_endpoint PROJECT_ID issues) → cycle_free cm roots).
Proof.
  intros Hav.
  destruct (build_issue_tree_total PROJECT_ID links_endpoint issues Hav)
    as (ibi & cm & roots & Hbuild).
  exists ibi, cm, roots. split; [done|].
  apply build_issue_tree_Ok in Hbuild as (-> & Hentry & _).
  assert (∀ a b, child_edge cm a b ↔ input_edge links_endpoint PROJECT_ID issues a b)
    as Hedge.
  { intros a b. unfold child_edge, input_edge. split.
    - intros (x & Hx & Hid). rewrite Hentry in Hx.
      apply elem_of_app in Hx as [Hx|Hx].
      + apply elem_of_parent_children in Hx as [Hx Hp]. left. by exists x.
      + apply elem_of_link_children in Hx
          as (src & link & Hsrc & Ha & Ht & Hl & Hb).
        right. by exists src, link, x.
    - intros [(x & Hx & Hid & Hp)|(src & link & x & Hsrc & Ha & Ht & Hl & Hb & Hid)];
        exists x; (split; [|done]); rewrite Hentry; apply elem_of_app.
      + left. by apply elem_of_parent_children.
      + right. apply elem_of_link_children. by exists src, link. }
  split; [done|]. intros Hac.
  assert (acyclic (child_edge cm)) as Hac'.
  { intros a Ha. apply (Hac a). eapply tc_impl; [|done]. intros x y. apply Hedge. }
  split; [|done]. intros r ids _ Hw. by eapply acyclic_walk_NoDup.
Qed.


(** C8.  A [blocks] link whose display id resolves to the linking issue's
    own id is skipped, and no link puts an issue under its own id: an issue
    is its own child in the children map exactly when its explicit parent
    reference names its own id.  An issue whose parent reference does not
    name the issue itself is therefore never its own child, whatever links it
    carries; one that names itself as parent is its own child, self-link or
    not. *)
Theorem self_link_ignored (issues : list Issue) :
  links_available links_endpoint PROJECT_ID issues →
  ∃ ibi cm roots,
    build_issue_tree PROJECT_ID links_endpoint issues = Ok (ibi, cm, roots)
    ∧ (∀ x, x ∈ entry cm (issue_id x)
            ↔ x ∈ entry (parent_pass (index_by_id issues) issues ∅) (issue_id x))
    ∧ (∀ x, resolvable_parent (index_by_id issues) x ≠ Some (issue_id x) →
            x ∉ entry cm (issue_id x))
    ∧ (∀ x, x ∈ entry cm (issue_id x)
            ↔ x ∈ issues ∧ resolvable_parent (index_by_id issues) x = Some (issue_id x))
    ∧ (∀ src link children_map,
          link_type link = Some "blocks" →
          index_iid_to_id issues !! link_iid link = Some (issue_id src) →
          link_step (index_by_id issues) (index_iid_to_id issues) src children_map link
          = Ok children_map).
Proof.
  intros Hav.
  destruct (build_issue_tree_total PROJECT_ID links_endpoint issues Hav)
    as (ibi & cm & roots & Hbuild).
  exists ibi, cm, roots. split; [done|].
  apply build_issue_tree_Ok in Hbuild as (-> & Hentry & _).
  assert (∀ x, x ∉ link_children links_endpoint PROJECT_ID (index_by_id issues)
                     (index_iid_to_id issues) issues (issue_id x)) as Hself.
  { intros x (src & link & _ & Hid & _ & _ & Hb)%elem_of_link_children.
    apply blocks_target_Some in Hb as (_ & Hne & _). congruence. }
  split; [|split; [|split]].
  - intros x. rewrite Hentry, parent_pass_entry. unfold entry at 1.
    rewrite lookup_empty. simpl. rewrite elem_of_app. specialize (Hself x). tauto.
  - intros x Hp. rewrite Hentry, elem_of_app, elem_of_parent_children.
    specialize (Hself x). tauto.
  - intros x. rewrite Hentry, elem_of_app, elem_of_parent_children.
    specialize (Hself x). tauto.
  - intros src link children_map Hb Hiid. unfold link_step.
    rewrite decide_True by done. rewrite Hiid.
    rewrite decide_False; [done|]. intros [_ ?]. done.
Qed.
End BuilderEntries.

(** Membership in a concrete list, by evaluation. *)
Ltac by_evaluation := apply (bool_decide_unpack _); vm_compute; exact I.

(** C1, as the specification states it, fails: issue 3 is attached under
    issue 1 by its parent reference and again under issue 2 by the link. *)
Lemma shared_child_under_two_parents :
  ∃ ibi cm roots,
    build_issue_tree 7 shared_child_links shared_child_issues = Ok (ibi, cm, roots)
    ∧ ¬ single_parent cm.
Proof.
  eexists _, _, _. split; [vm_compute; reflexivity|].
  intros Hsingle.
  assert (1 = 2) as Heq; [|done].
  apply (Hsingle (sample_issue 3 13 (Some 1) "work")); by_evaluation.
Qed.

Lemma children_map_entries_witness :
  ∃ ibi cm roots,
    build_issue_tree 7 shared_child_links shared_child_issues = Ok (ibi, cm, roots)
    ∧ (∀ p, entry cm p
            = parent_children (index_by_id shared_child_issues) shared_child_issues p
              ++ link_children shared_child_links 7 (index_by_id shared_child_issues)
                   (index_iid_to_id shared_child_issues) shared_child_issues p)
    ∧ (∀ src link target,
          src ∈ shared_child_issues → is_issue_type src = true →
          link ∈ fetched_links shared_child_links 7 src →
          blocks_target (index_by_id shared_child_issues)
            (index_iid_to_id shared_child_issues) src link = Some target →
          target ∈ entry cm (issue_id src)).
Proof.
  apply (children_map_entries 7 shared_child_links shared_child_issues).
  run_links_requests.
Defined.

(** C2, as the specification states it, fails: issue 1 is a root, and the
    walk 1, 2, 3, 2 along the children map comes back to issue 2. *)
Lemma mutual_block_cycle :
  ∃ ibi cm roots,
    build_issue_tree 7 mutual_block_links mutual_block_issues = Ok (ibi, cm, roots)
    ∧ ¬ cycle_free cm roots.
Proof.
  eexists _, _, _. split; [vm_compute; reflexivity|].
  intros [Hwalk _].
  specialize (Hwalk (sample_issue 1 11 None "root") [2; 3; 2]).
  assert (NoDup [1; 2; 3; 2]) as Hnodup.
  { apply Hwalk; [by_evaluation|]. simpl. repeat split.
    - exists (sample_issue 2 12 None "left"). split; [by_evaluation|done].
    - exists (sample_issue 3 13 None "right"). split; [by_evaluation|done].
    - exists (sample_issue 2 12 None "left"). split; [by_evaluation|done]. }
  apply NoDup_cons in Hnodup as [_ Hnodup].
  apply NoDup_cons in Hnodup as [Hnotin _].
  apply Hnotin. by_evaluation.
Qed.

Lemma one_child_acyclic : acyclic (input_edge no_links 7 one_child_issues).
Proof.
  assert (∀ a b, input_edge no_links 7 one_child_issues a b → a = 1 ∧ b = 2) as Hedge.
  { intros a b [(x & Hx & Hid & Hp)|(src & link & t & Hsrc & _ & _ & Hl & _)].
    - unfold one_child_issues in Hx.
      repeat (apply elem_of_cons in Hx as [->|Hx]); [..|by apply elem_of_nil in Hx];
        vm_compute in Hp; vm_compute in Hid; [done|]. split; congruence.
    - unfold one_child_issues in Hsrc.
      repeat (apply elem_of_cons in Hsrc as [->|Hsrc]); [..|by apply elem_of_nil in Hsrc];
        vm_compute in Hl; by apply elem_of_nil in Hl. }
  intros a Ha.
  assert (∀ x y, tc (input_edge no_links 7 one_child_issues) x y → x = 1 ∧ y = 2) as Htc.
  { induction 1 as [x y H|x y z H _ IH]; [by apply Hedge|].
    apply Hedge in H. lia. }
  apply Htc in Ha. lia.
Qed.

Lemma children_map_edges_witness :
  acyclic (input_edge no_links 7 one_child_issues)
  ∧ ∃ ibi cm roots,
      build_issue_tree 7 no_links one_child_issues = Ok (ibi, cm, roots)
      ∧ (∀ a b, child_edge cm a b ↔ input_edge no_links 7 one_child_issues a b)
      ∧ (acyclic (input_edge no_links 7 one_child_issues) → cycle_free cm roots).
Proof.
  split; [exact one_child_acyclic|].
  apply (children_map_edges 7 no_links one_child_issues).
  run_links_requests.
Defined.



Lemma self_link_ignored_witness :
  ∃ ibi cm roots,
    build_issue_tree 7 self_link_links self_link_issues = Ok (ibi, cm, roots)
    ∧ (∀ x, x ∈ entry cm (issue_id x)
            ↔ x ∈ entry (parent_pass (index_by_id self_link_issues) self_link_issues ∅)
                  (issue_id x))
    ∧ (∀ x, resolvable_parent (index_by_id self_link_issues) x ≠ Some (issue_id x) →
            x ∉ entry cm (issue_id x))
    ∧ (∀ x, x ∈ entry cm (issue_id x)
            ↔ x ∈ self_link_issues
              ∧ resolvable_parent (index_by_id self_link_issues) x = Some (issue_id x))
    ∧ (∀ src link children_map,
          link_type link = Some "blocks" →
          index_iid_to_id self_link_issues !! link_iid link = Some (issue_id src) →
          link_step (index_by_id self_link_issues) (index_iid_to_id self_link_issues)
            src children_map link
          = Ok children_map).
Proof.
  apply (self_link_ignored 7 self_link_links self_link_issues).
  run_links_requests.
Defined.

(** C8, as the specification states it, fails: issue 1 carries a [blocks]
    link to itself and is its own child, through the parent reference that
    names issue 1 itself. *)
Lemma self_parent_with_self_link :
  ∃ ibi cm roots x,
    build_issue_tree 7 self_parent_links self_parent_issues = Ok (ibi, cm, roots)
    ∧ x ∈ self_parent_issues
    ∧ carries_self_link self_parent_links 7 self_parent_issues x
    ∧ x ∈ entry cm (issue_id x).
Proof.
  eexists _, _, _, (sample_issue 1 11 (Some 1) "loop").
  split; [vm_compute; reflexivity|]. split; [by_evaluation|]. split; [|by_evaluation].
  exists (mkLink 11 (Some "blocks")). split; [by_evaluation|]. split; [done|].
  by vm_compute.
Qed.

Section LinksFetch.
Variable PROJECT_ID : Z.
Variable links_endpoint : Z → Z → Response (list Link).

Lemma link_pass_skip ibi i2i before x after cm :
  get_issue_links links_endpoint PROJECT_ID (issue_iid x) = Ok [] →
  link_pass PROJECT_ID links_endpoint ibi i2i (before ++ x :: after) cm
  = link_pass PROJECT_ID links_endpoint ibi i2i (before ++ after) cm.
Proof.
  intros Hx. revert cm. induction before as [|y before IH]; intros cm; simpl.
  - rewrite Hx. simpl. by case_decide.
  - case_decide; [|apply IH].
    destruct (get_issue_links links_endpoint PROJECT_ID (issue_iid y)); simpl; [|done].
    destruct (link_loop ibi i2i y a cm); simpl; [apply IH|done].
Qed.

(** C7.  A 404 from the links resource is an empty list of links: the
    issue adds nothing to the children map and the run goes on as if the
    issue were not asked about.  Any other client or server error status
    (400 to 599) raises, and the error ends the construction of the tree.
    A status outside that range is not an error to the code, success or
    not: the request returns whatever the body decodes to. *)
Theorem links_not_found_is_empty :
  (∀ project_id issue_iid,
      status_code (links_endpoint project_id issue_iid) = 404 →
      get_issue_links links_endpoint project_id issue_iid = Ok [])
  ∧ (∀ ibi i2i before x after cm,
      status_code (links_endpoint PROJECT_ID (issue_iid x)) = 404 →
      link_pass PROJECT_ID links_endpoint ibi i2i (before ++ x :: after) cm
      = link_pass PROJECT_ID links_endpoint ibi i2i (before ++ after) cm)
  ∧ (∀ project_id issue_iid status,
      status_code (links_endpoint project_id issue_iid) = status →
      status ≠ 404 → 400 ≤ status < 600 →
      get_issue_links links_endpoint project_id issue_iid = Raise (HTTPError status))
  ∧ (∀ issues x status,
      x ∈ issues → is_issue_type x = true →
      status_code (links_endpoint PROJECT_ID (issue_iid x)) = status →
      status ≠ 404 → 400 ≤ status < 600 →
      ∃ e, build_issue_tree PROJECT_ID links_endpoint issues = Raise e)
  ∧ (∀ project_id issue_iid,
      ¬ (400 ≤ status_code (links_endpoint project_id issue_iid) < 600) →
      get_issue_links links_endpoint project_id issue_iid
      = json (links_endpoint project_id issue_iid)).
Proof.
  assert (∀ project_id issue_iid,
      status_code (links_endpoint project_id issue_iid) = 404 →
      get_issue_links links_endpoint project_id issue_iid = Ok []) as Hfound.
  { intros project_id issue_iid H. unfold get_issue_links. by rewrite H. }
  assert (∀ project_id issue_iid status,
      status_code (links_endpoint project_id issue_iid) = status →
      status ≠ 404 → 400 ≤ status < 600 →
      get_issue_links links_endpoint project_id issue_iid = Raise (HTTPError status))
    as Herror.
  { intros project_id issue_iid status H Hne Hrange.
    unfold get_issue_links, raise_for_status. rewrite H.
    destruct (Z.eqb_spec status 404) as [|_]; [done|].
    destruct (Z.leb_spec 400 status); [|lia].
    destruct (Z.ltb_spec status 600); [|lia]. done. }
  split; [done|]. split; [|split; [done|split]].
  - intros ibi i2i before x after cm H. apply link_pass_skip. by apply Hfound.
  - intros issues x status Hx Ht Hs Hne Hrange.
    pose proof (Herror _ _ _ Hs Hne Hrange) as He.
    unfold build_issue_tree.
    destruct (link_pass_raises PROJECT_ID links_endpoint (index_by_id issues)
                (index_iid_to_id issues) issues
                (parent_pass (index_by_id issues) issues ∅) x _ Hx Ht He) as [e' ->].
    simpl. eauto.
  - intros project_id issue_iid Hrange.
    unfold get_issue_links, raise_for_status.
    destruct (Z.eqb_spec (status_code (links_endpoint project_id issue_iid)) 404)
      as [H404|_]; [lia|].
    destruct (Z.leb_spec 400 (status_code (links_endpoint project_id issue_iid)));
      destruct (Z.ltb_spec (status_code (links_endpoint project_id issue_iid)) 600);
      simpl; try done. lia.
Qed.
End LinksFetch.

Lemma links_not_found_is_empty_witness :
  get_issue_links failing_links 7 11 = Ok []
  ∧ link_pass 7 failing_links ∅ ∅ ([] ++ sample_issue 1 11 None "self" :: []) ∅
    = link_pass 7 failing_links ∅ ∅ ([] ++ []) ∅
  ∧ get_issue_links failing_links 7 12 = Raise (HTTPError 500)
  ∧ (∃ e, build_issue_tree 7 failing_links self_link_issues = Raise e)
  ∧ get_issue_links redirected_links 7 11 = json (redirected_links 7 11).
Proof.
  destruct (links_not_found_is_empty 7 failing_links)
    as (Hfound & Hskip & Herror & Hfatal & _).
  split; [by apply Hfound|]. split; [by apply Hskip|].
  split; [by apply Herror|]. split.
  - apply (Hfatal self_link_issues (sample_issue 2 12 None "linked") 500);
      [by_evaluation|done|done|done|lia].
  - destruct (links_not_found_is_empty 7 redirected_links) as (_ & _ & _ & _ & Hother).
    apply Hother. change (¬ (400 ≤ 302 < 600)). lia.
Defined.

(** C7, as the specification states it, fails: status 302 is neither 404 nor
    a success, yet the links request returns the link of the body, and the
    builder attaches issue 2 under issue 1 with it. *)
Lemma redirect_status_not_fatal :
  ¬ other_statuses_fatal redirected_links 7
  ∧ ∃ ibi cm roots,
      build_issue_tree 7 redirected_links mutual_block_issues = Ok (ibi, cm, roots)
      ∧ entry cm 1 = [sample_issue 2 12 None "left"].
Proof.
  split.
  - intros Hfatal. destruct (Hfatal 11) as [e He].
    + change (302 ≠ 404). lia.
    + change (¬ (200 ≤ 302 < 300)). lia.
    + vm_compute in He. done.
  - eexists _, _, _. split; vm_compute; reflexivity.
Qed.

(** ** Strings *)

Lemma append_empty (s : string) : EmptyString +:+ s = s.
Proof. reflexivity. Qed.

Lemma append_String (c : ascii) (s t : string) : String c s +:+ t = String c (s +:+ t).
Proof. reflexivity. Qed.

Lemma chop_Some p s r : chop p s = Some r ↔ s = p +:+ r.
Proof.
  revert s. induction p as [|a p IH]; intros s; simpl.
  - rewrite append_empty. split; congruence.
  - rewrite append_String. destruct s as [|b s]; [done|]. case_decide as Hab.
    + subst b. rewrite IH. split; congruence.
    + split; [done|]. congruence.
Qed.

Lemma chop_app p q s : chop (p +:+ q) s = chop p s ≫= chop q.
Proof.
  revert s. induction p as [|a p IH]; intros s; [done|].
  rewrite append_String. simpl. destruct s as [|b s]; [done|].
  case_decide; [apply IH|done].
Qed.

Lemma contains_app c s t : contains c (s +:+ t) = contains c s || contains c t.
Proof.
  induction s as [|a s IH]; [done|].
  rewrite append_String. simpl. by rewrite IH, orb_assoc.
Qed.

Lemma lstrip_suffix s : ∃ p, s = p +:+ lstrip s.
Proof.
  induction s as [|c s [p IH]]; simpl; [by exists EmptyString|].
  destruct (isspace c); [|by exists EmptyString].
  exists (String c p). rewrite append_String. by rewrite <- IH.
Qed.

Lemma rstrip_prefix s : ∃ q, s = rstrip s +:+ q.
Proof.
  induction s as [|c s [q IH]]; simpl; [by exists EmptyString|].
  destruct (rstrip s) as [|c' s'] eqn:Hs.
  - rewrite append_empty in IH. destruct (isspace c).
    + exists (String c s). done.
    + exists s. by rewrite append_String, append_empty.
  - exists q. rewrite append_String. by rewrite <- IH.
Qed.

Lemma strip_no_LF s : contains LF s = false → contains LF (strip s) = false.
Proof.
  intros H. unfold strip.
  destruct (lstrip_suffix s) as [p Hp]. destruct (rstrip_prefix (lstrip s)) as [q Hq].
  rewrite Hp, Hq, !contains_app in H.
  by apply orb_false_iff in H as [_ [H _]%orb_false_iff].
Qed.

Lemma dot_run_no_LF s : contains LF s = false → dot_run s = (s, EmptyString).
Proof.
  induction s as [|c s IH]; simpl; [done|].
  intros [Hc Hs]%orb_false_iff. apply bool_decide_eq_false in Hc.
  rewrite decide_False by congruence. by rewrite IH.
Qed.

(** No line of [splitlines] keeps a line feed. *)
Lemma splitlines_no_LF s :
  Forall (λ line, contains LF line = false) (splitlines s).
Proof.
  assert (∀ n s, (String.length s ≤ n)%nat →
            Forall (λ line, contains LF line = false) (splitlines s)) as H;
    [|by apply (H (String.length s))].
  clear s. induction n as [|n IH]; intros s Hn.
  - destruct s; [constructor|simpl in Hn; lia].
  - destruct s as [|c s]; [constructor|]. simpl in Hn. simpl.
    destruct (is_line_boundary c) eqn:Hc.
    + constructor; [done|]. destruct s as [|c' s]; [constructor|].
      case_decide; apply IH; simpl in *; lia.
    + assert (Forall (λ line, contains LF line = false) (splitlines s)) as Hs
        by (apply IH; lia).
      assert (bool_decide (LF = c) = false) as HLF.
      { apply bool_decide_eq_false. intros <-. by vm_compute in Hc. }
      destruct (splitlines s) as [|line lines].
      * constructor; [|constructor]. simpl. by rewrite HLF.
      * apply Forall_cons in Hs as [Hline Hlines].
        constructor; [|done]. simpl. by rewrite HLF, Hline.
Qed.

(** ** The checklist parser *)

Lemma omap_agree {A B} (f g : A → option B) (l : list A) :
  Forall (λ x, f x = g x) l → omap f l = omap g l.
Proof.
  induction 1 as [|x l Hx _ IH]; [done|].
  change (omap f (x :: l))
    with (match f x with Some y => y :: omap f l | None => omap f l end).
  change (omap g (x :: l))
    with (match g x with Some y => y :: omap g l | None => omap g l end).
  by rewrite Hx, IH.
Qed.

Lemma re_match_no_LF s :
  contains LF s = false →
  re_match s
  = match chop "- [x] " s, chop "- [ ] " s with
    | Some text, _ =>
        if decide (text = EmptyString) then None else Some ("x", text)
    | None, Some text =>
        if decide (text = EmptyString) then None else Some (" ", text)
    | None, None => None
    end.
Proof.
  intros HLF. unfold re_match.
  change "- [x] " with ("- [" +:+ "x] "). change "- [ ] " with ("- [" +:+ " ] ").
  rewrite !chop_app.
  destruct (chop "- [" s) as [rest|] eqn:Hs; [|done]. simpl.
  destruct rest as [|c4 rest]; [done|]. simpl.
  assert (contains LF rest = false) as HLF'.
  { apply chop_Some in Hs. subst s. rewrite !append_String, append_empty in HLF.
    simpl in HLF. repeat (apply orb_false_iff in HLF as [_ HLF]). done. }
  clear Hs HLF s. rename rest into s. rename HLF' into HLF.
  assert (∀ c, mbind (M := option) (λ rest,
                 let '(text, after) := dot_run rest in
                 if decide (text ≠ EmptyString
                            ∧ (after = EmptyString ∨ after = String LF EmptyString))
                 then Some (String c EmptyString, text) else None) (chop "] " s)
               = match chop "] " s with
                 | Some text => if decide (text = EmptyString) then None
                                else Some (String c EmptyString, text)
                 | None => None
                 end) as Hrest.
  { intros c. destruct (chop "] " s) as [rest|] eqn:Hrest; [|done]. simpl.
    rewrite dot_run_no_LF.
    - destruct (decide (rest = EmptyString)) as [->|Hne].
      + rewrite decide_False; [done|]. by intros [? _].
      + rewrite decide_True; [done|]. split; [done|by left].
    - apply chop_Some in Hrest. subst s. rewrite !append_String, append_empty in HLF.
      simpl in HLF. repeat (apply orb_false_iff in HLF as [_ HLF]). done. }
  destruct (decide ("x"%char = c4)) as [<-|Hx].
  - rewrite decide_True by (by right). apply Hrest.
  - destruct (decide (" "%char = c4)) as [<-|Hsp].
    + rewrite decide_True by (by left). apply Hrest.
    + rewrite decide_False; [done|]. intros [?|?]; congruence.
Qed.

Lemma parse_line_checkbox line :
  contains LF line = false →
  (λ groups : string * string, (bool_decide (groups.1 = "x"), groups.2))
    <$> re_match (strip line) = checkbox line.
Proof.
  intros HLF. rewrite re_match_no_LF by (by apply strip_no_LF). unfold checkbox.
  destruct (chop "- [x] " (strip line)) as [text|].
  - by case_decide.
  - destruct (chop "- [ ] " (strip line)) as [text|]; [|done]. by case_decide.
Qed.

Lemma parse_loop_omap lines tasks :
  foldl (λ tasks line,
           match re_match (strip line) with
           | Some (group1, group2) => tasks ++ [(bool_decide (group1 = "x"), group2)]
           | None => tasks
           end) tasks lines
  = tasks ++ omap (λ line,
                (λ groups : string * string, (bool_decide (groups.1 = "x"), groups.2))
                  <$> re_match (strip line)) lines.
Proof.
  revert tasks. induction lines as [|line lines IH]; intros tasks; simpl.
  - by rewrite app_nil_r.
  - rewrite IH. destruct (re_match (strip line)) as [[g1 g2]|]; simpl; [|done].
    by rewrite <- app_assoc.
Qed.

Lemma checkbox_strip line checked text :
  checkbox line = Some (checked, text)
  ↔ strip line = "- [" +:+ (if checked then "x" else " ") +:+ "] " +:+ text
    ∧ text ≠ EmptyString.
Proof.
  unfold checkbox.
  assert (∀ t, "- [x] " +:+ t = "- [" +:+ "x" +:+ "] " +:+ t) as Hx' by done.
  assert (∀ t, "- [ ] " +:+ t = "- [" +:+ " " +:+ "] " +:+ t) as Hsp' by done.
  assert (∀ t u, "- [" +:+ "x" +:+ "] " +:+ t ≠ "- [" +:+ " " +:+ "] " +:+ u) as Hne.
  { intros t u. repeat rewrite ?append_String, ?append_empty. congruence. }
  assert (∀ a t u, "- [" +:+ String a "] " +:+ t = "- [" +:+ String a "] " +:+ u → t = u)
    as Hinj.
  { intros a t u. repeat rewrite ?append_String, ?append_empty. congruence. }
  destruct (chop "- [x] " (strip line)) as [t|] eqn:Hx.
  + apply chop_Some in Hx. rewrite Hx, Hx'. destruct checked; simpl.
    * case_decide as Ht.
      -- subst t. split; [done|]. by intros [->%(Hinj "x"%char) ?].
      -- split; [by intros [= <-]|]. by intros [->%(Hinj "x"%char) _].
    * split; [by case_decide|]. intros [H _]. by apply Hne in H.
  + destruct (chop "- [ ] " (strip line)) as [t|] eqn:Hsp.
    * apply chop_Some in Hsp. rewrite Hsp, Hsp'. destruct checked; simpl.
      -- split; [by case_decide|]. intros [H _]. symmetry in H. by apply Hne in H.
      -- case_decide as Ht.
         ++ subst t. split; [done|]. by intros [->%(Hinj " "%char) ?].
         ++ split; [by intros [= <-]|]. by intros [->%(Hinj " "%char) _].
    * split; [done|]. intros [H _]. destruct checked.
      -- assert (chop "- [x] " (strip line) = Some text) as Hc by (by apply chop_Some).
         congruence.
      -- assert (chop "- [ ] " (strip line) = Some text) as Hc by (by apply chop_Some).
         congruence.
Qed.

(** ** JSON values *)

Lemma get_then_eq {A} d k dflt (f : JSON → A) : get_then d k dflt f = f (get d k dflt).
Proof.
  unfold get. induction d as [|[k' v] d IH]; simpl; [done|].
  by case_decide.
Qed.

Lemma dict_get_app d1 d2 k :
  dict_get (d1 ++ d2) k
  = match dict_get d1 k with Some v => Some v | None => dict_get d2 k end.
Proof.
  induction d1 as [|[k' v] d1 IH]; simpl; [done|]. by case_decide.
Qed.

Lemma dict_get_field {A} k (f : A → JSON) v k' :
  dict_get (field k f v) k' = if decide (k = k') then f <$> v else None.
Proof. destruct v; simpl; by case_decide. Qed.

Lemma json_size_list x l : x ∈ l → (json_size x < json_size (JList l))%nat.
Proof.
  simpl. induction 1 as [x l|x y l _ IH]; simpl; lia.
Qed.

Lemma json_size_dict d k v :
  dict_get d k = Some v → (json_size v < json_size (JDict d))%nat.
Proof.
  simpl. induction d as [|[k' v'] d IH]; simpl; [done|].
  case_decide; [intros [= ->]; lia|]. intros Hv%IH. lia.
Qed.

(** A value found under a key, or among the items of a list found under a
    key, is smaller than the object. *)
Lemma json_size_get_list d k l x :
  get d k (JList []) = JList l → x ∈ l → (json_size x < json_size (JDict d))%nat.
Proof.
  intros Hget Hx. unfold get in Hget.
  destruct (dict_get d k) as [v|] eqn:Hk; simpl in Hget.
  - subst v. apply json_size_dict in Hk. apply json_size_list in Hx. lia.
  - injection Hget as <-. by apply elem_of_nil in Hx.
Qed.

Lemma json_size_get_dict d k d' k' v :
  get d k (JDict []) = JDict d' → dict_get d' k' = Some v →
  (json_size v < json_size (JDict d))%nat.
Proof.
  intros Hget Hv. unfold get in Hget.
  destruct (dict_get d k) as [w|] eqn:Hk; simpl in Hget.
  - subst w. apply json_size_dict in Hk. apply json_size_dict in Hv. lia.
  - injection Hget as <-. done.
Qed.

(** ** The interpreter state *)

Lemma emit_nil σ l : emit σ l [] = σ.
Proof.
  destruct σ as [h out reqs]. unfold emit. simpl. f_equal.
  - apply map_eq. intros i. rewrite lookup_alter. case_decide; [|done].
    subst i. destruct (h !! l); simpl; [|done]. by rewrite app_nil_r.
  - by rewrite app_nil_r.
Qed.

Lemma emit_emit σ l a b : emit (emit σ l a) l b = emit σ l (a ++ b).
Proof.
  unfold emit. simpl. f_equal.
  - apply map_eq. intros i. destruct (decide (l = i)) as [<-|Hne].
    + rewrite !lookup_alter_eq. destruct (heap σ !! l); simpl; [|done].
      by rewrite app_assoc.
    + by rewrite !lookup_alter_ne.
  - by rewrite app_assoc.
Qed.

Lemma emit_heap σ l new old :
  heap σ !! l = Some old → heap (emit σ l new) = <[l := old ++ new]> (heap σ).
Proof.
  intros H. unfold emit. simpl. apply map_eq. intros i.
  rewrite lookup_alter, lookup_insert. case_decide; [|done]. subst i. by rewrite H.
Qed.

(** ** The printer, one call at a time *)

Lemma for_in_cons x xs (body : JSON → M unit) σ :
  for_in (JList (x :: xs)) body σ
  = match body x σ with
    | (Ok _, σ') => for_in (JList xs) body σ'
    | (Raise e, σ') => (Raise e, σ')
    end.
Proof. reflexivity. Qed.

Lemma for_in_ext v (body1 body2 : JSON → M unit) σ :
  (∀ x σ, body1 x σ = body2 x σ) → for_in v body1 σ = for_in v body2 σ.
Proof.
  intros Hbody. destruct v as [| | | |l|d]; try done.
  revert σ. induction l as [|x l IH]; intros σ; [done|].
  rewrite !for_in_cons, Hbody. destruct (body2 x σ) as [[[]|e] σ']; [apply IH|done].
Qed.

Lemma print_workitem_hierarchy_not_dict w indent l σ :
  (∀ d, w ≠ JDict d) →
  print_workitem_hierarchy w indent (Some l) σ = (Raise AttributeError, σ).
Proof. intros Hw. destruct w; try done. by destruct (Hw d). Qed.

Lemma print_workitem_hierarchy_dict w indent l σ :
  print_workitem_hierarchy (JDict w) indent (Some l) σ
  = match line_of w indent with
    | Ok line =>
        match for_in (get w "widgets" (JList [])) (widget_body indent l)
                (emit σ l [line]) with
        | (Ok _, σ') => (Ok l, σ')
        | (Raise e, σ') => (Raise e, σ')
        end
    | Raise e => (Raise e, σ)
    end.
Proof.
  simpl. unfold line_of, mbind, M_bind, mret, M_ret.
  destruct (get w "workItemType" (JDict [])); try done.
  destruct (get w "createdAt" (JStr "")); try done.
  simpl. rewrite get_then_eq.
  match goal with
  | |- context [for_in _ ?body ?σ1] =>
      rewrite (for_in_ext _ body (widget_body indent l) σ1)
  end.
  - unfold emit. simpl. by destruct (for_in _ _ _) as [[[]|e] σ'].
  - intros widget σ1. destruct widget as [| | | | |wd]; try done. simpl.
    destruct (eq_str (dict_get wd "type") "HIERARCHY"); [|done].
    rewrite get_then_eq. destruct (get wd "children" (JDict [])); try done.
    by rewrite get_then_eq.
Qed.

Lemma print_workitem_hierarchy_None w indent σ :
  print_workitem_hierarchy w indent None σ
  = let l := fresh (dom (heap σ)) in
    print_workitem_hierarchy w indent (Some l)
      (mkWorld (<[l := []]> (heap σ)) (stdout σ) (requests σ)).
Proof. by destruct w. Qed.

(** ** The printer only appends *)

Lemma for_in_frame (body : JSON → M unit) v l :
  (∀ x σ, x ∈ items v → ∃ new r, body x σ = (r, emit σ l new)) →
  ∀ σ, ∃ new r, for_in v body σ = (r, emit σ l new).
Proof.
  intros Hbody σ.
  assert (∀ r : Result (), ∃ new r', (r, σ) = (r', emit σ l new)) as Hhere.
  { intros r. exists [], r. by rewrite emit_nil. }
  destruct v as [| | |s|xs|d]; try apply Hhere.
  - simpl. case_decide; apply Hhere.
  - simpl in Hbody. clear Hhere. revert σ.
    induction xs as [|x xs IH]; intros σ.
    + exists [], (Ok tt). by rewrite emit_nil.
    + rewrite for_in_cons.
      destruct (Hbody x σ) as (new1 & r1 & ->); [constructor|].
      destruct r1 as [[]|e]; [|by exists new1, (Raise e)].
      destruct IH with (σ := emit σ l new1) as (new2 & r2 & ->).
      { intros y σ' Hy. apply Hbody. by constructor. }
      exists (new1 ++ new2), r2. by rewrite emit_emit.
  - simpl. case_decide; apply Hhere.
Qed.

Lemma print_workitem_hierarchy_frame w indent l σ :
  ∃ new r, print_workitem_hierarchy w indent (Some l) σ = (r, emit σ l new)
           ∧ (r = Ok l ∨ ∃ e, r = Raise e).
Proof.
  remember (json_size w) as n eqn:Hn.
  assert (json_size w < S n)%nat as Hsize by lia. clear Hn.
  revert w indent σ Hsize. generalize (S n). clear n.
  induction n as [|n IH]; intros w indent σ Hsize; [lia|].
  destruct w as [| | | | |w];
    try (exists [], (Raise AttributeError); rewrite emit_nil;
         split; [by apply print_workitem_hierarchy_not_dict|by right; eexists]).
  rewrite print_workitem_hierarchy_dict.
  destruct (line_of w indent) as [line|e]; cycle 1.
  { exists [], (Raise e). rewrite emit_nil. split; [done|by right; eexists]. }
  destruct (for_in_frame (widget_body indent l) (get w "widgets" (JList [])) l)
    with (σ := emit σ l [line]) as (new & r & ->).
  - intros widget σ1 Hwidget.
    destruct widget as [| | | | |wd];
      try (by exists [], (Raise AttributeError); rewrite emit_nil).
    simpl. destruct (eq_str (dict_get wd "type") "HIERARCHY");
      [|by exists [], (Ok tt); rewrite emit_nil].
    destruct (get wd "children" (JDict [])) as [| | | | |cd] eqn:Hcd;
      try (by exists [], (Raise AttributeError); rewrite emit_nil).
    apply for_in_frame. intros child σ2 Hchild. unfold child_body, mbind, M_bind.
    destruct (IH child (S indent) σ2) as (new & r & -> & _).
    + destruct (get w "widgets" (JList [])) as [| | | |ws|] eqn:Hws;
        try (by apply elem_of_nil in Hwidget).
      destruct (get cd "nodes" (JList [])) as [| | | |ns|] eqn:Hns;
        try (by apply elem_of_nil in Hchild).
      simpl in Hwidget, Hchild.
      pose proof (json_size_get_list _ _ _ _ Hws Hwidget) as H1.
      pose proof (json_size_get_list _ _ _ _ Hns Hchild) as H2.
      assert (json_size (JDict cd) ≤ json_size (JDict wd))%nat as H3.
      { unfold get in Hcd. destruct (dict_get wd "children") as [v|] eqn:Hv; simpl in Hcd.
        - subst v. apply json_size_dict in Hv. lia.
        - injection Hcd as <-. simpl. lia. }
      lia.
    + destruct r as [v|e]; [by exists new, (Ok tt)|by exists new, (Raise e)].
  - rewrite emit_emit. destruct r as [[]|e].
    + exists ([line] ++ new), (Ok l). split; [done|by left].
    + exists ([line] ++ new), (Raise e). split; [done|by right; eexists].
Qed.

(** ** The printer on encoded work items *)

Lemma encode_PItem a widgets :
  encode (PItem a widgets)
  = JDict (encode_attrs a ++ field "widgets" (λ ws, JList (List.map encode_widget ws)) widgets).
Proof. by destruct widgets. Qed.

Lemma encode_PWidget t h c :
  encode_widget (PWidget t h c)
  = JDict (field "type" JStr t ++ field "hasChildren" JBool h
           ++ field "children"
                (λ nodes, JDict (field "nodes" (λ ns, JList (List.map encode ns)) nodes)) c).
Proof. by destruct c as [[?|]|]. Qed.

Lemma line_of_encode a (widgets : option JSON) indent :
  line_of (encode_attrs a ++ field "widgets" id widgets) indent
  = Ok (expected_line a indent).
Proof.
  destruct a as [[?|] [?|] [?|] [?|] [?|] [[?|]|]]; destruct widgets; reflexivity.
Qed.

Lemma get_widgets_encode a (widgets : option JSON) :
  get (encode_attrs a ++ field "widgets" id widgets) "widgets" (JList [])
  = default (JList []) widgets.
Proof.
  destruct a as [[?|] [?|] [?|] [?|] [?|] [[?|]|]]; destruct widgets; reflexivity.
Qed.

Lemma field_fmap {A} k (f : A → JSON) (v : option A) : field k f v = field k id (f <$> v).
Proof. by destruct v. Qed.

Lemma for_in_map {A} (enc : A → JSON) (out : A → list string)
    (body : JSON → M unit) l xs σ :
  (∀ x σ, x ∈ xs → body (enc x) σ = (Ok tt, emit σ l (out x))) →
  for_in (JList (List.map enc xs)) body σ
  = (Ok tt, emit σ l (List.concat (List.map out xs))).
Proof.
  revert σ. induction xs as [|x xs IH]; intros σ Hbody.
  - simpl. by rewrite emit_nil.
  - simpl List.map. rewrite for_in_cons, Hbody by constructor.
    rewrite IH by (intros y σ' Hy; apply Hbody; by constructor).
    simpl. by rewrite emit_emit.
Qed.

Lemma print_workitem_hierarchy_encode p indent l σ :
  print_workitem_hierarchy (encode p) indent (Some l) σ
  = (Ok l, emit σ l (expected p indent)).
Proof.
  remember (json_size (encode p)) as n eqn:Hn.
  assert (json_size (encode p) < S n)%nat as Hsize by lia. clear Hn.
  revert p indent σ Hsize. generalize (S n). clear n.
  induction n as [|n IH]; intros p indent σ Hsize; [lia|].
  destruct p as [a widgets]. rewrite encode_PItem in *.
  destruct widgets as [ws|]; cycle 1.
  { change (field "widgets" _ None) with (field "widgets" id None).
    by rewrite print_workitem_hierarchy_dict, line_of_encode, get_widgets_encode. }
  change (field "widgets" _ (Some ws))
    with (field "widgets" id (Some (JList (List.map encode_widget ws)))) in *.
  rewrite print_workitem_hierarchy_dict, line_of_encode, get_widgets_encode.
  simpl default.
  rewrite (for_in_map encode_widget (λ w, expected_widget w indent) (widget_body indent l) l).
  { by rewrite emit_emit. }
  intros w σ1 Hw. destruct w as [t h c]. rewrite encode_PWidget.
  assert (json_size (encode_widget (PWidget t h c)) < n)%nat as Hw_size.
  { assert (json_size (encode_widget (PWidget t h c))
            < json_size (JDict (encode_attrs a
                ++ field "widgets" id (Some (JList (List.map encode_widget ws))))))%nat;
      [|lia].
    apply (json_size_get_list _ "widgets" (List.map encode_widget ws));
      [exact (get_widgets_encode a (Some _))|].
    apply list_elem_of_In, in_map, list_elem_of_In, Hw. }
  rewrite encode_PWidget in Hw_size.
  simpl widget_body. simpl expected_widget.
  assert (eq_str (dict_get (field "type" JStr t ++ field "hasChildren" JBool h
             ++ field "children"
                  (λ nodes, JDict (field "nodes" (λ ns, JList (List.map encode ns)) nodes)) c)
            "type") "HIERARCHY" = bool_decide (t = Some "HIERARCHY")) as ->.
  { destruct t as [s|], h, c as [[?|]|]; simpl; try done;
      apply bool_decide_ext; split; congruence. }
  case_bool_decide as Ht; rewrite ?decide_True, ?decide_False by done;
    [|by rewrite emit_nil].
  destruct c as [[nodes|]|]; cycle 1.
  { destruct t, h; simpl; by rewrite emit_nil. }
  { destruct t, h; simpl; by rewrite emit_nil. }
  assert (get (field "type" JStr t ++ field "hasChildren" JBool h
             ++ field "children"
                  (λ nodes, JDict (field "nodes" (λ ns, JList (List.map encode ns)) nodes))
                  (Some (Some nodes))) "children" (JDict [])
          = JDict [("nodes", JList (List.map encode nodes))]) as Hchildren.
  { by destruct t, h. }
  rewrite Hchildren.
  change (get [("nodes", JList (List.map encode nodes))] "nodes" (JList []))
    with (JList (List.map encode nodes)).
  apply (for_in_map encode (λ c, expected c (S indent)) (child_body indent l) l).
  intros child σ2 Hchild. unfold child_body, mbind, M_bind.
  rewrite IH; [done|].
  assert (json_size (encode child) < json_size (JDict [("nodes", JList (List.map encode nodes))]))%nat
    as H1.
  { eapply (json_size_get_list _ "nodes"); [done|].
    apply list_elem_of_In, in_map, list_elem_of_In, Hchild. }
  unfold get in Hchildren.
  destruct (dict_get _ "children") as [v|] eqn:Hv in Hchildren; [|done].
  simpl in Hchildren. subst v. apply json_size_dict in Hv. lia.
Qed.

Lemma emit_new_list σ l new :
  emit (mkWorld (<[l := []]> (heap σ)) (stdout σ) (requests σ)) l new
  = mkWorld (<[l := new]> (heap σ)) (stdout σ ++ new) (requests σ).
Proof.
  unfold emit. simpl. f_equal. apply map_eq. intros i.
  destruct (decide (l = i)) as [<-|Hne].
  - by rewrite lookup_alter_eq, !lookup_insert_eq.
  - by rewrite lookup_alter_ne, !lookup_insert_ne.
Qed.

Lemma emit_Some σ l new old :
  heap σ !! l = Some old →
  emit σ l new = mkWorld (<[l := old ++ new]> (heap σ)) (stdout σ ++ new) (requests σ).
Proof. intros H. unfold emit. f_equal. by apply (emit_heap σ l new old). Qed.

Lemma fresh_list_unused (σ : World) : heap σ !! fresh (dom (heap σ)) = None.
Proof. apply not_elem_of_dom, is_fresh. Qed.

(** C9.  Called with a list, [print_workitem_hierarchy] hands back that
    very list object, its old elements in place and the lines printed by the
    call appended in the order they were printed, also when the call ends in
    an exception; called without one, it hands back a new list object
    holding those lines.  On a work item of the tracker the call returns, and
    the lines are the depth-first rendering. *)
Theorem print_workitem_hierarchy_appends :
  (∀ w indent l σ old,
      heap σ !! l = Some old →
      ∃ new r,
        print_workitem_hierarchy w indent (Some l) σ
        = (r, mkWorld (<[l := old ++ new]> (heap σ)) (stdout σ ++ new) (requests σ))
        ∧ (r = Ok l ∨ ∃ e, r = Raise e))
  ∧ (∀ w indent σ,
      let l := fresh (dom (heap σ)) in
      heap σ !! l = None
      ∧ ∃ new r,
          print_workitem_hierarchy w indent None σ
          = (r, mkWorld (<[l := new]> (heap σ)) (stdout σ ++ new) (requests σ))
          ∧ (r = Ok l ∨ ∃ e, r = Raise e))
  ∧ (∀ p indent l σ old,
      heap σ !! l = Some old →
      print_workitem_hierarchy (encode p) indent (Some l) σ
      = (Ok l, mkWorld (<[l := old ++ expected p indent]> (heap σ))
                 (stdout σ ++ expected p indent) (requests σ)))
  ∧ (∀ p indent σ,
      print_workitem_hierarchy (encode p) indent None σ
      = (Ok (fresh (dom (heap σ))),
         mkWorld (<[fresh (dom (heap σ)) := expected p indent]> (heap σ))
           (stdout σ ++ expected p indent) (requests σ))).
Proof.
  split; [|split; [|split]].
  - intros w indent l σ old Hold.
    destruct (print_workitem_hierarchy_frame w indent l σ) as (new & r & -> & Hr).
    exists new, r. by rewrite (emit_Some _ _ _ old).
  - intros w indent σ l. split; [apply fresh_list_unused|].
    rewrite print_workitem_hierarchy_None. cbv zeta. fold l.
    destruct (print_workitem_hierarchy_frame w indent l
                (mkWorld (<[l := []]> (heap σ)) (stdout σ) (requests σ)))
      as (new & r & -> & Hr).
    exists new, r. by rewrite emit_new_list.
  - intros p indent l σ old Hold.
    by rewrite print_workitem_hierarchy_encode, (emit_Some _ _ _ old).
  - intros p indent σ.
    by rewrite print_workitem_hierarchy_None, print_workitem_hierarchy_encode, emit_new_list.
Qed.

Lemma print_workitem_hierarchy_appends_witness :
  print_workitem_hierarchy (encode sparse_item) 1 (Some 5%positive)
    (mkWorld {[5%positive := ["header"]]} [] [])
  = (Ok 5%positive,
     mkWorld (<[5%positive := ["header"] ++ expected sparse_item 1]> {[5%positive := ["header"]]})
       ([] ++ expected sparse_item 1) []).
Proof.
  destruct print_workitem_hierarchy_appends as (_ & _ & Hsome & _).
  exact (Hsome sparse_item 1%nat 5%positive (mkWorld {[5%positive := ["header"]]} [] [])
           ["header"] eq_refl).
Defined.

(** C10.  A work item with any of its fields missing renders without an
    exception: a missing type or type name reads [?], any other missing
    attribute is empty, and a work item without widgets, or a widget that is
    not a HIERARCHY widget or has no children, contributes no line besides
    the item's own. *)
Theorem partial_workitem_renders :
  (∀ p indent σ,
      print_workitem_hierarchy (encode p) indent None σ
      = (Ok (fresh (dom (heap σ))),
         mkWorld (<[fresh (dom (heap σ)) := expected p indent]> (heap σ))
           (stdout σ ++ expected p indent) (requests σ)))
  ∧ (∀ wtype indent,
      wtype = None ∨ wtype = Some None →
      expected_line (mkAttrs None None None None None wtype) indent
      = str_mul "    " indent +:+ "- [?] # |  |  | ")
  ∧ (∀ a indent, expected (PItem a None) indent = [expected_line a indent])
  ∧ (∀ a indent, expected (PItem a (Some [])) indent = [expected_line a indent])
  ∧ (∀ type hasChildren children indent,
      type ≠ Some "HIERARCHY" ∨ children = None ∨ children = Some None →
      expected_widget (PWidget type hasChildren children) indent = []).
Proof.
  split; [|split; [|split; [done|split; [done|]]]].
  - intros p indent σ.
    by rewrite print_workitem_hierarchy_None, print_workitem_hierarchy_encode, emit_new_list.
  - intros wtype indent Hw.
    assert (expected_line (mkAttrs None None None None None wtype) indent
            = (str_mul "    " indent +:+ "- ") +:+ "[?] # |  |  | ") as ->.
    { by destruct Hw as [->| ->]. }
    generalize (str_mul "    " indent). intros s.
    induction s as [|c s IH]; [done|]. rewrite !append_String. by rewrite IH.
  - intros type hasChildren children indent H. simpl.
    case_decide as Ht; [|done].
    destruct H as [H|[->| ->]]; done.
Qed.

Lemma partial_workitem_renders_witness :
  expected_line (mkAttrs None None None None None (Some None)) 0 = "- [?] # |  |  | "
  ∧ expected_widget (PWidget (Some "NOTES") None (Some (Some [bare_item]))) 0 = []
  ∧ print_workitem_hierarchy (encode sparse_item) 1 None (mkWorld ∅ [] [])
    = (Ok 1%positive,
       mkWorld {[1%positive := ["    - [?] #7 |  | 2024-05-06 | sparse";
                                "        - [?] # |  |  | "]]}
         ["    - [?] #7 |  | 2024-05-06 | sparse"; "        - [?] # |  |  | "] []).
Proof.
  destruct partial_workitem_renders as (Hrun & Hline & _ & _ & Hwidget).
  split; [apply (Hline (Some None) 0%nat); by right|].
  split; [apply Hwidget; by left|].
  rewrite (Hrun sparse_item 1%nat (mkWorld ∅ [] [])). vm_compute. reflexivity.
Defined.

(** ** The hierarchy walker *)

Lemma concat_map_nil {A B} (f : A → list B) (l : list A) :
  (∀ x, x ∈ l → f x = []) → List.concat (List.map f l) = [].
Proof.
  intros Hf. induction l as [|x l IH]; simpl; [done|].
  rewrite Hf by constructor. apply IH. intros y Hy. apply Hf. by constructor.
Qed.

Lemma concat_map_singleton {A B} (f : A → B) (l : list A) :
  List.concat (List.map (λ x, [f x]) l) = List.map f l.
Proof. induction l as [|x l IH]; simpl; [done|]. by rewrite IH. Qed.

Lemma expected_with_hierarchy r node page_size indent :
  expected (PItem (real_attrs r)
              (Some (real_other_widgets r ++ [hierarchy_widget page_size node r]))) indent
  = expected_line (real_attrs r) indent ::
      List.concat (List.map (λ c, expected (node c) (S indent))
                     (first_page page_size (real_children r))).
Proof.
  simpl. f_equal. rewrite List.map_app, List.concat_app. simpl.
  rewrite app_nil_r, List.map_map.
  rewrite concat_map_nil; [done|].
  intros w Hw. destruct r as [? ? ? ? ? ? others ?]. simpl in Hw.
  apply list_elem_of_In, in_map_iff in Hw as (t & <- & _). simpl. by case_decide.
Qed.

Lemma expected_level0 page_size r :
  expected (level0 page_size r) 0 = lines012 page_size r.
Proof.
  unfold level0, lines012. rewrite expected_with_hierarchy. f_equal. f_equal.
  apply List.map_ext. intros c1. unfold level1. rewrite expected_with_hierarchy.
  f_equal. apply concat_map_singleton.
Qed.

Lemma first_page_map page_size (f : RealItem → RealItem) l :
  first_page page_size (List.map f (first_page page_size l))
  = List.map f (first_page page_size l).
Proof.
  unfold first_page at 1. apply take_ge. rewrite length_map. unfold first_page. rewrite length_take. lia.
Qed.

Lemma real_attrs_cut r children : real_attrs (cut_children r children) = real_attrs r.
Proof. by destruct r. Qed.

Lemma real_children_cut r children : real_children (cut_children r children) = children.
Proof. by destruct r. Qed.

Lemma lines012_embedded page_size r :
  lines012 page_size (embedded page_size r) = lines012 page_size r.
Proof.
  unfold lines012, embedded.
  rewrite real_attrs_cut, real_children_cut. f_equal.
  rewrite first_page_map, List.map_map. f_equal.
  apply List.map_ext. intros c1.
  rewrite real_attrs_cut, real_children_cut. f_equal.
  rewrite first_page_map, List.map_map.
  apply List.map_ext. intros c2. by rewrite real_attrs_cut.
Qed.

Lemma fetch_workitem_hierarchy_answer graphql_endpoint gid page_size r σ :
  graphql_endpoint (mkRequest gid page_size "") = answer page_size r →
  fetch_workitem_hierarchy graphql_endpoint gid page_size σ
  = (Ok (encode (level0 page_size r)),
     mkWorld (heap σ) (stdout σ) (requests σ ++ [mkRequest gid page_size ""])).
Proof.
  intros Hanswer. unfold fetch_workitem_hierarchy, post, mbind, M_bind, lift.
  by rewrite Hanswer.
Qed.

(** C4, as the code has it.  The walker sends one request with an empty
    cursor, prints the lines of levels 0 to 2 of the first page, and appends
    them to the list; the lines are those of the embedded part of the
    hierarchy alone, so nothing in them marks that more exists. *)
Theorem hierarchy_truncated_silently graphql_endpoint gid page_size r l σ old :
  graphql_endpoint (mkRequest gid page_size "") = answer page_size r →
  heap σ !! l = Some old →
  walk_workitem graphql_endpoint gid page_size l σ
  = (Ok l,
     mkWorld (<[l := old ++ lines012 page_size r]> (heap σ))
       (stdout σ ++ lines012 page_size r)
       (requests σ ++ [mkRequest gid page_size ""]))
  ∧ lines012 page_size r = lines012 page_size (embedded page_size r)
  ∧ walker_output page_size r = walker_output page_size (embedded page_size r).
Proof.
  intros Hanswer Hold.
  assert (∀ ep g r' l' σ' old',
            ep (mkRequest g page_size "") = answer page_size r' →
            heap σ' !! l' = Some old' →
            walk_workitem ep g page_size l' σ'
            = (Ok l',
               mkWorld (<[l' := old' ++ lines012 page_size r']> (heap σ'))
                 (stdout σ' ++ lines012 page_size r')
                 (requests σ' ++ [mkRequest g page_size ""]))) as Hwalk.
  { intros ep g r' l' σ' old' Hep Hl'. unfold walk_workitem, mbind, M_bind.
    rewrite (fetch_workitem_hierarchy_answer ep g page_size r' σ' Hep).
    rewrite print_workitem_hierarchy_encode, expected_level0.
    by rewrite (emit_Some _ _ _ old'). }
  split; [by apply Hwalk|]. split; [by rewrite lines012_embedded|].
  unfold walker_output.
  rewrite (Hwalk (serve r) _ r _ _ []),
    (Hwalk (serve (embedded page_size r)) _ (embedded page_size r) _ _ []); try done.
  simpl. by rewrite lines012_embedded.
Qed.

Lemma hierarchy_truncated_silently_witness :
  walk_workitem (serve deep_hierarchy) "gid://gitlab/WorkItem/1" 100 5%positive
    (mkWorld {[5%positive := ["header"]]} [] [])
  = (Ok 5%positive,
     mkWorld (<[5%positive := ["header"] ++ lines012 100 deep_hierarchy]>
                {[5%positive := ["header"]]})
       ([] ++ lines012 100 deep_hierarchy)
       ([] ++ [mkRequest "gid://gitlab/WorkItem/1" 100 ""]))
  ∧ lines012 100 deep_hierarchy = lines012 100 (embedded 100 deep_hierarchy)
  ∧ walker_output 100 deep_hierarchy = walker_output 100 (embedded 100 deep_hierarchy).
Proof.
  exact (hierarchy_truncated_silently (serve deep_hierarchy) "gid://gitlab/WorkItem/1"
           100 deep_hierarchy 5%positive (mkWorld {[5%positive := ["header"]]} [] [])
           ["header"] eq_refl eq_refl).
Defined.

(** C4, as the specification states it, fails: the hierarchy has a third
    level of children, and the walker prints for it what it prints for the
    hierarchy that ends at the second level. *)
Lemma deep_hierarchy_unmarked : ¬ marks_truncation 100 deep_hierarchy.
Proof.
  intros Hmarks. apply Hmarks.
  - vm_compute. discriminate.
  - vm_compute. reflexivity.
Qed.

(** * Further properties *)

(** ** The tree builder: errors, indexes, invariants *)

Lemma get_issue_links_decoded ep P iid :
  get_issue_links (decoded ep) P iid
  = match get_issue_links_json ep P iid with
    | Ok v => from_option Ok (Raise JSONDecodeError) (decode_links v)
    | Raise e => Raise e
    end.
Proof.
  unfold get_issue_links, get_issue_links_json, raise_for_status, json, decoded.
  simpl. destruct (status_code (ep P iid) =? 404); [done|].
  destruct ((400 <=? status_code (ep P iid)) && (status_code (ep P iid) <? 600));
    simpl; [done|].
  by destruct (body (ep P iid)).
Qed.

Lemma link_step_json_decode ibi i2i x cm v link :
  decode_link v = Some link →
  link_step_json ibi i2i x cm v = link_step ibi i2i x cm link.
Proof.
  destruct v as [| | | |?|d]; try done. unfold decode_link.
  destruct (dict_get d "iid") as [[| |n| | |]|] eqn:Hiid; try done.
  intros [= <-]. unfold link_step_json, link_step, subscript. rewrite Hiid.
  cbn [link_type link_iid mbind Result_bind rbind get_by_value].
  destruct (dict_get d "link_type") as [[|b|m|s|l|d']|]; cbn [eq_str];
    try (by rewrite decide_False).
  destruct (decide (s = "blocks")) as [->|Hs].
  - rewrite bool_decide_eq_true_2 by done. by rewrite decide_True.
  - rewrite bool_decide_eq_false_2 by done. rewrite decide_False; [done|congruence].
Qed.

Lemma link_loop_json_decode ibi i2i x vs links cm :
  Forall2 (λ v link, decode_link v = Some link) vs links →
  link_loop_json ibi i2i x vs cm = link_loop ibi i2i x links cm.
Proof.
  intros H. revert cm. induction H as [|v link vs links Hv _ IH]; intros cm; [done|].
  simpl. rewrite (link_step_json_decode _ _ _ _ _ _ Hv).
  destruct (link_step ibi i2i x cm link); simpl; [apply IH|done].
Qed.

Lemma link_pass_json_decode P ep ibi i2i issues cm :
  (∀ x v, x ∈ issues → is_issue_type x = true →
      get_issue_links_json ep P (issue_iid x) = Ok v → is_Some (decode_links v)) →
  link_pass_json P ep ibi i2i issues cm = link_pass P (decoded ep) ibi i2i issues cm.
Proof.
  revert cm. induction issues as [|y issues IH]; intros cm Hshape; [done|].
  assert (∀ cm, link_pass_json P ep ibi i2i issues cm
                = link_pass P (decoded ep) ibi i2i issues cm) as IH'.
  { intros cm'. apply IH. intros x v Hx. apply Hshape. by constructor. }
  simpl. case_decide as Ht; [|apply IH'].
  rewrite get_issue_links_decoded.
  destruct (get_issue_links_json ep P (issue_iid y)) as [v|e] eqn:Hy; simpl; [|done].
  destruct (Hshape y v) as [links Hlinks]; [constructor|by apply bool_decide_eq_true|done|].
  rewrite Hlinks. simpl. destruct v as [| | | |vs|]; try done. simpl.
  apply mapM_Some in Hlinks.
  rewrite (link_loop_json_decode _ _ _ _ _ _ Hlinks).
  destruct (link_loop ibi i2i y links cm); simpl; [apply IH'|done].
Qed.

Lemma link_step_json_fault ibi i2i x cm link :
  (∀ k v, i2i !! k = Some v → is_Some (ibi !! v)) →
  match link_fault link with
  | Some e => link_step_json ibi i2i x cm link = Raise e
  | None => ∃ cm', link_step_json ibi i2i x cm link = Ok cm'
  end.
Proof.
  intros Hidx. destruct link as [| | | |?|d]; try done.
  unfold link_fault, link_step_json, subscript.
  destruct (eq_str (dict_get d "link_type") "blocks"); [|eauto].
  assert (∀ k, ∃ cm',
            match i2i !! k with
            | Some linked_id =>
                if decide (linked_id ≠ 0 ∧ linked_id ≠ issue_id x) then
                  match ibi !! linked_id with
                  | Some target => Ok (setdefault_append (issue_id x) target cm)
                  | None => Raise KeyError
                  end
                else Ok cm
            | None => Ok cm
            end = Ok cm') as Hkey.
  { intros k. destruct (i2i !! k) as [lid|] eqn:Hk; [|eauto].
    case_decide; [|eauto]. destruct (Hidx _ _ Hk) as [target ->]. eauto. }
  destruct (dict_get d "iid") as [[|b|n|s|l|d']|]; simpl; try done; eauto.
Qed.

Lemma link_loop_json_outcome ibi i2i x links cm :
  (∀ k v, i2i !! k = Some v → is_Some (ibi !! v)) →
  (Forall (λ link, link_fault link = None) links
   ∧ ∃ cm', link_loop_json ibi i2i x links cm = Ok cm')
  ∨ (∃ link e, link ∈ links ∧ link_fault link = Some e
               ∧ link_loop_json ibi i2i x links cm = Raise e).
Proof.
  intros Hidx. revert cm. induction links as [|link links IH]; intros cm.
  { left. split; [constructor|by exists cm]. }
  simpl. pose proof (link_step_json_fault ibi i2i x cm link Hidx) as Hstep.
  destruct (link_fault link) as [e|] eqn:Hfault.
  - right. exists link, e. rewrite Hstep. split; [constructor|done].
  - destruct Hstep as [cm1 ->]. simpl.
    destruct (IH cm1) as [[Hall Hok]|(link' & e & Hin & Hf & Hraise)].
    + left. split; [by constructor|done].
    + right. exists link', e. split; [by constructor|done].
Qed.

Lemma link_pass_json_cons P ep ibi i2i y issues cm :
  link_pass_json P ep ibi i2i (y :: issues) cm
  = if is_issue_type y then
      links ← get_issue_links_json ep P (issue_iid y);
      links ← py_iter links;
      cm ← link_loop_json ibi i2i y links cm;
      link_pass_json P ep ibi i2i issues cm
    else link_pass_json P ep ibi i2i issues cm.
Proof.
  unfold is_issue_type. simpl. case_decide.
  - by rewrite bool_decide_eq_true_2.
  - by rewrite bool_decide_eq_false_2.
Qed.

Lemma link_pass_json_outcome P ep ibi i2i issues cm :
  (∀ k v, i2i !! k = Some v → is_Some (ibi !! v)) →
  ((∀ x, x ∈ issues → is_issue_type x = true → links_readable ep P x)
   ∧ ∃ cm', link_pass_json P ep ibi i2i issues cm = Ok cm')
  ∨ (∃ x e, x ∈ issues ∧ is_issue_type x = true ∧ links_fault ep P x e
            ∧ link_pass_json P ep ibi i2i issues cm = Raise e).
Proof.
  intros Hidx. revert cm. induction issues as [|y issues IH]; intros cm.
  { left. split; [by intros x ?%elem_of_nil|by exists cm]. }
  rewrite link_pass_json_cons.
  assert (∀ cm1, (is_issue_type y = true → links_readable ep P y) →
            ((∀ x, x ∈ y :: issues → is_issue_type x = true → links_readable ep P x)
             ∧ ∃ cm', link_pass_json P ep ibi i2i issues cm1 = Ok cm')
            ∨ (∃ x e, x ∈ y :: issues ∧ is_issue_type x = true ∧ links_fault ep P x e
                      ∧ link_pass_json P ep ibi i2i issues cm1 = Raise e)) as Hrest.
  { intros cm1 Hy.
    destruct (IH cm1) as [[Hread Hok]|(x & e & Hx & Ht & Hf & Hraise)].
    - left. split; [|done].
      intros x [->|Hx]%elem_of_cons Hx'; [by apply Hy|by apply Hread].
    - right. exists x, e. split; [by constructor|done]. }
  destruct (is_issue_type y) eqn:Hty; [|by apply Hrest].
  destruct (get_issue_links_json ep P (issue_iid y)) as [v|e] eqn:Hy;
    cbn [mbind Result_bind rbind]; cycle 1.
  { right. exists y, e. split; [constructor|]. split; [done|]. split; [by left|done]. }
  destruct (py_iter v) as [links|e] eqn:Hv; cbn [mbind Result_bind rbind]; cycle 1.
  { right. exists y, e. split; [constructor|]. split; [done|]. split; [|done].
    right. exists v. split; [done|by left]. }
  destruct (link_loop_json_outcome ibi i2i y links cm Hidx)
    as [[Hall [cm1 Hok]]|(link & e & Hin & Hf & Hraise)].
  - rewrite Hok. cbn [mbind Result_bind rbind]. apply Hrest.
    intros _. by exists v, links.
  - rewrite Hraise. cbn [mbind Result_bind rbind]. right. exists y, e.
    split; [constructor|]. split; [done|]. split; [|done].
    right. exists v. split; [done|]. right. by exists links, link.
Qed.

Lemma links_readable_no_fault ep P x e :
  links_readable ep P x → ¬ links_fault ep P x e.
Proof.
  intros (v & links & Hv & Hiter & Hall) [Hraise|(v' & Hv' & Hf)]; [congruence|].
  assert (v' = v) as -> by congruence.
  destruct Hf as [Hraise|(links' & link & Hiter' & Hin & Hf)]; [congruence|].
  assert (links' = links) as -> by congruence.
  rewrite Forall_forall in Hall. specialize (Hall link Hin). congruence.
Qed.

(** X1.  The builder on the link bodies as they arrive.  Where every body
    read is a list of link objects with an int [iid], it is the builder on
    [Link]s.  It returns exactly when every links request of a non-task
    issue is answered and the body can be iterated and holds no faulty
    item; when it raises, the exception is that of such a request (an HTTP
    error or a body that does not decode), the [TypeError] of a body that
    cannot be iterated or of an [iid] that cannot be hashed, the
    [AttributeError] of an item that is no dict, or the [KeyError] of a
    [blocks] link without [iid]; the subscript [issues_by_id[linked_id]]
    never raises. *)
Theorem build_issue_tree_outcome (PROJECT_ID : Z)
    (links_endpoint : Z → Z → Response JSON) (issues : list Issue) :
  ((∀ x v, x ∈ issues → is_issue_type x = true →
       get_issue_links_json links_endpoint PROJECT_ID (issue_iid x) = Ok v →
       is_Some (decode_links v)) →
   build_issue_tree_json PROJECT_ID links_endpoint issues
   = build_issue_tree PROJECT_ID (decoded links_endpoint) issues)
  ∧ ((∃ result, build_issue_tree_json PROJECT_ID links_endpoint issues = Ok result)
     ↔ ∀ x, x ∈ issues → is_issue_type x = true →
            links_readable links_endpoint PROJECT_ID x)
  ∧ (∀ e, build_issue_tree_json PROJECT_ID links_endpoint issues = Raise e →
          ∃ x, x ∈ issues ∧ is_issue_type x = true
               ∧ links_fault links_endpoint PROJECT_ID x e)
  ∧ (∀ x, links_fault links_endpoint PROJECT_ID x KeyError →
          ∃ v links d,
            get_issue_links_json links_endpoint PROJECT_ID (issue_iid x) = Ok v
            ∧ py_iter v = Ok links ∧ JDict d ∈ links
            ∧ eq_str (dict_get d "link_type") "blocks" = true
            ∧ dict_get d "iid" = None).
Proof.
  pose proof (link_pass_json_outcome PROJECT_ID links_endpoint (index_by_id issues)
                (index_iid_to_id issues) issues
                (parent_pass (index_by_id issues) issues ∅)
                (index_iid_to_id_indexed issues)) as Hout.
  split; [|split; [split|split]].
  - intros Hshape. unfold build_issue_tree_json, build_issue_tree.
    by rewrite link_pass_json_decode.
  - intros [result Hbuild]. unfold build_issue_tree_json in Hbuild.
    destruct Hout as [[Hread _]|(x & e & _ & _ & _ & Hraise)]; [done|].
    by rewrite Hraise in Hbuild.
  - intros Hread. unfold build_issue_tree_json.
    destruct Hout as [[_ [cm ->]]|(x & e & Hx & Ht & Hf & _)]; [simpl; eauto|].
    by apply links_readable_no_fault in Hf; [|apply Hread].
  - intros e Hbuild. unfold build_issue_tree_json in Hbuild.
    destruct Hout as [[_ [cm Hok]]|(x & e' & Hx & Ht & Hf & Hraise)].
    + by rewrite Hok in Hbuild.
    + rewrite Hraise in Hbuild. simpl in Hbuild. injection Hbuild as <-. by exists x.
  - intros x [Hraise|(v & Hv & [Hiter|(links & link & Hiter & Hin & Hf)])].
    + unfold get_issue_links_json, raise_for_status, json in Hraise.
      destruct (status_code _ =? 404); [done|].
      destruct (_ && _); simpl in Hraise; [done|].
      by destruct (body _).
    + by destruct v.
    + exists v, links. destruct link as [| | | |?|d]; try done. exists d.
      split; [done|]. split; [done|]. split; [done|]. unfold link_fault in Hf.
      destruct (eq_str (dict_get d "link_type") "blocks"); [|done].
      split; [done|]. by destruct (dict_get d "iid") as [[| | | | |]|].
Qed.

Lemma build_issue_tree_outcome_witness :
  build_issue_tree_json 7 self_link_links_json self_link_issues
  = build_issue_tree 7 (decoded self_link_links_json) self_link_issues
  ∧ ∃ x, x ∈ self_link_issues ∧ is_issue_type x = true
         ∧ links_fault links_without_iid 7 x KeyError.
Proof.
  split.
  - destruct (build_issue_tree_outcome 7 self_link_links_json self_link_issues)
      as (Hdecode & _).
    apply Hdecode. intros x v Hx _. unfold self_link_issues in Hx.
    repeat (apply elem_of_cons in Hx as [->|Hx]); [..|by apply elem_of_nil in Hx];
      vm_compute; intros [= <-]; eauto.
  - destruct (build_issue_tree_outcome 7 links_without_iid self_link_issues)
      as (_ & _ & Hraise & _).
    apply Hraise. vm_compute. reflexivity.
Defined.

(** X2.  The links of tasks are never requested: the result depends on the
    tracker's answers for the non-task issues of the input only. *)
Theorem build_issue_tree_asks_non_tasks (PROJECT_ID : Z)
    (endpoint1 endpoint2 : Z → Z → Response (list Link)) (issues : list Issue) :
  (∀ x, x ∈ issues → is_issue_type x = true →
        endpoint1 PROJECT_ID (issue_iid x) = endpoint2 PROJECT_ID (issue_iid x)) →
  build_issue_tree PROJECT_ID endpoint1 issues
  = build_issue_tree PROJECT_ID endpoint2 issues.
Proof.
  intros Hsame. unfold build_issue_tree.
  enough (∀ ibi i2i cm,
             link_pass PROJECT_ID endpoint1 ibi i2i issues cm
             = link_pass PROJECT_ID endpoint2 ibi i2i issues cm) as -> by done.
  intros ibi i2i. induction issues as [|x issues IH]; intros cm; simpl; [done|].
  case_decide as Ht.
  - unfold get_issue_links. rewrite (Hsame x); [|constructor|by apply bool_decide_eq_true].
    destruct (if status_code _ =? 404 then _ else _) as [links|e]; simpl; [|done].
    destruct (link_loop ibi i2i x links cm); simpl; [|done].
    apply IH. intros y Hy. apply Hsame. by constructor.
  - apply IH. intros y Hy. apply Hsame. by constructor.
Qed.

Lemma build_issue_tree_asks_non_tasks_witness :
  build_issue_tree 7 story_links task_issues
  = build_issue_tree 7 story_links_failing_on_tasks task_issues.
Proof.
  apply (build_issue_tree_asks_non_tasks 7 story_links story_links_failing_on_tasks).
  intros x Hx Ht. unfold task_issues in Hx.
  repeat (apply elem_of_cons in Hx as [->|Hx]); [done|done|by apply elem_of_nil in Hx].
Defined.

Lemma filter_sublist {A} (f : A → bool) (l : list A) : sublist (List.filter f l) l.
Proof.
  induction l as [|x l IH]; simpl; [constructor|].
  destruct (f x); by constructor.
Qed.

(** X3.  The root set is a subsequence of the input: the roots come in
    input order, and an input without repeated issues gives a root set
    without repeated issues. *)
Theorem root_issues_subsequence (PROJECT_ID : Z)
    (links_endpoint : Z → Z → Response (list Link)) (issues : list Issue) ibi cm roots :
  build_issue_tree PROJECT_ID links_endpoint issues = Ok (ibi, cm, roots) →
  sublist roots issues ∧ (NoDup issues → NoDup roots).
Proof.
  intros (_ & _ & ->)%build_issue_tree_Ok.
  split; [apply filter_sublist|].
  intros Hnodup. eapply sublist_NoDup; [done|]. apply filter_sublist.
Qed.

Lemma root_issues_subsequence_witness :
  ∃ ibi cm roots,
    build_issue_tree 7 self_link_links self_link_issues = Ok (ibi, cm, roots)
    ∧ sublist roots self_link_issues ∧ (NoDup self_link_issues → NoDup roots).
Proof.
  eexists _, _, _. split; [vm_compute; reflexivity|].
  eapply (root_issues_subsequence 7 self_link_links self_link_issues).
  vm_compute. reflexivity.
Defined.

Lemma populated_setdefault_append k x cm :
  populated cm → populated (setdefault_append k x cm).
Proof.
  intros Hcm p sib. unfold setdefault_append.
  destruct (decide (k = p)) as [->|Hne].
  - rewrite lookup_insert_eq. intros [= <-]. by destruct (default [] (cm !! p)).
  - rewrite lookup_insert_ne by done. apply Hcm.
Qed.

Lemma populated_parent_pass ibi issues cm :
  populated cm → populated (parent_pass ibi issues cm).
Proof.
  unfold parent_pass. revert cm. induction issues as [|x issues IH]; intros cm Hcm; [done|].
  simpl. apply IH. destruct (resolvable_parent ibi x); [|done].
  by apply populated_setdefault_append.
Qed.

Lemma populated_link_loop ibi i2i src links cm cm' :
  populated cm → link_loop ibi i2i src links cm = Ok cm' → populated cm'.
Proof.
  revert cm. induction links as [|link links IH]; intros cm Hcm; simpl.
  - by intros [= <-].
  - destruct (link_step ibi i2i src cm link) as [cm1|e] eqn:Hstep; [|done]. simpl.
    apply IH. unfold link_step in Hstep.
    repeat (case_decide || case_match); simplify_eq; try done.
    by apply populated_setdefault_append.
Qed.

Lemma populated_link_pass P ep ibi i2i issues cm cm' :
  populated cm → link_pass P ep ibi i2i issues cm = Ok cm' → populated cm'.
Proof.
  revert cm. induction issues as [|x issues IH]; intros cm Hcm; simpl.
  - by intros [= <-].
  - case_decide; [|by apply IH].
    destruct (get_issue_links ep P (issue_iid x)) as [links|e]; [|done]. simpl.
    destruct (link_loop ibi i2i x links cm) as [cm1|e] eqn:Hloop; [|done]. simpl.
    apply IH. by eapply populated_link_loop.
Qed.

(** X4.  Every entry of the children map is the entry of the id of an
    input issue, holds at least one child, and holds input issues only. *)
Theorem children_map_well_formed (PROJECT_ID : Z)
    (links_endpoint : Z → Z → Response (list Link)) (issues : list Issue) ibi cm roots :
  build_issue_tree PROJECT_ID links_endpoint issues = Ok (ibi, cm, roots) →
  ∀ p siblings, cm !! p = Some siblings →
    siblings ≠ []
    ∧ (∃ parent, parent ∈ issues ∧ issue_id parent = p)
    ∧ (∀ x, x ∈ siblings → x ∈ issues).
Proof.
  intros Hbuild p siblings Hp.
  assert (populated cm) as Hpop.
  { unfold build_issue_tree in Hbuild.
    destruct (link_pass _ _ _ _ _ _) as [cm1|e] eqn:Hpass; [|done].
    simpl in Hbuild. injection Hbuild as _ <- _.
    eapply populated_link_pass; [|done]. apply populated_parent_pass.
    intros q sib. by rewrite lookup_empty. }
  apply build_issue_tree_Ok in Hbuild as (-> & Hentry & _).
  assert (∀ x, x ∈ siblings →
            x ∈ issues ∧ ∃ parent, parent ∈ issues ∧ issue_id parent = p) as Hchild.
  { intros x Hx.
    assert (x ∈ entry cm p) as Hx' by (unfold entry; by rewrite Hp).
    rewrite Hentry in Hx'. apply elem_of_app in Hx' as [Hx'|Hx'].
    - apply elem_of_parent_children in Hx' as [Hin Hpar]. split; [done|].
      apply index_by_id_is_Some. unfold resolvable_parent in Hpar.
      repeat case_match; simplify_eq; done.
    - apply elem_of_link_children in Hx' as (src & link & Hsrc & Hid & _ & _ & Hb).
      apply blocks_target_Some in Hb as [Hin _]. split; [done|]. by exists src. }
  split; [by eapply Hpop|]. split; [|intros x Hx; by apply Hchild].
  destruct siblings as [|x siblings]; [by apply Hpop in Hp|].
  apply (Hchild x). constructor.
Qed.

Lemma children_map_well_formed_witness :
  ∃ ibi cm roots,
    build_issue_tree 7 self_link_links self_link_issues = Ok (ibi, cm, roots)
    ∧ ∀ p siblings, cm !! p = Some siblings →
        siblings ≠ []
        ∧ (∃ parent, parent ∈ self_link_issues ∧ issue_id parent = p)
        ∧ (∀ x, x ∈ siblings → x ∈ self_link_issues).
Proof.
  eexists _, _, _. split; [vm_compute; reflexivity|].
  eapply (children_map_well_formed 7 self_link_links self_link_issues).
  vm_compute. reflexivity.
Defined.

Lemma index_by_id_foldl_absent issues (d : gmap Z Issue) k :
  (∀ y, y ∈ issues → issue_id y ≠ k) →
  foldl (λ d issue, <[issue_id issue := issue]> d) d issues !! k = d !! k.
Proof.
  revert d. induction issues as [|y issues IH]; intros d Habs; simpl; [done|].
  rewrite IH by (intros z Hz; apply Habs; by constructor).
  apply lookup_insert_ne, Habs. constructor.
Qed.

Lemma index_iid_to_id_foldl_absent issues (d : gmap Z Z) k :
  (∀ y, y ∈ issues → issue_iid y ≠ k) →
  foldl (λ d issue, <[issue_iid issue := issue_id issue]> d) d issues !! k = d !! k.
Proof.
  revert d. induction issues as [|y issues IH]; intros d Habs; simpl; [done|].
  rewrite IH by (intros z Hz; apply Habs; by constructor).
  apply lookup_insert_ne, Habs. constructor.
Qed.

Lemma NoDup_fmap_split {A} (f : Issue → A) issues x :
  x ∈ issues → NoDup (f <$> issues) →
  ∃ before after, issues = before ++ x :: after ∧ ∀ y, y ∈ after → f y ≠ f x.
Proof.
  intros (before & after & ->)%list_elem_of_split Hnodup.
  exists before, after. split; [done|]. intros y Hy Heq.
  rewrite fmap_app, fmap_cons in Hnodup.
  apply NoDup_app in Hnodup as (_ & _ & Hnodup).
  apply NoDup_cons in Hnodup as [Hnotin _].
  apply Hnotin. rewrite <- Heq. by apply list_elem_of_fmap_2.
Qed.

(** X5.  The two indexes keep the last issue of the input for each key;
    when the ids (the display ids) of the input are distinct, every input
    issue is found again under its id (display id), and an id is absent from
    the index exactly when no input issue has it. *)
Theorem issue_indexes (issues : list Issue) :
  (∀ before x after,
      issues = before ++ x :: after →
      (∀ y, y ∈ after → issue_id y ≠ issue_id x) →
      index_by_id issues !! issue_id x = Some x)
  ∧ (∀ before x after,
      issues = before ++ x :: after →
      (∀ y, y ∈ after → issue_iid y ≠ issue_iid x) →
      index_iid_to_id issues !! issue_iid x = Some (issue_id x))
  ∧ (∀ x, NoDup (issue_id <$> issues) → x ∈ issues →
          index_by_id issues !! issue_id x = Some x)
  ∧ (∀ x, NoDup (issue_iid <$> issues) → x ∈ issues →
          index_iid_to_id issues !! issue_iid x = Some (issue_id x))
  ∧ (∀ k, index_by_id issues !! k = None ↔ ∀ y, y ∈ issues → issue_id y ≠ k).
Proof.
  assert (∀ before x after,
      issues = before ++ x :: after →
      (∀ y, y ∈ after → issue_id y ≠ issue_id x) →
      index_by_id issues !! issue_id x = Some x) as Hid.
  { intros before x after -> Habs. unfold index_by_id.
    rewrite foldl_app. simpl. rewrite index_by_id_foldl_absent by done.
    apply lookup_insert_eq. }
  assert (∀ before x after,
      issues = before ++ x :: after →
      (∀ y, y ∈ after → issue_iid y ≠ issue_iid x) →
      index_iid_to_id issues !! issue_iid x = Some (issue_id x)) as Hiid.
  { intros before x after -> Habs. unfold index_iid_to_id.
    rewrite foldl_app. simpl. rewrite index_iid_to_id_foldl_absent by done.
    apply lookup_insert_eq. }
  split; [done|]. split; [done|]. split; [|split].
  - intros x Hnodup Hx.
    destruct (NoDup_fmap_split issue_id issues x Hx Hnodup) as (before & after & Heq & Habs).
    by eapply Hid.
  - intros x Hnodup Hx.
    destruct (NoDup_fmap_split issue_iid issues x Hx Hnodup) as (before & after & Heq & Habs).
    by eapply Hiid.
  - intros k. rewrite eq_None_not_Some, index_by_id_is_Some. split.
    + intros Hno y Hy Hk. apply Hno. by exists y.
    + intros Hno (y & Hy & Hk). by apply (Hno y).
Qed.

Lemma issue_indexes_witness :
  index_by_id self_link_issues !! 3 = Some (sample_issue 3 13 (Some 1) "child")
  ∧ index_iid_to_id self_link_issues !! 13 = Some 3.
Proof.
  destruct (issue_indexes self_link_issues) as (_ & _ & Hid & Hiid & _).
  split.
  - apply (Hid (sample_issue 3 13 (Some 1) "child")).
    + by_evaluation.
    + by_evaluation.
  - apply (Hiid (sample_issue 3 13 (Some 1) "child")).
    + by_evaluation.
    + by_evaluation.
Defined.

Lemma parent_pass_no_parent ibi issues cm :
  (∀ x, x ∈ issues → issue_parent x = None) → parent_pass ibi issues cm = cm.
Proof.
  unfold parent_pass. revert cm. induction issues as [|x issues IH]; intros cm Hno; [done|].
  simpl. unfold resolvable_parent at 2. rewrite (Hno x) by constructor.
  apply IH. intros y Hy. apply Hno. by constructor.
Qed.

Lemma link_loop_no_blocks ibi i2i src links cm :
  (∀ link, link ∈ links → link_type link ≠ Some "blocks") →
  link_loop ibi i2i src links cm = Ok cm.
Proof.
  induction links as [|link links IH]; intros Hno; [done|]. simpl.
  unfold link_step. rewrite decide_False by (apply Hno; constructor). simpl.
  apply IH. intros l Hl. apply Hno. by constructor.
Qed.

Lemma root_pass_empty ibi issues :
  (∀ x, x ∈ issues → issue_parent x = None) → root_pass ibi ∅ issues = issues.
Proof.
  intros Hno. rewrite root_pass_filter.
  induction issues as [|x issues IH]; [done|]. simpl.
  assert (is_child ibi ∅ x = false) as ->.
  { unfold is_child, in_some_entry, resolvable_parent. rewrite (Hno x) by constructor.
    by rewrite map_to_list_empty. }
  simpl. f_equal. apply IH. intros y Hy. apply Hno. by constructor.
Qed.

(** X6.  Only parent references and [blocks] links make children: when no
    issue carries a parent reference and no non-task issue has a [blocks]
    link, the children map is empty and every input issue is a root, in
    input order. *)
Theorem unrelated_issues_are_roots (PROJECT_ID : Z)
    (links_endpoint : Z → Z → Response (list Link)) (issues : list Issue) :
  (∀ x, x ∈ issues → issue_parent x = None) →
  (∀ x, x ∈ issues → is_issue_type x = true →
        ∃ links, get_issue_links links_endpoint PROJECT_ID (issue_iid x) = Ok links
                 ∧ ∀ link, link ∈ links → link_type link ≠ Some "blocks") →
  build_issue_tree PROJECT_ID links_endpoint issues
  = Ok (index_by_id issues, ∅, issues).
Proof.
  intros Hparent Hlinks. unfold build_issue_tree.
  rewrite parent_pass_no_parent by done.
  assert (link_pass PROJECT_ID links_endpoint (index_by_id issues)
            (index_iid_to_id issues) issues ∅ = Ok ∅) as ->.
  { generalize (index_by_id issues) (index_iid_to_id issues). intros ibi i2i.
    clear Hparent. induction issues as [|x issues IH]; [done|]. simpl.
    assert (∀ y, y ∈ issues → is_issue_type y = true →
              ∃ links, get_issue_links links_endpoint PROJECT_ID (issue_iid y) = Ok links
                       ∧ ∀ link, link ∈ links → link_type link ≠ Some "blocks") as Hrest.
    { intros y Hy. apply Hlinks. by constructor. }
    case_decide as Ht; [|by apply IH].
    destruct (Hlinks x) as (links & -> & Hno);
      [constructor|by apply bool_decide_eq_true|]. simpl.
    rewrite link_loop_no_blocks by done. simpl. by apply IH. }
  simpl. by rewrite root_pass_empty.
Qed.

Lemma unrelated_issues_are_roots_witness :
  build_issue_tree 7 related_only_links mutual_block_issues
  = Ok (index_by_id mutual_block_issues, ∅, mutual_block_issues).
Proof.
  apply (unrelated_issues_are_roots 7 related_only_links mutual_block_issues).
  - intros x Hx. unfold mutual_block_issues in Hx.
    repeat (apply elem_of_cons in Hx as [->|Hx]); [done..|by apply elem_of_nil in Hx].
  - intros x Hx _. unfold mutual_block_issues in Hx.
    repeat (apply elem_of_cons in Hx as [->|Hx]); [..|by apply elem_of_nil in Hx];
      (eexists; split; [vm_compute; reflexivity|]);
      intros link Hl; repeat (apply elem_of_cons in Hl as [->|Hl]);
      try done; by apply elem_of_nil in Hl.
Defined.

(** ** The checklist parser: invariants, round trip, composition *)

Lemma parse_tasks_omap description :
  parse_tasks_from_description (Some description)
  = omap checkbox (splitlines description).
Proof.
  assert (parse_tasks_from_description (Some description)
          = omap (λ line,
              (λ groups : string * string, (bool_decide (groups.1 = "x"), groups.2))
                <$> re_match (strip line)) (splitlines description)) as ->.
  { destruct description; [done|]. apply (parse_loop_omap _ []). }
  apply omap_agree. eapply Forall_impl; [apply splitlines_no_LF|].
  intros line Hline. by apply parse_line_checkbox.
Qed.

Lemma checkbox_Some line checked text :
  checkbox line = Some (checked, text) →
  strip line = format_task (checked, text) ∧ text ≠ EmptyString.
Proof.
  unfold checkbox.
  destruct (chop "- [x] " (strip line)) as [t|] eqn:Hx.
  - apply chop_Some in Hx. case_decide as Ht; [done|].
    intros Heq. injection Heq as <- <-. done.
  - destruct (chop "- [ ] " (strip line)) as [t|] eqn:Hsp; [|done].
    apply chop_Some in Hsp. case_decide as Ht; [done|].
    intros Heq. injection Heq as <- <-. done.
Qed.

Lemma splitlines_nil s : splitlines s = [] → s = EmptyString.
Proof.
  destruct s as [|c s]; [done|]. simpl.
  destruct (is_line_boundary c); [done|]. by destruct (splitlines s).
Qed.

(** No line of [splitlines] keeps a line boundary. *)
Lemma splitlines_no_boundary s :
  Forall (λ line, forallb_string (λ c, negb (is_line_boundary c)) line = true)
    (splitlines s).
Proof.
  assert (∀ n s, (String.length s ≤ n)%nat →
            Forall (λ line, forallb_string (λ c, negb (is_line_boundary c)) line = true)
              (splitlines s)) as H; [|by apply (H (String.length s))].
  clear s. induction n as [|n IH]; intros s Hn.
  - destruct s; [constructor|simpl in Hn; lia].
  - destruct s as [|c s]; [constructor|]. simpl in Hn. simpl.
    destruct (is_line_boundary c) eqn:Hc.
    + constructor; [done|]. destruct s as [|c' s]; [constructor|].
      case_decide; apply IH; simpl in *; lia.
    + assert (Forall (λ line, forallb_string (λ c, negb (is_line_boundary c)) line = true)
                (splitlines s)) as Hs by (apply IH; lia).
      destruct (splitlines s) as [|line lines].
      * constructor; [|constructor]. simpl. by rewrite Hc.
      * apply Forall_cons in Hs as [Hline Hlines].
        constructor; [|done]. simpl. by rewrite Hc, Hline.
Qed.

Lemma forallb_string_app P s t :
  forallb_string P (s +:+ t) = forallb_string P s && forallb_string P t.
Proof.
  induction s as [|c s IH]; [done|].
  rewrite append_String. simpl. by rewrite IH, andb_assoc.
Qed.

Lemma rstrip_app s t :
  rstrip (s +:+ t)
  = if decide (rstrip t = EmptyString) then rstrip s else s +:+ rstrip t.
Proof.
  induction s as [|c s IH].
  - rewrite !append_empty. by case_decide.
  - rewrite append_String. simpl. rewrite IH. case_decide as Ht; [done|].
    rewrite append_String.
    destruct (s +:+ rstrip t) as [|c' s'] eqn:Hs; [|done].
    destruct s; [|by rewrite append_String in Hs].
    by rewrite append_empty in Hs.
Qed.

Lemma rstrip_idemp s : rstrip (rstrip s) = rstrip s.
Proof.
  induction s as [|c s IH]; [done|]. simpl.
  destruct (rstrip s) as [|c' s'] eqn:Hs.
  - destruct (isspace c) eqn:Hc; [done|]. simpl. by rewrite Hc.
  - simpl. simpl in IH. by rewrite IH.
Qed.

Lemma append_inj_l (p s t : string) : p +:+ s = p +:+ t → s = t.
Proof.
  induction p as [|c p IH]; [by rewrite !append_empty|].
  rewrite !append_String. intros [= H]. by apply IH.
Qed.

Lemma length_append (s t : string) :
  String.length (s +:+ t) = (String.length s + String.length t)%nat.
Proof.
  induction s as [|c s IH]; [done|]. rewrite append_String. simpl. by rewrite IH.
Qed.

Lemma rstrip_fixed_suffix p t :
  rstrip (p +:+ t) = p +:+ t → t ≠ EmptyString → rstrip t = t.
Proof.
  rewrite rstrip_app. case_decide as Ht.
  - intros Hp Hne. destruct (rstrip_prefix p) as [q Hq].
    rewrite Hp in Hq. apply (f_equal String.length) in Hq.
    rewrite !length_append in Hq.
    destruct t; [done|]. simpl in Hq. lia.
  - intros H _. by apply append_inj_l in H.
Qed.

(** X8.  Every text the parser returns is not empty, has no whitespace at
    its end and no line boundary inside. *)
Theorem parsed_texts_are_plain (description : option string) checked text :
  (checked, text) ∈ parse_tasks_from_description description → plain_text text.
Proof.
  destruct description as [description|]; [|by intros ?%elem_of_nil].
  rewrite parse_tasks_omap.
  intros (line & Hline & Hbox)%list_elem_of_omap.
  apply checkbox_Some in Hbox as [Hstrip Hne].
  pose proof (splitlines_no_boundary description) as Hfree.
  rewrite Forall_forall in Hfree. specialize (Hfree line Hline).
  assert (rstrip (strip line) = strip line) as Hfix by apply rstrip_idemp.
  unfold format_task in Hstrip. simpl in Hstrip.
  split; [done|]. split.
  - destruct (lstrip_suffix line) as [p Hp].
    destruct (rstrip_prefix (lstrip line)) as [q Hq].
    fold (strip line) in Hq. rewrite Hq, Hstrip in Hp. rewrite Hp in Hfree.
    rewrite !forallb_string_app in Hfree.
    apply andb_true_iff in Hfree as [_ Hfree].
    apply andb_true_iff in Hfree as [Hfree _].
    apply andb_true_iff in Hfree as [_ Hfree].
    apply andb_true_iff in Hfree as [_ Hfree].
    by apply andb_true_iff in Hfree as [_ Hfree].
  - rewrite Hstrip in Hfix.
    assert ("- [" +:+ (if checked then "x" else " ") +:+ "] " +:+ text
            = ("- [" +:+ (if checked then "x" else " ") +:+ "] ") +:+ text) as Hassoc.
    { by destruct checked. }
    rewrite Hassoc in Hfix. by eapply rstrip_fixed_suffix.
Qed.

Lemma parsed_texts_are_plain_witness : plain_text "done".
Proof.
  apply (parsed_texts_are_plain (Some sample_description) true "done").
  by_evaluation.
Defined.

Lemma splitlines_line_LF line rest :
  forallb_string (λ c, negb (is_line_boundary c)) line = true →
  splitlines (line +:+ String LF rest) = line :: splitlines rest.
Proof.
  induction line as [|c line IH]; intros Hfree.
  - rewrite append_empty. simpl.
    by destruct rest as [|c' rest'].
  - rewrite append_String. simpl in Hfree. apply andb_true_iff in Hfree as [Hc Hfree].
    apply negb_true_iff in Hc. simpl. rewrite Hc. by rewrite IH.
Qed.

Lemma splitlines_one_line line :
  forallb_string (λ c, negb (is_line_boundary c)) line = true →
  line ≠ EmptyString → splitlines line = [line].
Proof.
  induction line as [|c line IH]; intros Hfree Hne; [done|].
  simpl in Hfree. apply andb_true_iff in Hfree as [Hc Hfree].
  apply negb_true_iff in Hc. simpl. rewrite Hc.
  destruct line as [|c' line']; [done|]. by rewrite IH.
Qed.

Lemma splitlines_join_lines lines :
  Forall (λ line, forallb_string (λ c, negb (is_line_boundary c)) line = true
                  ∧ line ≠ EmptyString) lines →
  splitlines (join_lines lines) = lines.
Proof.
  induction 1 as [|line lines [Hfree Hne] Hlines IH]; [done|].
  destruct lines as [|line' lines'].
  - by apply splitlines_one_line.
  - change (join_lines (line :: line' :: lines'))
      with (line +:+ String LF (join_lines (line' :: lines'))).
    by rewrite splitlines_line_LF, IH.
Qed.

Lemma lstrip_no_space c s : isspace c = false → lstrip (String c s) = String c s.
Proof. intros Hc. simpl. by rewrite Hc. Qed.

Lemma checkbox_format_task checked text :
  plain_text text → checkbox (format_task (checked, text)) = Some (checked, text).
Proof.
  intros (Hne & _ & Hfix). unfold checkbox, format_task. simpl fst. simpl snd.
  assert (strip ("- [" +:+ (if checked then "x" else " ") +:+ "] " +:+ text)
          = "- [" +:+ (if checked then "x" else " ") +:+ "] " +:+ text) as ->.
  { unfold strip.
    assert ("- [" +:+ (if checked then "x" else " ") +:+ "] " +:+ text
            = ("- [" +:+ (if checked then "x" else " ") +:+ "] ") +:+ text) as ->
      by (by destruct checked).
    assert (lstrip (("- [" +:+ (if checked then "x" else " ") +:+ "] ") +:+ text)
            = ("- [" +:+ (if checked then "x" else " ") +:+ "] ") +:+ text) as ->
      by (by destruct checked).
    rewrite rstrip_app, Hfix. by rewrite decide_False. }
  destruct checked.
  - assert (chop "- [x] " ("- [" +:+ "x" +:+ "] " +:+ text) = Some text) as ->
      by (by apply chop_Some).
    by rewrite decide_False.
  - assert (chop "- [x] " ("- [" +:+ " " +:+ "] " +:+ text) = None) as -> by done.
    assert (chop "- [ ] " ("- [" +:+ " " +:+ "] " +:+ text) = Some text) as ->
      by (by apply chop_Some).
    by rewrite decide_False.
Qed.

Lemma rstrip_blank q : blank q → rstrip q = EmptyString.
Proof.
  unfold blank. induction q as [|c q IH]; [done|]. simpl.
  intros [Hc Hq]%andb_true_iff. by rewrite IH, Hc.
Qed.

Lemma lstrip_blank_app p s : blank p → lstrip (p +:+ s) = lstrip s.
Proof.
  unfold blank. induction p as [|c p IH]; [done|]. rewrite append_String. simpl.
  intros [Hc Hp]%andb_true_iff. rewrite Hc. by apply IH.
Qed.

Lemma lstrip_blank_prefix s : ∃ p, blank p ∧ s = p +:+ lstrip s.
Proof.
  induction s as [|c s (p & Hp & IH)]; simpl; [by exists EmptyString|].
  destruct (isspace c) eqn:Hc; [|by exists EmptyString].
  exists (String c p). split.
  - unfold blank. simpl. by rewrite Hc.
  - rewrite append_String. by rewrite <- IH.
Qed.

Lemma rstrip_blank_suffix s : ∃ q, blank q ∧ s = rstrip s +:+ q.
Proof.
  induction s as [|c s (q & Hq & IH)]; simpl; [by exists EmptyString|].
  destruct (rstrip s) as [|c' s'] eqn:Hs.
  - rewrite append_empty in IH. subst q. destruct (isspace c) eqn:Hc.
    + exists (String c s). split; [|done]. unfold blank. simpl. by rewrite Hc.
    + exists s. split; [done|]. by rewrite append_String, append_empty.
  - exists q. split; [done|]. rewrite append_String. by rewrite <- IH.
Qed.

Lemma rstrip_last_char text :
  rstrip text = text ∧ text ≠ EmptyString
  ↔ ∃ c, last_char text = Some c ∧ isspace c = false.
Proof.
  induction text as [|a rest IH]; [split; [by intros [_ ?]|by intros (c & ? & _)]|].
  destruct rest as [|b rest].
  - simpl. destruct (isspace a) eqn:Ha.
    + split; [by intros [? _]|]. intros (c & [= <-] & Hc). congruence.
    + split; [|done]. intros _. by exists a.
  - change (last_char (String a (String b rest))) with (last_char (String b rest)).
    rewrite <- IH.
    change (rstrip (String a (String b rest)))
      with (match rstrip (String b rest) with
            | EmptyString => if isspace a then EmptyString else String a EmptyString
            | rest' => String a rest'
            end).
    destruct (rstrip (String b rest)) as [|c' s'] eqn:Hs.
    + split; [|by intros [? _]]. intros [H _]. by destruct (isspace a).
    + split.
      * intros [H _]. by simplify_eq.
      * intros [H _]. by rewrite H.
Qed.

Lemma strip_padded before line after c rest :
  blank before → blank after → line = String c rest → isspace c = false →
  rstrip line = line →
  strip (before +:+ line +:+ after) = line.
Proof.
  intros Hb Ha Hline Hc Hfix. unfold strip. rewrite lstrip_blank_app by done.
  assert (lstrip (line +:+ after) = line +:+ after) as ->.
  { rewrite Hline, append_String. by apply lstrip_no_space. }
  rewrite rstrip_app, rstrip_blank by done. by rewrite decide_True.
Qed.

Lemma format_task_app task :
  format_task task = ("- [" +:+ (if task.1 then "x" else " ") +:+ "] ") +:+ task.2.
Proof. destruct task as [[] text]; reflexivity. Qed.

Lemma checkbox_checkbox_line line checked text :
  checkbox line = Some (checked, text) ↔ checkbox_line line checked text.
Proof.
  rewrite checkbox_strip.
  change ("- [" +:+ (if checked then "x" else " ") +:+ "] " +:+ text)
    with (format_task (checked, text)).
  split.
  - intros [Hstrip Hne].
    destruct (lstrip_blank_prefix line) as (before & Hbefore & Hp).
    destruct (rstrip_blank_suffix (lstrip line)) as (after & Hafter & Hq).
    fold (strip line) in Hq. exists before, after.
    split; [done|]. split; [done|]. split.
    + apply rstrip_last_char. split; [|done].
      pose proof (rstrip_idemp (lstrip line)) as Hfix. fold (strip line) in Hfix.
      rewrite Hstrip, format_task_app in Hfix. by eapply rstrip_fixed_suffix.
    + by rewrite <- Hstrip, <- Hq.
  - intros (before & after & Hbefore & Hafter & Hlast & ->).
    apply rstrip_last_char in Hlast as [Hfix Hne]. split; [|done].
    eapply strip_padded; [done|done| | |].
    + by destruct checked.
    + done.
    + rewrite format_task_app. cbn [fst snd].
      rewrite rstrip_app, Hfix. by rewrite decide_False.
Qed.

(** C6.  The parser returns one pair per checkbox line of the description,
    in order, and nothing for the other lines.  A checkbox line reads
    [- [x] text] or [- [ ] text] between two runs of whitespace, which are
    dropped, with a lower-case x only and a text that is not empty and ends
    in no whitespace.  An absent or empty description gives nothing, and
    ["- [x] done\n- [ ] todo\nnotes"] gives
    [(true, "done"), (false, "todo")], as does the same checklist with
    whitespace around its lines. *)
Theorem checklist_lines :
  (∀ description,
      parse_tasks_from_description (Some description)
      = omap checkbox (splitlines description))
  ∧ (∀ line checked text,
      checkbox line = Some (checked, text) ↔ checkbox_line line checked text)
  ∧ (∀ line checked text,
      checkbox line = Some (checked, text)
      ↔ strip line = "- [" +:+ (if checked then "x" else " ") +:+ "] " +:+ text
        ∧ text ≠ EmptyString)
  ∧ (∀ before after checked text,
      forallb_string (λ c, isspace c && negb (is_line_boundary c)) before = true →
      forallb_string (λ c, isspace c && negb (is_line_boundary c)) after = true →
      forallb_string (λ c, negb (is_line_boundary c)) text = true →
      (∃ c, last_char text = Some c ∧ isspace c = false) →
      parse_tasks_from_description
        (Some (before +:+ format_task (checked, text) +:+ after))
      = [(checked, text)])
  ∧ parse_tasks_from_description None = []
  ∧ parse_tasks_from_description (Some EmptyString) = []
  ∧ parse_tasks_from_description (Some sample_description)
    = [(true, "done"); (false, "todo")]
  ∧ parse_tasks_from_description (Some padded_description)
    = [(true, "done"); (false, "todo")].
Proof.
  split; [exact parse_tasks_omap|]. split; [exact checkbox_checkbox_line|].
  split; [exact checkbox_strip|].
  split; [|split; [done|split; [done|split; by vm_compute]]].
  intros before after checked text Hbefore Hafter Hfree Hlast.
  assert (∀ s, forallb_string (λ c, isspace c && negb (is_line_boundary c)) s = true →
               blank s ∧ forallb_string (λ c, negb (is_line_boundary c)) s = true)
    as Hsplit.
  { intros s. unfold blank. induction s as [|c s IH]; [done|]. simpl.
    intros [[Hc Hc']%andb_true_iff [Hs Hs']%IH]%andb_true_iff.
    by rewrite Hc, Hc', Hs, Hs'. }
  apply Hsplit in Hbefore as [Hbefore Hbefore'].
  apply Hsplit in Hafter as [Hafter Hafter'].
  rewrite parse_tasks_omap, splitlines_one_line.
  - change (omap checkbox [before +:+ format_task (checked, text) +:+ after])
      with (match checkbox (before +:+ format_task (checked, text) +:+ after) with
            | Some y => [y]
            | None => []
            end).
    assert (checkbox (before +:+ format_task (checked, text) +:+ after)
            = Some (checked, text)) as ->; [|done].
    apply checkbox_checkbox_line. by exists before, after.
  - rewrite !forallb_string_app, Hbefore', Hafter', format_task_app, forallb_string_app.
    simpl snd. rewrite Hfree. by destruct checked.
  - intros Heq. apply (f_equal String.length) in Heq.
    rewrite !length_append, format_task_app, length_append in Heq.
    destruct checked; simpl in Heq; lia.
Qed.

Lemma checklist_lines_witness :
  parse_tasks_from_description
    (Some ("  " +:+ format_task (true, "done") +:+ String " " (String TAB EmptyString)))
  = [(true, "done")].
Proof.
  destruct checklist_lines as (_ & _ & _ & Hpadded & _).
  apply Hpadded; [by vm_compute|by vm_compute|by vm_compute|].
  by exists "e"%char.
Defined.

(** X9.  Round trip: a checklist written one item per line, as [- [x] text]
    or [- [ ] text] with texts that are not empty, hold no line boundary and
    end in no whitespace, parses back to the same items in the same order. *)
Theorem format_then_parse (tasks : list (bool * string)) :
  Forall (λ task, plain_text task.2) tasks →
  parse_tasks_from_description (Some (join_lines (format_task <$> tasks))) = tasks.
Proof.
  intros Hplain. rewrite parse_tasks_omap, splitlines_join_lines.
  - induction Hplain as [|[checked text] tasks Htext _ IH]; [done|].
    rewrite fmap_cons.
    change (omap checkbox (format_task (checked, text) :: (format_task <$> tasks)))
      with (match checkbox (format_task (checked, text)) with
            | Some y => y :: omap checkbox (format_task <$> tasks)
            | None => omap checkbox (format_task <$> tasks)
            end).
    by rewrite checkbox_format_task, IH.
  - apply Forall_fmap. eapply Forall_impl; [done|].
    intros [checked text] (Hne & Hfree & _). simpl in *. unfold format_task. simpl.
    split; [|by destruct checked].
    rewrite !forallb_string_app, Hfree. by destruct checked.
Qed.

Lemma format_then_parse_witness :
  parse_tasks_from_description
    (Some (join_lines (format_task <$> [(true, "write  report"); (false, " call Bob")])))
  = [(true, "write  report"); (false, " call Bob")].
Proof.
  apply (format_then_parse [(true, "write  report"); (false, " call Bob")]).
  repeat constructor; simpl; try done; by_evaluation.
Defined.

Lemma glue_app c lines more :
  lines ≠ [] → glue c (lines ++ more) = glue c lines ++ more.
Proof. by destruct lines. Qed.

Lemma splitlines_plain c s :
  is_line_boundary c = false → splitlines (String c s) = glue c (splitlines s).
Proof. intros Hc. simpl. by rewrite Hc. Qed.

Lemma splitlines_boundary c s :
  is_line_boundary c = true →
  splitlines (String c s)
  = EmptyString ::
      match s with
      | String c' s' => if decide (c = CR ∧ c' = LF) then splitlines s' else splitlines s
      | EmptyString => []
      end.
Proof. intros Hc. simpl. by rewrite Hc. Qed.

Lemma splitlines_LF s : splitlines (String LF s) = EmptyString :: splitlines s.
Proof. by destruct s. Qed.

Lemma splitlines_not_nil c s : splitlines (String c s) ≠ [].
Proof. by intros ?%splitlines_nil. Qed.

Lemma splitlines_append_LF a b :
  splitlines (a +:+ String LF b)
  = splitlines (a +:+ String LF EmptyString) ++ splitlines b.
Proof.
  assert (∀ n a, (String.length a ≤ n)%nat →
            splitlines (a +:+ String LF b)
            = splitlines (a +:+ String LF EmptyString) ++ splitlines b) as H;
    [|by apply (H (String.length a))].
  clear a. induction n as [|n IH]; intros a Hn.
  { destruct a; [|simpl in Hn; lia]. rewrite !append_empty. by rewrite !splitlines_LF. }
  destruct a as [|c a].
  { rewrite !append_empty. by rewrite !splitlines_LF. }
  simpl in Hn. rewrite !append_String.
  destruct (is_line_boundary c) eqn:Hc.
  - rewrite !splitlines_boundary by done.
    destruct a as [|c' a].
    + rewrite !append_empty. case_decide; [done|]. by rewrite !splitlines_LF.
    + rewrite !append_String. cbv beta match. rewrite <- app_comm_cons. f_equal.
      simpl in Hn. case_decide; [apply IH; lia|].
      rewrite <- !append_String. apply IH. simpl. lia.
  - rewrite !splitlines_plain by done. rewrite IH by lia.
    apply glue_app. destruct a; rewrite ?append_empty, ?append_String;
      apply splitlines_not_nil.
Qed.

Lemma splitlines_final_LF a :
  splitlines (a +:+ String LF EmptyString) = splitlines a
  ∨ splitlines (a +:+ String LF EmptyString) = splitlines a ++ [EmptyString].
Proof.
  assert (∀ n a, (String.length a ≤ n)%nat →
            splitlines (a +:+ String LF EmptyString) = splitlines a
            ∨ splitlines (a +:+ String LF EmptyString) = splitlines a ++ [EmptyString])
    as H; [|by apply (H (String.length a))].
  clear a. induction n as [|n IH]; intros a Hn.
  { destruct a; [|simpl in Hn; lia]. by right. }
  destruct a as [|c a]; [by right|].
  simpl in Hn. rewrite !append_String.
  destruct (is_line_boundary c) eqn:Hc.
  - rewrite !splitlines_boundary by done.
    destruct a as [|c' a].
    + rewrite !append_empty. case_decide; [by left|by right].
    + rewrite !append_String. cbv beta match. simpl in Hn. case_decide.
      * destruct (IH a) as [-> | ->]; [lia|by left|by right].
      * rewrite <- !append_String.
        destruct (IH (String c' a)) as [-> | ->]; [simpl; lia|by left|by right].
  - rewrite !splitlines_plain by done.
    destruct a as [|c' a].
    + rewrite append_empty. by left.
    + destruct (IH (String c' a)) as [-> | ->]; [simpl in *; lia|by left|].
      right. apply glue_app, splitlines_not_nil.
Qed.

(** X10.  Composition: the checklist of two descriptions joined by a line
    feed is the checklist of the first followed by that of the second. *)
Theorem parse_tasks_append (a b : string) :
  parse_tasks_from_description (Some (a +:+ String LF b))
  = parse_tasks_from_description (Some a) ++ parse_tasks_from_description (Some b).
Proof.
  rewrite !parse_tasks_omap, splitlines_append_LF, omap_app. f_equal.
  destruct (splitlines_final_LF a) as [-> | ->]; [done|].
  rewrite omap_app. apply app_nil_r.
Qed.

(** ** The hierarchy walker: requests, loop, failures *)

Lemma raise_for_status_error {A} (response : Response A) :
  400 ≤ status_code response < 600 →
  raise_for_status response = Raise (HTTPError (status_code response)).
Proof.
  intros Hs. unfold raise_for_status.
  destruct (Z.leb_spec 400 (status_code response)); [|lia].
  destruct (Z.ltb_spec (status_code response) 600); [|lia]. done.
Qed.

Lemma raise_for_status_fine {A} (response : Response A) :
  ¬ 400 ≤ status_code response < 600 → raise_for_status response = Ok tt.
Proof.
  intros Hs. unfold raise_for_status.
  destruct (Z.leb_spec 400 (status_code response)); [|done].
  destruct (Z.ltb_spec (status_code response) 600); [lia|done].
Qed.

(** X11.  [fetch_workitem_hierarchy] sends exactly one request, with the
    id and page size it was given and an empty cursor, whatever the answer,
    and touches neither the console nor any list.  It raises on every
    client or server error status, 404 included, and on a body that does not
    decode; otherwise it returns [data["data"]["workItem"]]. *)
Theorem fetch_workitem_hierarchy_request
    (graphql_endpoint : Request → Response JSON) (gid : string) (page_size : Z)
    (σ : World) :
  let response := graphql_endpoint (mkRequest gid page_size "") in
  let '(result, σ') := fetch_workitem_hierarchy graphql_endpoint gid page_size σ in
  σ' = mkWorld (heap σ) (stdout σ) (requests σ ++ [mkRequest gid page_size ""])
  ∧ (400 ≤ status_code response < 600 →
     result = Raise (HTTPError (status_code response)))
  ∧ (¬ 400 ≤ status_code response < 600 → body response = None →
     result = Raise JSONDecodeError)
  ∧ (∀ data, ¬ 400 ≤ status_code response < 600 → body response = Some data →
     result = (data ← subscript data "data"; subscript data "workItem")).
Proof.
  intros response.
  unfold fetch_workitem_hierarchy, post, mbind at 1 2 3 4, M_bind, lift. fold response.
  destruct (decide (400 ≤ status_code response < 600)) as [Hs|Hs].
  - rewrite raise_for_status_error by done. split; [done|]. split; [done|].
    split; intros; done.
  - rewrite raise_for_status_fine by done. unfold json.
    destruct (body response) as [data|] eqn:Hbody.
    + assert (∀ r : Result JSON,
                (400 ≤ status_code response < 600 → r = Raise (HTTPError (status_code response)))
                ∧ (¬ 400 ≤ status_code response < 600 → Some data = None →
                   r = Raise JSONDecodeError)) as Hrest.
      { intros r. split; [intros; done|intros _ [=]]. }
      destruct (subscript data "data") as [d|e] eqn:Hd; simpl.
      * split; [done|]. split; [apply Hrest|]. split; [apply Hrest|].
        intros data' _ Heq. injection Heq as <-. by rewrite Hd.
      * split; [done|]. split; [apply Hrest|]. split; [apply Hrest|].
        intros data' _ Heq. injection Heq as <-. by rewrite Hd.
    + split; [done|]. split; [intros; done|]. split; [done|]. intros data' _ [=].
Qed.

Lemma fetch_workitem_hierarchy_request_witness :
  fetch_workitem_hierarchy one_item_tracker "gid://gitlab/WorkItem/9" 100 (mkWorld ∅ [] [])
  = (Raise (HTTPError 503),
     mkWorld ∅ [] [mkRequest "gid://gitlab/WorkItem/9" 100 ""]).
Proof.
  pose proof (fetch_workitem_hierarchy_request one_item_tracker
                "gid://gitlab/WorkItem/9" 100 (mkWorld ∅ [] [])) as H.
  cbv zeta in H.
  destruct (fetch_workitem_hierarchy _ _ _ _) as [result σ'].
  destruct H as (-> & Herror & _). rewrite Herror; [done|].
  change (400 ≤ 503 < 600). lia.
Defined.

(** ** The other REST fetchers *)

(** X7.  [get_issue_tasks] returns the empty list on 404 without reading
    the body, and otherwise returns exactly the decoded body of an answer
    whose status is no client or server error.  [get_assigned_issues] and
    [get_my_todos] have no such tolerance: every client or server error
    status raises, 404 included. *)
Theorem rest_fetchers_status {A : Type}
    (tasks_endpoint : Z → Z → Response (list A))
    (issues_endpoint : Z → string → Response (list Issue))
    (todos_endpoint : Response (list A)) :
  (∀ project_id issue_iid tasks,
      get_issue_tasks tasks_endpoint project_id issue_iid = Ok tasks
      ↔ (status_code (tasks_endpoint project_id issue_iid) = 404 ∧ tasks = [])
        ∨ (¬ 400 ≤ status_code (tasks_endpoint project_id issue_iid) < 600
           ∧ body (tasks_endpoint project_id issue_iid) = Some tasks))
  ∧ (∀ project_id assignee_id,
      400 ≤ status_code (issues_endpoint project_id assignee_id) < 600 →
      get_assigned_issues issues_endpoint project_id assignee_id
      = Raise (HTTPError (status_code (issues_endpoint project_id assignee_id))))
  ∧ (400 ≤ status_code todos_endpoint < 600 →
      get_my_todos todos_endpoint = Raise (HTTPError (status_code todos_endpoint))).
Proof.
  split; [|split].
  - intros project_id issue_iid tasks. unfold get_issue_tasks.
    set (response := tasks_endpoint project_id issue_iid).
    destruct (Z.eqb_spec (status_code response) 404) as [H404|H404].
    + split; [intros [= <-]; by left|].
      intros [[_ ->]|[Hs _]]; [done|]. lia.
    + destruct (decide (400 ≤ status_code response < 600)) as [Hs|Hs].
      * rewrite raise_for_status_error by done. split; [done|].
        intros [[? _]|[? _]]; done.
      * rewrite raise_for_status_fine by done. unfold json. simpl.
        destruct (body response) as [tasks'|]; split.
        -- intros [= <-]. by right.
        -- intros [[? _]|[_ [= <-]]]; done.
        -- done.
        -- intros [[? _]|[_ ?]]; done.
  - intros project_id assignee_id Hs. unfold get_assigned_issues.
    by rewrite raise_for_status_error.
  - intros Hs. unfold get_my_todos. by rewrite raise_for_status_error.
Qed.

Lemma rest_fetchers_status_witness :
  get_assigned_issues (λ _ _, mkResponse 404 (Some [])) 7 "42" = Raise (HTTPError 404)
  ∧ get_my_todos (mkResponse 404 (Some [1; 2])) = Raise (HTTPError 404)
  ∧ get_issue_tasks (λ _ _, mkResponse 404 (Some [1; 2])) 7 11 = Ok [].
Proof.
  destruct (rest_fetchers_status
              (λ _ _ : Z, mkResponse 404 (Some [1; 2]))
              (λ (_ : Z) (_ : string), mkResponse 404 (Some []))
              (mkResponse 404 (Some [1; 2]))) as (Htasks & Hissues & Htodos).
  split; [apply (Hissues 7 "42"); simpl; lia|].
  split; [apply Htodos; simpl; lia|].
  apply Htasks. by left.
Defined.

Lemma main_loop_cons ep gid rest l σ :
  main_loop ep (gid :: rest) l σ
  = match walk_workitem ep gid 100 l σ with
    | (Ok _, σ') => main_loop ep rest l σ'
    | (Raise e, σ') => (Raise e, σ')
    end.
Proof.
  simpl. unfold walk_workitem, mbind, M_bind.
  destruct (fetch_workitem_hierarchy ep gid 100 σ) as [[workitem|e] σ1]; [|done].
  by destruct (print_workitem_hierarchy workitem 0 (Some l) σ1) as [[?|?] ?].
Qed.

Lemma main_loop_app ep gids1 gids2 l σ :
  main_loop ep (gids1 ++ gids2) l σ
  = match main_loop ep gids1 l σ with
    | (Ok _, σ') => main_loop ep gids2 l σ'
    | (Raise e, σ') => (Raise e, σ')
    end.
Proof.
  revert σ. induction gids1 as [|gid gids1 IH]; intros σ; [done|].
  rewrite <- app_comm_cons, !main_loop_cons.
  destruct (walk_workitem ep gid 100 l σ) as [[?|?] σ']; [apply IH|done].
Qed.

Lemma walk_workitem_answer ep gid page_size r l σ old :
  ep (mkRequest gid page_size "") = answer page_size r →
  heap σ !! l = Some old →
  walk_workitem ep gid page_size l σ
  = (Ok l,
     mkWorld (<[l := old ++ lines012 page_size r]> (heap σ))
       (stdout σ ++ lines012 page_size r)
       (requests σ ++ [mkRequest gid page_size ""])).
Proof.
  intros Hep Hl. unfold walk_workitem, mbind, M_bind.
  rewrite (fetch_workitem_hierarchy_answer ep gid page_size r σ Hep).
  rewrite print_workitem_hierarchy_encode, expected_level0.
  by rewrite (emit_Some _ _ _ old).
Qed.

Lemma main_loop_answers ep (items : list (string * RealItem)) l σ old :
  (∀ gid r, (gid, r) ∈ items → ep (mkRequest gid 100 "") = answer 100 r) →
  heap σ !! l = Some old →
  main_loop ep (fst <$> items) l σ
  = (Ok tt,
     mkWorld (<[l := old ++ List.concat (List.map (λ i, lines012 100 i.2) items)]> (heap σ))
       (stdout σ ++ List.concat (List.map (λ i, lines012 100 i.2) items))
       (requests σ ++ ((λ i, mkRequest i.1 100 "") <$> items))).
Proof.
  revert σ old. induction items as [|[gid r] items IH]; intros σ old Hep Hl.
  - simpl. rewrite !app_nil_r, insert_id by done. by destruct σ.
  - rewrite fmap_cons. cbn [fst]. rewrite main_loop_cons.
    assert (ep (mkRequest gid 100 "") = answer 100 r) as Hg by (apply Hep; constructor).
    rewrite (walk_workitem_answer ep gid 100 r l σ old Hg Hl).
    rewrite (IH _ (old ++ lines012 100 r)); cycle 1.
    { intros g r' Hin. apply Hep. by constructor. }
    { apply lookup_insert_eq. }
    simpl. rewrite insert_insert_eq, <- !app_assoc. done.
Qed.

(** X12.  The main loop sends one request per work item and no other, and
    prints and appends the rendering of each work item in the order of the
    ids, the lines already in the list staying in front. *)
Theorem main_loop_renders_each (graphql_endpoint : Request → Response JSON)
    (items : list (string * RealItem)) (l : positive) (σ : World)
    (old : list string) :
  (∀ gid r, (gid, r) ∈ items →
            graphql_endpoint (mkRequest gid 100 "") = answer 100 r) →
  heap σ !! l = Some old →
  main_loop graphql_endpoint (fst <$> items) l σ
  = (Ok tt,
     mkWorld (<[l := old ++ List.concat (List.map (λ i, lines012 100 i.2) items)]> (heap σ))
       (stdout σ ++ List.concat (List.map (λ i, lines012 100 i.2) items))
       (requests σ ++ ((λ i, mkRequest i.1 100 "") <$> items))).
Proof. apply main_loop_answers. Qed.

Lemma main_loop_renders_each_witness :
  main_loop one_item_tracker
    (fst <$> [("gid://gitlab/WorkItem/1", deep_hierarchy);
              ("gid://gitlab/WorkItem/1", deep_hierarchy)]) 5%positive
    (mkWorld {[5%positive := ["header"]]} [] [])
  = (Ok tt,
     mkWorld (<[5%positive := ["header"] ++ (lines012 100 deep_hierarchy
                                              ++ lines012 100 deep_hierarchy ++ [])]>
                {[5%positive := ["header"]]})
       ([] ++ (lines012 100 deep_hierarchy ++ lines012 100 deep_hierarchy ++ []))
       ([] ++ [mkRequest "gid://gitlab/WorkItem/1" 100 "";
               mkRequest "gid://gitlab/WorkItem/1" 100 ""])).
Proof.
  assert (∀ gid r,
            (gid, r) ∈ [("gid://gitlab/WorkItem/1", deep_hierarchy);
                        ("gid://gitlab/WorkItem/1", deep_hierarchy)] →
            one_item_tracker (mkRequest gid 100 "") = answer 100 r) as Hanswers.
  { intros gid r Hin.
    repeat (apply elem_of_cons in Hin as [[= -> ->]|Hin]); try done.
    by apply elem_of_nil in Hin. }
  exact (main_loop_renders_each one_item_tracker
           [("gid://gitlab/WorkItem/1", deep_hierarchy);
            ("gid://gitlab/WorkItem/1", deep_hierarchy)] 5%positive
           (mkWorld {[5%positive := ["header"]]} [] []) ["header"] Hanswers eq_refl).
Defined.

(** X13.  The main loop stops at the first work item whose request fails:
    what was rendered for the work items before it stays printed and in the
    list, the failed request is the last one sent, and the ids after it are
    never asked for. *)
Theorem main_loop_stops_at_failure (graphql_endpoint : Request → Response JSON)
    (items : list (string * RealItem)) (gid : string) (rest : list string)
    (l : positive) (σ : World) (old : list string) :
  (∀ g r, (g, r) ∈ items → graphql_endpoint (mkRequest g 100 "") = answer 100 r) →
  400 ≤ status_code (graphql_endpoint (mkRequest gid 100 "")) < 600 →
  heap σ !! l = Some old →
  main_loop graphql_endpoint ((fst <$> items) ++ gid :: rest) l σ
  = (Raise (HTTPError (status_code (graphql_endpoint (mkRequest gid 100 "")))),
     mkWorld (<[l := old ++ List.concat (List.map (λ i, lines012 100 i.2) items)]> (heap σ))
       (stdout σ ++ List.concat (List.map (λ i, lines012 100 i.2) items))
       (requests σ ++ ((λ i, mkRequest i.1 100 "") <$> items)
                   ++ [mkRequest gid 100 ""])).
Proof.
  intros Hep Hfail Hl.
  rewrite main_loop_app, (main_loop_answers _ _ _ _ old), main_loop_cons by done.
  unfold walk_workitem, mbind at 1, M_bind.
  pose proof (fetch_workitem_hierarchy_request graphql_endpoint gid 100) as Hfetch.
  match goal with
  | |- context [fetch_workitem_hierarchy _ _ _ ?σ1] => specialize (Hfetch σ1)
  end.
  cbv zeta in Hfetch.
  destruct (fetch_workitem_hierarchy _ _ _ _) as [result σ'].
  destruct Hfetch as (-> & Herror & _). rewrite Herror by done.
  simpl. by rewrite <- app_assoc.
Qed.

Lemma main_loop_stops_at_failure_witness :
  main_loop one_item_tracker
    ((fst <$> [("gid://gitlab/WorkItem/1", deep_hierarchy)])
       ++ "gid://gitlab/WorkItem/9" :: ["gid://gitlab/WorkItem/1"]) 5%positive
    (mkWorld {[5%positive := ["header"]]} [] [])
  = (Raise (HTTPError (status_code (one_item_tracker
                                      (mkRequest "gid://gitlab/WorkItem/9" 100 "")))),
     mkWorld (<[5%positive := ["header"] ++ (lines012 100 deep_hierarchy ++ [])]>
                {[5%positive := ["header"]]})
       ([] ++ (lines012 100 deep_hierarchy ++ []))
       ([] ++ [mkRequest "gid://gitlab/WorkItem/1" 100 ""]
           ++ [mkRequest "gid://gitlab/WorkItem/9" 100 ""])).
Proof.
  assert (∀ gid r,
            (gid, r) ∈ [("gid://gitlab/WorkItem/1", deep_hierarchy)] →
            one_item_tracker (mkRequest gid 100 "") = answer 100 r) as Hanswers.
  { intros gid r Hin.
    repeat (apply elem_of_cons in Hin as [[= -> ->]|Hin]); try done.
    by apply elem_of_nil in Hin. }
  assert (400 ≤ status_code (one_item_tracker (mkRequest "gid://gitlab/WorkItem/9" 100 ""))
          < 600) as Hfail.
  { change (400 ≤ 503 < 600). lia. }
  exact (main_loop_stops_at_failure one_item_tracker
           [("gid://gitlab/WorkItem/1", deep_hierarchy)] "gid://gitlab/WorkItem/9"
           ["gid://gitlab/WorkItem/1"] 5%positive
           (mkWorld {[5%positive := ["header"]]} [] []) ["header"]
           Hanswers Hfail eq_refl).
Defined.

(** X14.  A work item the tracker answers with [null] ends the main loop in
    an [AttributeError]: its request was sent, nothing is printed or
    appended for it, and the ids after it are never asked for. *)
Theorem main_loop_null_workitem (graphql_endpoint : Request → Response JSON)
    (gid : string) (rest : list string) (l : positive) (σ : World) :
  graphql_endpoint (mkRequest gid 100 "") = no_such_workitem →
  main_loop graphql_endpoint (gid :: rest) l σ
  = (Raise AttributeError,
     mkWorld (heap σ) (stdout σ) (requests σ ++ [mkRequest gid 100 ""])).
Proof.
  intros Hep. rewrite main_loop_cons.
  unfold walk_workitem, mbind, M_bind, fetch_workitem_hierarchy, post, lift.
  by rewrite Hep.
Qed.

Lemma main_loop_null_workitem_witness :
  main_loop (λ _, no_such_workitem) ("gid://gitlab/WorkItem/404" :: ["next"]) 5%positive
    (mkWorld {[5%positive := ["header"]]} [] [])
  = (Raise AttributeError,
     mkWorld {[5%positive := ["header"]]} []
       ([] ++ [mkRequest "gid://gitlab/WorkItem/404" 100 ""])).
Proof.
  exact (main_loop_null_workitem (λ _, no_such_workitem) "gid://gitlab/WorkItem/404"
           ["next"] 5%positive (mkWorld {[5%positive := ["header"]]} [] []) eq_refl).
Defined.

(** ** The printer: the date, the keys it reads *)

Lemma split_T_0_String c s :
  split_T_0 (String c s)
  = if decide (c = "T"%char) then EmptyString else String c (split_T_0 s).
Proof. reflexivity. Qed.

Lemma contains_String c c' s :
  contains c (String c' s) = bool_decide (c = c') || contains c s.
Proof. reflexivity. Qed.

(** X15.  The creation date printed is the part of [createdAt] before its
    first T, which is the whole of it when it holds no T. *)
Theorem created_date_prefix :
  (∀ date time, contains "T"%char date = false →
                split_T_0 (date +:+ String "T" time) = date)
  ∧ (∀ s, contains "T"%char s = false → split_T_0 s = s)
  ∧ (∀ s, contains "T"%char (split_T_0 s) = false).
Proof.
  split; [|split].
  - intros date time. induction date as [|c date IH]; intros Hfree.
    + rewrite append_empty, split_T_0_String. by rewrite decide_True.
    + rewrite append_String, split_T_0_String. rewrite contains_String in Hfree.
      apply orb_false_iff in Hfree as [Hc Hfree].
      apply bool_decide_eq_false in Hc. rewrite decide_False by congruence.
      by rewrite IH.
  - intros s. induction s as [|c s IH]; intros Hfree; [done|].
    rewrite split_T_0_String. rewrite contains_String in Hfree.
    apply orb_false_iff in Hfree as [Hc Hfree].
    apply bool_decide_eq_false in Hc. rewrite decide_False by congruence.
    by rewrite IH.
  - intros s. induction s as [|c s IH]; [done|]. rewrite split_T_0_String.
    case_decide as Hc; [done|]. rewrite contains_String, IH.
    rewrite bool_decide_eq_false_2 by congruence. done.
Qed.

Lemma created_date_prefix_witness :
  split_T_0 ("2024-05-06" +:+ String "T" "07:08:09Z") = "2024-05-06"
  ∧ split_T_0 "yesterday" = "yesterday".
Proof.
  destruct created_date_prefix as (Hdate & Hwhole & _).
  split; [by apply Hdate|by apply Hwhole].
Defined.

Lemma get_skip w1 w2 k v k' dflt :
  k ≠ k' → get (w1 ++ (k, v) :: w2) k' dflt = get (w1 ++ w2) k' dflt.
Proof.
  intros Hk. unfold get. rewrite !dict_get_app. simpl.
  by rewrite decide_False.
Qed.

(** X16.  The printer reads six keys of a work item and no other: an entry
    under any other key, such as [id] or [description], changes nothing in
    what the call does. *)
Theorem unread_keys_ignored w1 w2 k v indent lines σ :
  k ∉ read_keys →
  print_workitem_hierarchy (JDict (w1 ++ (k, v) :: w2)) indent lines σ
  = print_workitem_hierarchy (JDict (w1 ++ w2)) indent lines σ.
Proof.
  intros Hk. unfold read_keys in Hk.
  repeat (apply not_elem_of_cons in Hk as [? Hk]).
  assert (∀ l σ', print_workitem_hierarchy (JDict (w1 ++ (k, v) :: w2)) indent (Some l) σ'
                  = print_workitem_hierarchy (JDict (w1 ++ w2)) indent (Some l) σ') as Hsome.
  { intros l σ'. rewrite !print_workitem_hierarchy_dict. unfold line_of.
    by rewrite !get_skip. }
  destruct lines as [l|]; [apply Hsome|].
  rewrite !print_workitem_hierarchy_None. apply Hsome.
Qed.

Lemma unread_keys_ignored_witness :
  print_workitem_hierarchy
    (JDict ([("title", JStr "a")] ++ ("description", JStr "- [x] b") :: [("iid", JStr "1")]))
    0 None (mkWorld ∅ [] [])
  = print_workitem_hierarchy (JDict ([("title", JStr "a")] ++ [("iid", JStr "1")]))
      0 None (mkWorld ∅ [] []).
Proof.
  apply (unread_keys_ignored [("title", JStr "a")] [("iid", JStr "1")] "description").
  by_evaluation.
Defined.

(** ** The GraphQL listings *)

Lemma node_ids_Ok nodes ids :
  Forall2 (λ node id, ∃ d, node = JDict d ∧ dict_get d "id" = Some id) nodes ids →
  node_ids nodes = Ok ids.
Proof.
  induction 1 as [|node id nodes ids (d & -> & Hid) _ IH]; [done|].
  simpl. rewrite Hid. simpl. by rewrite IH.
Qed.

Lemma node_ids_app nodes1 nodes2 :
  node_ids (nodes1 ++ nodes2)
  = ids1 ← node_ids nodes1; ids2 ← node_ids nodes2; Ok (ids1 ++ ids2).
Proof.
  induction nodes1 as [|node nodes1 IH]; simpl.
  - by destruct (node_ids nodes2).
  - destruct (subscript node "id"); simpl; [|done].
    rewrite IH. destruct (node_ids nodes1); simpl; [|done].
    by destruct (node_ids nodes2).
Qed.

(** X17.  The listing returns the [id] of every node of the answer, in the
    order of the nodes; one node without an [id] makes the whole call raise
    [KeyError], the ids before it being lost; a project the tracker answers
    with [null] raises [TypeError]; an error status raises before the body
    is read.  The listing without the user filter returns ids the same
    way. *)
Theorem issue_gids_listing
    (issues_query_endpoint : string → option string → Z → Response JSON)
    (project_full_path my_username : string) (page_size : Z) :
  let response := issues_query_endpoint project_full_path (Some my_username) page_size in
  (∀ nodes ids,
      response = listing (JList nodes) →
      Forall2 (λ node id, ∃ d, node = JDict d ∧ dict_get d "id" = Some id) nodes ids →
      get_my_issue_gids issues_query_endpoint project_full_path my_username page_size
      = Ok ids)
  ∧ (∀ before ids d after,
      response = listing (JList (before ++ JDict d :: after)) →
      Forall2 (λ node id, ∃ d, node = JDict d ∧ dict_get d "id" = Some id) before ids →
      dict_get d "id" = None →
      get_my_issue_gids issues_query_endpoint project_full_path my_username page_size
      = Raise KeyError)
  ∧ (response = mkResponse 200 (Some (JDict [("data", JDict [("project", JNull)])])) →
      get_my_issue_gids issues_query_endpoint project_full_path my_username page_size
      = Raise TypeError)
  ∧ (400 ≤ status_code response < 600 →
      get_my_issue_gids issues_query_endpoint project_full_path my_username page_size
      = Raise (HTTPError (status_code response)))
  ∧ (∀ nodes ids,
      issues_query_endpoint project_full_path None page_size = listing (JList nodes) →
      Forall2 (λ node id, ∃ d, node = JDict d ∧ dict_get d "id" = Some id) nodes ids →
      get_all_issue_gids issues_query_endpoint project_full_path page_size = Ok ids).
Proof.
  intros response. unfold get_my_issue_gids, get_all_issue_gids. fold response.
  split; [|split; [|split; [|split]]]; cycle 4.
  { intros nodes ids -> Hids. unfold issue_gids_of, listing. simpl.
    by apply node_ids_Ok. }
  - intros nodes ids -> Hids. unfold issue_gids_of, listing. simpl.
    by apply node_ids_Ok.
  - intros before ids d after -> Hids Hd. unfold issue_gids_of, listing. simpl.
    rewrite node_ids_app, (node_ids_Ok _ _ Hids). simpl. by rewrite Hd.
  - by intros ->.
  - intros Hs. unfold issue_gids_of. by rewrite raise_for_status_error.
Qed.

Lemma issue_gids_listing_witness :
  get_my_issue_gids listing_tracker "epp/edr" "me" 100
  = Ok [JStr "gid://gitlab/Issue/1"; JStr "gid://gitlab/Issue/2"]
  ∧ get_my_issue_gids listing_tracker "epp/edr" "nobody" 100 = Raise TypeError
  ∧ get_my_issue_gids listing_tracker "epp/edr" "you" 100
    = Raise (HTTPError (status_code (listing_tracker "epp/edr" (Some "you") 100))).
Proof.
  split; [|split].
  - destruct (issue_gids_listing listing_tracker "epp/edr" "me" 100) as (Hids & _).
    apply (Hids two_issues); [done|].
    repeat constructor; eexists; (split; [done|]); reflexivity.
  - destruct (issue_gids_listing listing_tracker "epp/edr" "nobody" 100) as (_ & _ & Hnull & _).
    by apply Hnull.
  - destruct (issue_gids_listing listing_tracker "epp/edr" "you" 100) as (_ & _ & _ & Herr & _).
    apply Herr. change (400 ≤ 401 < 600). lia.
Defined.

(** ** The tree renderer *)

Section RendererProperties.
Variable upper : string → string.
Variable STATE_LABEL : string.

Lemma print_issue_tree_S limit issue cm indent console :
  print_issue_tree upper STATE_LABEL (S limit) issue cm indent console
  = render_children
      (λ child console, print_issue_tree upper STATE_LABEL limit child cm (S indent) console)
      (entry cm (issue_id issue))
      (if decide (indent = 0%nat)
       then (console ++ [issue_line upper STATE_LABEL issue indent])
              ++ (task_line indent
                    <$> parse_tasks_from_description (issue_description issue))
       else console ++ [issue_line upper STATE_LABEL issue indent]).
Proof.
  simpl. generalize (entry cm (issue_id issue)). intros children.
  generalize (if decide (indent = 0%nat)
       then (console ++ [issue_line upper STATE_LABEL issue indent])
              ++ (task_line indent
                    <$> parse_tasks_from_description (issue_description issue))
       else console ++ [issue_line upper STATE_LABEL issue indent]).
  induction children as [|child children IH]; intros c; [done|].
  simpl. destruct (print_issue_tree _ _ _ _ _ _ _) as [[] c']; [apply IH|done].
Qed.

Lemma render_children_raises visit children child :
  child ∈ children →
  (∀ console, (visit child console).1 = RecursionError) →
  ∀ console, (render_children visit children console).1 = RecursionError.
Proof.
  intros Hin Hchild. induction Hin as [child children|child other children _ IH];
    intros console; simpl.
  - specialize (Hchild console). by destruct (visit child console) as [[] c].
  - destruct (visit other console) as [[] c]; [by apply IH|done].
Qed.

Lemma tc_cycle_step (R : Z → Z → Prop) a : tc R a a → ∃ b, R a b ∧ tc R b b.
Proof.
  intros Haa. inversion Haa as [? ? Hab|? b ? Hab Hba]; subst.
  - exists a. split; [done|by apply tc_once].
  - exists b. split; [done|]. eapply tc_r; done.
Qed.

(** X18.  On an issue that is its own descendant in the children map the
    renderer never returns: whatever the recursion limit, the call ends in
    [RecursionError]. *)
Theorem print_issue_tree_cycle (cm : gmap Z (list Issue)) (issue : Issue) :
  tc (child_edge cm) (issue_id issue) (issue_id issue) →
  ∀ limit indent console,
    (print_issue_tree upper STATE_LABEL limit issue cm indent console).1 = RecursionError.
Proof.
  intros Hcycle limit. revert issue Hcycle.
  induction limit as [|limit IH]; intros issue Hcycle indent console; [done|].
  rewrite print_issue_tree_S.
  apply tc_cycle_step in Hcycle as (b & (child & Hchild & <-) & Hb).
  eapply render_children_raises; [done|].
  intros c. by apply IH.
Qed.

Lemma render_children_ext visit1 visit2 children console :
  (∀ child c, child ∈ children → visit1 child c = visit2 child c) →
  render_children visit1 children console = render_children visit2 children console.
Proof.
  revert console. induction children as [|child children IH]; intros console Hext; [done|].
  simpl. rewrite Hext by constructor.
  destruct (visit2 child console) as [[] c]; [|done].
  apply IH. intros y c' Hy. apply Hext. by constructor.
Qed.

Lemma render_children_fmap (f : Issue → Issue) visit children console :
  render_children visit (f <$> children) console
  = render_children (λ child, visit (f child)) children console.
Proof.
  revert console. induction children as [|child children IH]; intros console; [done|].
  simpl. destruct (visit (f child) console) as [[] c]; [apply IH|done].
Qed.

Lemma issue_line_without_description issue indent :
  issue_line upper STATE_LABEL (without_description issue) indent
  = issue_line upper STATE_LABEL issue indent.
Proof. done. Qed.

Lemma entry_without_descriptions (cm : gmap Z (list Issue)) p :
  entry (without_descriptions cm) p = without_description <$> entry cm p.
Proof.
  unfold entry, without_descriptions. rewrite lookup_fmap. by destruct (cm !! p).
Qed.

Lemma print_issue_tree_below_root limit issue cm indent console :
  print_issue_tree upper STATE_LABEL limit (without_description issue)
    (without_descriptions cm) (S indent) console
  = print_issue_tree upper STATE_LABEL limit issue cm (S indent) console.
Proof.
  revert issue indent console.
  induction limit as [|limit IH]; intros issue indent console; [done|].
  rewrite !print_issue_tree_S, issue_line_without_description.
  rewrite !decide_False by done.
  change (issue_id (without_description issue)) with (issue_id issue).
  rewrite entry_without_descriptions, render_children_fmap.
  apply render_children_ext. intros child c _. apply IH.
Qed.

(** X19.  Checklists are printed for the issue the renderer is called on at
    depth 0 and for no other: the descriptions of the issues of the children
    map play no part in the output, and neither does the description of an
    issue rendered below depth 0. *)
Theorem print_issue_tree_root_checklist_only limit issue cm indent console :
  print_issue_tree upper STATE_LABEL limit issue cm 0 console
  = print_issue_tree upper STATE_LABEL limit issue (without_descriptions cm)
      0 console
  ∧ print_issue_tree upper STATE_LABEL limit issue cm (S indent) console
    = print_issue_tree upper STATE_LABEL limit (without_description issue)
        (without_descriptions cm) (S indent) console.
Proof.
  split; [|by rewrite print_issue_tree_below_root].
  destruct limit as [|limit]; [done|].
  rewrite !print_issue_tree_S, entry_without_descriptions, render_children_fmap.
  apply render_children_ext. intros child c _.
  by rewrite print_issue_tree_below_root.
Qed.

Lemma render_children_more visit1 visit2 children console out :
  (∀ child c out', child ∈ children →
      visit1 child c = (Returned, out') → visit2 child c = (Returned, out')) →
  render_children visit1 children console = (Returned, out) →
  render_children visit2 children console = (Returned, out).
Proof.
  revert console. induction children as [|child children IH]; intros console Hmore; [done|].
  simpl. destruct (visit1 child console) as [[] c] eqn:Hchild; [|done].
  rewrite (Hmore child console c) by (done || constructor).
  apply IH. intros y c' out' Hy. apply Hmore. by constructor.
Qed.

(** X20.  A call that returns within a recursion limit returns with the
    same output within every larger limit. *)
Theorem print_issue_tree_limit limit limit' issue cm indent console out :
  (limit ≤ limit')%nat →
  print_issue_tree upper STATE_LABEL limit issue cm indent console = (Returned, out) →
  print_issue_tree upper STATE_LABEL limit' issue cm indent console = (Returned, out).
Proof.
  revert limit' issue indent console out.
  induction limit as [|limit IH]; intros limit' issue indent console out Hle; [done|].
  destruct limit' as [|limit']; [lia|].
  rewrite !print_issue_tree_S. apply render_children_more.
  intros child c out' _. apply IH. lia.
Qed.

End RendererProperties.

Lemma print_issue_tree_cycle_witness :
  (print_issue_tree ascii_upper "state" 1000 (sample_issue 2 12 None "left")
     cyclic_map 0 []).1 = RecursionError.
Proof.
  apply (print_issue_tree_cycle ascii_upper "state" cyclic_map
           (sample_issue 2 12 None "left")).
  eapply tc_l; [|apply tc_once].
  - exists (sample_issue 3 13 None "right"). split; [by_evaluation|reflexivity].
  - exists (sample_issue 2 12 None "left"). split; [by_evaluation|reflexivity].
Defined.

Lemma print_issue_tree_limit_witness :
  print_issue_tree ascii_upper "state" 1000 story_with_checklist story_map 0 []
  = (Returned,
     ["- [ISSUE] story (#11) | state: opened";
      "    [x] draft";
      "    - [TASK] step (#12) | state: closed"]).
Proof.
  apply (print_issue_tree_limit ascii_upper "state" 2 1000); [lia|].
  vm_compute. reflexivity.
Defined.

(** ** The builder and the renderer together; the printer on null fields *)

Lemma child_edge_of_input_edge P ep issues ibi cm roots a b :
  build_issue_tree P ep issues = Ok (ibi, cm, roots) →
  input_edge ep P issues a b → child_edge cm a b.
Proof.
  intros (-> & Hentry & _)%build_issue_tree_Ok.
  intros [(x & Hx & Hid & Hp)|(src & link & x & Hsrc & Ha & Ht & Hl & Hb & Hid)];
    exists x; (split; [|done]); rewrite Hentry; apply elem_of_app.
  - left. by apply elem_of_parent_children.
  - right. apply elem_of_link_children. by exists src, link.
Qed.

(** X21.  The builder guards against no cycle and the renderer has no
    cycle guard either: when the parent references and [blocks] links of the
    input lead from an issue back to itself, the tree is built, and rendering
    that issue on it never returns, whatever the recursion limit. *)
Theorem cyclic_input_never_renders (upper : string → string) (STATE_LABEL : string)
    (PROJECT_ID : Z) (links_endpoint : Z → Z → Response (list Link))
    (issues : list Issue) (issue : Issue) :
  links_available links_endpoint PROJECT_ID issues →
  tc (input_edge links_endpoint PROJECT_ID issues) (issue_id issue) (issue_id issue) →
  ∃ ibi cm roots,
    build_issue_tree PROJECT_ID links_endpoint issues = Ok (ibi, cm, roots)
    ∧ ∀ limit indent console,
        (print_issue_tree upper STATE_LABEL limit issue cm indent console).1
        = RecursionError.
Proof.
  intros Hav Hcycle.
  destruct (build_issue_tree_total PROJECT_ID links_endpoint issues Hav)
    as (ibi & cm & roots & Hbuild).
  exists ibi, cm, roots. split; [done|].
  apply print_issue_tree_cycle. eapply tc_impl; [|done].
  intros a b. by eapply child_edge_of_input_edge.
Qed.

Lemma cyclic_input_never_renders_witness :
  ∃ ibi cm roots,
    build_issue_tree 7 mutual_block_links mutual_block_issues = Ok (ibi, cm, roots)
    ∧ ∀ limit indent console,
        (print_issue_tree ascii_upper "state" limit (sample_issue 2 12 None "left")
           cm indent console).1 = RecursionError.
Proof.
  apply (cyclic_input_never_renders ascii_upper "state" 7 mutual_block_links
           mutual_block_issues (sample_issue 2 12 None "left")).
  - run_links_requests.
  - eapply tc_l; [|apply tc_once]; right.
    + exists (sample_issue 2 12 None "left"), (mkLink 13 (Some "blocks")),
        (sample_issue 3 13 None "right").
      repeat split; try by_evaluation; reflexivity.
    + exists (sample_issue 3 13 None "right"), (mkLink 12 (Some "blocks")),
        (sample_issue 2 12 None "left").
      repeat split; try by_evaluation; reflexivity.
Defined.

(** X22.  The defaults of the printer cover absent keys only: a
    [workItemType] that is present but no object, or a [createdAt] that is
    present but no str ([null], say), raises [AttributeError] before the
    line of the work item is printed or appended. *)
Theorem present_null_field_raises (w : list (string * JSON)) (indent : nat)
    (l : positive) (σ : World) (v : JSON) :
  (dict_get w "workItemType" = Some v ∧ ∀ d, v ≠ JDict d)
  ∨ (dict_get w "createdAt" = Some v ∧ ∀ s, v ≠ JStr s) →
  print_workitem_hierarchy (JDict w) indent (Some l) σ = (Raise AttributeError, σ).
Proof.
  intros Hnull. rewrite print_workitem_hierarchy_dict.
  assert (line_of w indent = Raise AttributeError) as ->; [|done].
  unfold line_of, get. destruct Hnull as [[-> Hv]|[Hc Hv]]; simpl.
  - destruct v as [| | | | |d]; try done. by destruct (Hv d).
  - rewrite Hc. simpl.
    destruct (default (JDict []) (dict_get w "workItemType")); try done.
    destruct v as [| | |s| |]; try done. by destruct (Hv s).
Qed.

Lemma present_null_field_raises_witness :
  print_workitem_hierarchy (JDict [("title", JStr "a"); ("createdAt", JNull)]) 0
    (Some 5%positive) (mkWorld {[5%positive := ["header"]]} [] [])
  = (Raise AttributeError, mkWorld {[5%positive := ["header"]]} [] []).
Proof.
  apply (present_null_field_raises [("title", JStr "a"); ("createdAt", JNull)] 0%nat
           5%positive (mkWorld {[5%positive := ["header"]]} [] []) JNull).
  right. split; [reflexivity|discriminate].
Defined.
